(** * ShortShorts: the media pipeline, embedded and checked

    A shallow embedding of the parts of the ShortShorts repository that
    its specification talks about: the smart cropper
    ([lib/mediapipe/cropper.ts], [lib/ffmpeg/crop.ts]), the duration
    matcher ([lib/ffmpeg/timestretch.ts]), the caption generator
    ([lib/utils/captions.ts]), the clip extractor and the stitcher
    ([lib/ffmpeg/extract.ts], [lib/ffmpeg/stitch.ts]), the job store
    ([lib/server/job-store.ts]), the server-side orchestrator
    ([lib/server/processor.ts]) and the browser-side one
    ([ProcessStep.tsx]); and, around them, the API routes
    ([app/api/process], [app/api/status], [app/api/upload]) with the
    client that calls them, the rest of the ffmpeg library and of the
    cropper, the caption lookup, the timestamps ([lib/utils/time.ts]),
    the placeholder speech and its WAV writer ([lib/piper]), the mixer
    ([lib/utils/audio.ts]) and the reordering of the project store.

    JavaScript numbers are modelled as exact rationals ([Q]); pixel
    dimensions and the results of [Math.round] are integers ([Z]).  For
    integer frame sizes the comparisons and roundings of the cropper are
    the same in exact and in double-precision arithmetic: [h * 0.5625] is
    exact, and [16 * w / 9] is never within rounding distance of a half. *)

From Stdlib Require Import ZArith QArith Qround Qabs Qminmax Lia Lqa.
From stdpp Require Import base list strings gmap pretty.

Local Open Scope Z_scope.
Local Open Scope Q_scope.

(** ** JavaScript numerics *)

(** [Math.round]: the nearest integer, halves rounded up. *)
Definition Math_round (q : Q) : Z := Qfloor (q + (1 # 2)).

(** [a > b] on numbers, as a boolean. *)
Definition Qgtb (a b : Q) : bool := negb (Qle_bool a b).

(** ** Data model ([types/index.ts]) *)

Record Point := mkPoint { pt_x : Q; pt_y : Q }.

Record CropRegion := mkCropRegion {
  crop_x : Z;
  crop_y : Z;
  crop_width : Z;
  crop_height : Z
}.

(** ** Smart cropper *)

Definition OUTPUT_WIDTH : Z := 720.
Definition OUTPUT_HEIGHT : Z := 1280.
Definition TARGET_ASPECT : Q := inject_Z OUTPUT_WIDTH / inject_Z OUTPUT_HEIGHT.

(** [faceCenters.filter(c => c !== null)] *)
Fixpoint filter_valid (faceCenters : list (option Point)) : list Point :=
  match faceCenters with
  | [] => []
  | Some c :: rest => c :: filter_valid rest
  | None :: rest => filter_valid rest
  end.

(** [xs.reduce((sum, w) => sum + w, 0)] *)
Definition sumQ (xs : list Q) : Q := fold_left Qplus xs 0.

(** [lib/ffmpeg/crop.ts], [calculateCropRegion]. *)
Definition calculateCropRegion
    (videoWidth videoHeight : Z) (faceCenter : option Point) : CropRegion :=
  let targetAspect := 9 / 16 in
  let videoAspect := inject_Z videoWidth / inject_Z videoHeight in
  let '(cropWidth, cropHeight) :=
    if Qgtb videoAspect targetAspect
    then (Math_round (inject_Z videoHeight * targetAspect), videoHeight)
    else (videoWidth, Math_round (inject_Z videoWidth / targetAspect)) in
  let x := Math_round (inject_Z (videoWidth - cropWidth) / 2) in
  let y := Math_round (inject_Z (videoHeight - cropHeight) / 2) in
  match faceCenter with
  | Some c =>
      let x := Math_round (pt_x c - inject_Z cropWidth / 2) in
      let y := Math_round (pt_y c - inject_Z cropHeight / 3) in
      let x := Z.max 0 (Z.min x (videoWidth - cropWidth)) in
      let y := Z.max 0 (Z.min y (videoHeight - cropHeight)) in
      mkCropRegion x y cropWidth cropHeight
  | None => mkCropRegion x y cropWidth cropHeight
  end.

(** [lib/ffmpeg/crop.ts], [smartCrop]: the region handed to [cropVideo]. *)
Definition averageCenter (faceCenters : list (option Point)) : option Point :=
  let validCenters := filter_valid faceCenters in
  if (0 <? Z.of_nat (length validCenters))%Z then
    let sumX := fold_left (fun sum c => sum + pt_x c) validCenters 0 in
    let sumY := fold_left (fun sum c => sum + pt_y c) validCenters 0 in
    Some (mkPoint (sumX / inject_Z (Z.of_nat (length validCenters)))
                  (sumY / inject_Z (Z.of_nat (length validCenters))))
  else None.

Definition smartCrop_region
    (faceCenters : list (option Point)) (videoWidth videoHeight : Z) : CropRegion :=
  calculateCropRegion videoWidth videoHeight (averageCenter faceCenters).

Section Cropper.
(** [Math.pow], which the cropper only calls as [Math.pow(1.2, i / n)]. *)
Variable Math_pow : Q -> Q -> Q.

(** [validCenters.map((_, i) => Math.pow(1.2, i / validCenters.length))] *)
Definition recency_weights (validCenters : list Point) : list Q :=
  map (fun i => Math_pow (12 # 10)
                  (inject_Z (Z.of_nat i) / inject_Z (Z.of_nat (length validCenters))))
      (seq 0 (length validCenters)).

(** [validCenters.reduce((sum, c, i) => sum + f(c) * weights[i], 0)] *)
Definition weighted_sum (f : Point -> Q) (validCenters : list Point) (weights : list Q) : Q :=
  fold_left (fun sum cw => sum + f (fst cw) * snd cw) (combine validCenters weights) 0.

(** The point the crop is aimed at. *)
Definition targetCenter
    (faceCenters : list (option Point)) (videoWidth videoHeight : Z) : Point :=
  let validCenters := filter_valid faceCenters in
  if (0 <? Z.of_nat (length validCenters))%Z then
    let weights := recency_weights validCenters in
    let totalWeight := sumQ weights in
    mkPoint (weighted_sum pt_x validCenters weights / totalWeight)
            (weighted_sum pt_y validCenters weights / totalWeight)
  else mkPoint (inject_Z videoWidth / 2) (inject_Z videoHeight / 3).

(** [lib/mediapipe/cropper.ts], [calculateOptimalCrop]. *)
Definition calculateOptimalCrop
    (faceCenters : list (option Point)) (videoWidth videoHeight : Z) : CropRegion :=
  let target := targetCenter faceCenters videoWidth videoHeight in
  let videoAspect := inject_Z videoWidth / inject_Z videoHeight in
  let '(cropWidth, cropHeight) :=
    if Qgtb videoAspect TARGET_ASPECT
    then (Math_round (inject_Z videoHeight * TARGET_ASPECT), videoHeight)
    else (videoWidth, Math_round (inject_Z videoWidth / TARGET_ASPECT)) in
  let x := Math_round (pt_x target - inject_Z cropWidth / 2) in
  let y := Math_round (pt_y target - inject_Z cropHeight / 3) in
  let x := Z.max 0 (Z.min x (videoWidth - cropWidth)) in
  let y := Z.max 0 (Z.min y (videoHeight - cropHeight)) in
  mkCropRegion x y cropWidth cropHeight.

(** [getCenterCrop] *)
Definition getCenterCrop (videoWidth videoHeight : Z) : CropRegion :=
  calculateOptimalCrop [] videoWidth videoHeight.
End Cropper.

(** ** Duration matcher ([lib/ffmpeg/timestretch.ts], [adjustDuration]) *)

(** [currentDuration / targetDuration] *)
Definition speedFactor (targetDuration currentDuration : Q) : Q :=
  currentDuration / targetDuration.

(** [Math.max(0.5, Math.min(2.0, speedFactor))] *)
Definition clampedSpeed (targetDuration currentDuration : Q) : Q :=
  Qmax (5 # 10) (Qmin 2 (speedFactor targetDuration currentDuration)).

(** [1 / clampedSpeed], the factor of the [setpts] filter. *)
Definition ptsMultiplier (targetDuration currentDuration : Q) : Q :=
  1 / clampedSpeed targetDuration currentDuration.


(** ** Caption generator ([lib/utils/captions.ts]) *)

(** A JavaScript string: its UTF-16 code units. *)
Definition jsstring := list N.

Definition js (s : string) : jsstring :=
  map Ascii.N_of_ascii (String.list_ascii_of_string s).

(** The characters matched by [\s] and removed by [trim()]. *)
Definition is_ws (c : N) : bool :=
  ((9 <=? c) && (c <=? 13) || (c =? 32) || (c =? 160) || (c =? 5760)
   || (8192 <=? c) && (c <=? 8202) || (c =? 8232) || (c =? 8233)
   || (c =? 8239) || (c =? 8287) || (c =? 12288) || (c =? 65279))%N.

Fixpoint trimStart (s : jsstring) : jsstring :=
  match s with
  | c :: rest => if is_ws c then trimStart rest else s
  | [] => []
  end.

Definition trim (s : jsstring) : jsstring :=
  rev (trimStart (rev (trimStart s))).

(** [s.split(/\s+/)]: [cur] is the piece being read (reversed), [in_sep]
    tells that the previous character belonged to a separator. *)
Fixpoint split_ws_aux (cur : jsstring) (in_sep : bool) (s : jsstring) : list jsstring :=
  match s with
  | [] => [rev cur]
  | c :: rest =>
      if is_ws c then
        if in_sep then split_ws_aux [] true rest
        else rev cur :: split_ws_aux [] true rest
      else split_ws_aux (c :: cur) false rest
  end.

Definition split_ws (s : jsstring) : list jsstring := split_ws_aux [] false s.

(** [.filter(Boolean)] on strings: the empty string is falsy. *)
Definition filter_Boolean (l : list jsstring) : list jsstring :=
  filter (fun w => w <> []) l.

(** [text.trim().split(/\s+/).filter(Boolean)] *)
Definition words_of (text : jsstring) : list jsstring :=
  filter_Boolean (split_ws (trim text)).

(** [word.endsWith(c)] for a one-character [c]. *)
Definition endsWith (word : jsstring) (c : string) : bool :=
  match js c, last word with
  | [u], Some l => (l =? u)%N
  | _, _ => false
  end.

(** The weight of one word, as in the callback of [words.map]. *)
Definition word_weight (word : jsstring) : Q :=
  let weight := inject_Z (Z.of_nat (length word)) in
  if endsWith word "." || endsWith word "!" || endsWith word "?" then
    weight + 3
  else if endsWith word "," || endsWith word ";" || endsWith word ":" then
    weight + (15 # 10)
  else weight.

Record CaptionWord := mkCaptionWord {
  cw_text : jsstring;
  startTime : Q;
  endTime : Q
}.

(** The [for] loop that pushes one timing per word. *)
Fixpoint timings_loop (timePerWeight : Q) (words : list jsstring) (currentTime : Q)
    : list CaptionWord :=
  match words with
  | [] => []
  | word :: rest =>
      let wordDuration := word_weight word * timePerWeight in
      mkCaptionWord word currentTime (currentTime + wordDuration)
      :: timings_loop timePerWeight rest (currentTime + wordDuration)
  end.

Definition set_endTime (t : Q) (w : CaptionWord) : CaptionWord :=
  mkCaptionWord (cw_text w) (startTime w) t.

(** [estimateWordTimings(text, startTime, duration)] *)
Definition estimateWordTimings (text : jsstring) (start duration : Q) : list CaptionWord :=
  let words := words_of text in
  if (length words =? 0)%nat then []
  else
    let weights := map word_weight words in
    let totalWeight := sumQ weights in
    let timePerWeight := duration / totalWeight in
    let timings := timings_loop timePerWeight words start in
    alter (set_endTime (start + duration)) (length timings - 1)%nat timings.

Record ScriptSegment := mkScriptSegment {
  seg_id : string;
  outputTime : Q;
  script : jsstring;
  sourceTimestamp : Q
}.

Record SegmentCaptions := mkSegmentCaptions {
  segmentId : string;
  cap_words : list CaptionWord
}.

(** [durations[i] || 3]: a missing or zero duration counts as three seconds. *)
Definition duration_or_default (durations : list Q) (i : nat) : Q :=
  match durations !! i with
  | Some d => if Qeq_bool d 0 then 3 else d
  | None => 3
  end.

(** The loop of [generateCaptions], from index [i] with the running
    [cumulativeTime]. *)
Fixpoint generateCaptions_loop (segments : list ScriptSegment) (durations : list Q)
    (i : nat) (cumulativeTime : Q) : list SegmentCaptions :=
  match segments with
  | [] => []
  | segment :: rest =>
      let duration := duration_or_default durations i in
      let words := estimateWordTimings (script segment) cumulativeTime duration in
      mkSegmentCaptions (seg_id segment) words
      :: generateCaptions_loop rest durations (S i) (cumulativeTime + duration)
  end.

Definition generateCaptions (segments : list ScriptSegment) (durations : list Q)
    : list SegmentCaptions :=
  generateCaptions_loop segments durations 0 0.

(** ** Effects: errors, the ffmpeg.wasm file system, the job store *)

Definition Bytes := list Byte.byte.

(** The outcome of an awaited call: a value, or a thrown [Error] with its
    message. *)
Inductive result (A : Type) : Type :=
  | Ok (a : A)
  | Throw (message : string).
Arguments Ok {A} a.
Arguments Throw {A} message.

Inductive JobStatus := status_pending | status_processing | status_complete | status_error.

Inductive ProcessingStage :=
  | stage_queued | stage_loading | stage_tts | stage_extracting | stage_detecting
  | stage_cropping | stage_stitching | stage_complete | stage_error.

Record ProcessingJob := mkJob {
  job_id : string;
  job_status : JobStatus;
  job_stage : ProcessingStage;
  job_progress : Q;
  job_currentSegment : option nat;
  job_totalSegments : nat;
  job_message : string;
  job_error : option string;
  job_videoUrl : string;
  job_segments : list ScriptSegment;
  job_voiceId : string;
  job_musicUrl : option string;
  job_musicVolume : Q;
  job_includeCaptions : bool;
  job_outputUrl : option string;
  job_captions : option (list SegmentCaptions)
}.

(** The state of the [ProcessStep] component ([ProcessingState]). *)
Record ProcessingState := mkProcessingState {
  ps_stage : ProcessingStage;
  ps_currentSegment : nat;
  ps_totalSegments : nat;
  ps_progress : Q;
  ps_message : string;
  ps_error : option string
}.

(** What the browser-side orchestrator keeps: the state of the component,
    its [processingRef], and the captions and the output video it hands
    to the project store.  [shown] is a ghost record of every state the
    component was given, oldest first. *)
Record UIState := mkUIState {
  processingState : ProcessingState;
  processingRef : bool;
  project_captions : list SegmentCaptions;
  outputVideo : option Bytes;
  shown : list ProcessingState
}.

(** What the code can touch: ffmpeg's virtual file system, whether the
    ffmpeg core is loaded, the in-memory job store and the state of the
    user interface.  Two ghost fields record what happened: [written]
    holds every job value the store was handed and [ran] every ffmpeg
    command line that was executed, oldest first.  The timestamps
    [createdAt], [updatedAt] and [completedAt] are left out. *)
Record World := mkWorld {
  fs : gmap string Bytes;
  ffmpeg_loaded : bool;
  memoryStore : gmap string ProcessingJob;
  written : list ProcessingJob;
  ran : list (list string);
  ui : UIState
}.

Definition set_fs (f : gmap string Bytes → gmap string Bytes) (w : World) : World :=
  mkWorld (f (fs w)) (ffmpeg_loaded w) (memoryStore w) (written w) (ran w) (ui w).

Definition set_loaded (w : World) : World :=
  mkWorld (fs w) true (memoryStore w) (written w) (ran w) (ui w).

Definition log_run (args : list string) (w : World) : World :=
  mkWorld (fs w) (ffmpeg_loaded w) (memoryStore w) (written w) (ran w ++ [args]) (ui w).

Definition set_ui (f : UIState → UIState) (w : World) : World :=
  mkWorld (fs w) (ffmpeg_loaded w) (memoryStore w) (written w) (ran w) (f (ui w)).

Definition M (A : Type) : Type := World → result A * World.

Global Instance M_ret : MRet M := λ A a w, (Ok a, w).
Global Instance M_bind : MBind M := λ A B f m w,
  match m w with
  | (Ok a, w') => f a w'
  | (Throw e, w') => (Throw e, w')
  end.

Definition throw {A} (message : string) : M A := λ w, (Throw message, w).

(** [try { body } finally { cleanup }]: the cleanup always runs; an error
    it throws replaces the outcome of the body. *)
Definition try_finally {A} (body : M A) (cleanup : M unit) : M A := λ w,
  let '(r, w1) := body w in
  match cleanup w1 with
  | (Ok _, w2) => (r, w2)
  | (Throw e, w2) => (Throw e, w2)
  end.

(** [try { body } catch (error) { handler(error.message) }] *)
Definition try_catch {A} (body : M A) (handler : string → M A) : M A := λ w,
  match body w with
  | (Ok a, w1) => (Ok a, w1)
  | (Throw e, w1) => handler e w1
  end.

(** What one run of the ffmpeg command line leaves behind: the contents
    of the output file if one was produced, and the error if the call
    rejected. *)
Record ExecOutcome := mkExecOutcome {
  exec_output : option Bytes;
  exec_error : option string
}.

Definition FS_ERROR : string := "ErrnoError: FS error".

(** ** The [FFmpeg] object: its file system *)

Definition ff_writeFile (name : string) (data : Bytes) : M unit := λ w,
  (Ok (), set_fs (insert name data) w).

Definition ff_readFile (name : string) : M Bytes := λ w,
  match fs w !! name with
  | Some data => (Ok data, w)
  | None => (Throw FS_ERROR, w)
  end.

Definition ff_deleteFile (name : string) : M unit := λ w,
  match fs w !! name with
  | Some _ => (Ok (), set_fs (delete name) w)
  | None => (Throw FS_ERROR, w)
  end.

(** ** [lib/server/job-store.ts], the in-memory store

    The store that is used outside production.  The Redis branch keeps
    the same records as JSON text. *)

(** [Partial<Pick<ProcessingJob, ...>>]: [Some v] is a key that is
    present.  [currentSegment] and [captions] may be present with the
    value [undefined]. *)
Record JobUpdates := mkJobUpdates {
  u_status : option JobStatus;
  u_stage : option ProcessingStage;
  u_progress : option Q;
  u_currentSegment : option (option nat);
  u_message : option string;
  u_error : option string;
  u_outputUrl : option string;
  u_captions : option (option (list SegmentCaptions))
}.

(** [{ ...job, ...updates }] *)
Definition apply_updates (job : ProcessingJob) (u : JobUpdates) : ProcessingJob :=
  mkJob (job_id job)
    (default (job_status job) (u_status u))
    (default (job_stage job) (u_stage u))
    (default (job_progress job) (u_progress u))
    (default (job_currentSegment job) (u_currentSegment u))
    (job_totalSegments job)
    (default (job_message job) (u_message u))
    (match u_error u with Some e => Some e | None => job_error job end)
    (job_videoUrl job) (job_segments job) (job_voiceId job) (job_musicUrl job)
    (job_musicVolume job) (job_includeCaptions job)
    (match u_outputUrl u with Some o => Some o | None => job_outputUrl job end)
    (default (job_captions job) (u_captions u)).

(** [memoryStore.set(jobId, job)] *)
Definition record_job (jobId : string) (job : ProcessingJob) (w : World) : World :=
  mkWorld (fs w) (ffmpeg_loaded w) (<[jobId := job]> (memoryStore w))
          (written w ++ [job]) (ran w) (ui w).

Definition store_set (jobId : string) (job : ProcessingJob) : M unit := λ w,
  (Ok (), record_job jobId job w).

Definition createJob (job : ProcessingJob) : M unit := store_set (job_id job) job.

Definition getJob (jobId : string) : M (option ProcessingJob) := λ w,
  (Ok (memoryStore w !! jobId), w).

Definition updateJob (jobId : string) (updates : JobUpdates) : M unit :=
  job ← getJob jobId;
  match job with
  | None => throw ("Job not found: " +:+ jobId)
  | Some job => store_set jobId (apply_updates job updates)
  end.

Definition updateJobProgress (jobId : string) (stage : ProcessingStage) (progress : Q)
    (message : string) (currentSegment : option nat) : M unit :=
  updateJob jobId
    (mkJobUpdates
       (Some (match stage with
              | stage_complete => status_complete
              | stage_error => status_error
              | _ => status_processing
              end))
       (Some stage) (Some progress) (Some currentSegment) (Some message)
       None None None).

Definition completeJob (jobId outputUrl : string)
    (captions : option (list SegmentCaptions)) : M unit :=
  updateJob jobId
    (mkJobUpdates (Some status_complete) (Some stage_complete) (Some 100) None
       (Some "Processing complete") None (Some outputUrl) (Some captions)).

Definition failJob (jobId error : string) : M unit :=
  updateJob jobId
    (mkJobUpdates (Some status_error) (Some stage_error) None None
       (Some "Processing failed") (Some error) None None).

Definition deleteJob (jobId : string) : M unit := λ w,
  (Ok (), mkWorld (fs w) (ffmpeg_loaded w) (delete jobId (memoryStore w)) (written w)
                  (ran w) (ui w)).

(** [`${label} ${i + 1}/${n}...`], the message of a per-segment update. *)
Definition segment_message (label : string) (i n : nat) : string :=
  label +:+ " " +:+ pretty (i + 1)%nat +:+ "/" +:+ pretty n +:+ "...".

Section Engine.
(** The external engines.  [ffmpeg_load] is the outcome of loading the
    ffmpeg core, [ffmpeg_run] the behaviour of one command on a file
    system, [Number_toString] is [Number.prototype.toString]. *)
Variable ffmpeg_load : result unit.
Variable ffmpeg_run : list string → gmap string Bytes → ExecOutcome.
Variable Number_toString : Q → string.

(** [ff.exec(args)]: the output file is the last argument. *)
Definition ff_exec (args : list string) : M unit := λ w,
  let o := ffmpeg_run args (fs w) in
  let w' :=
    match exec_output o, last args with
    | Some data, Some outputName => set_fs (insert outputName data) (log_run args w)
    | _, _ => log_run args w
    end in
  match exec_error o with
  | Some e => (Throw e, w')
  | None => (Ok (), w')
  end.

(** *** [lib/ffmpeg/client.ts] *)

Definition getFFmpeg : M unit := λ w,
  if ffmpeg_loaded w then (Ok (), w)
  else match ffmpeg_load with
       | Ok _ => (Ok (), set_loaded w)
       | Throw e => (Throw e, w)
       end.

Definition writeFile (name : string) (data : Bytes) : M unit :=
  getFFmpeg;; ff_writeFile name data.

Definition readFile (name : string) : M Bytes :=
  getFFmpeg;; ff_readFile name.

(** [deleteFile]: a failing delete is swallowed. *)
Definition deleteFile (name : string) : M unit :=
  getFFmpeg;; try_catch (ff_deleteFile name) (λ _, mret ()).

(** *** [lib/ffmpeg/extract.ts] *)

(** The command line of [extractClip]. *)
Definition extractClip_args (start duration : Q) : list string :=
  ["-ss"; Number_toString start; "-i"; "input.mp4"; "-t"; Number_toString duration;
   "-an"; "-c:v"; "libx264"; "-preset"; "fast"; "-crf"; "23"; "-y"; "clip.mp4"].

Definition extractClip (videoFile : Bytes) (start duration : Q) : M Bytes :=
  getFFmpeg;;
  let inputName := "input.mp4" in
  let outputName := "clip.mp4" in
  try_finally
    (writeFile inputName videoFile;;
     ff_exec (extractClip_args start duration);;
     data ← readFile outputName;
     mret data)
    (deleteFile inputName;; deleteFile outputName).

(** *** [lib/ffmpeg/crop.ts] *)

Definition cropFilter (cropRegion : CropRegion) : string :=
  "crop=" +:+ pretty (crop_width cropRegion) +:+ ":" +:+ pretty (crop_height cropRegion)
  +:+ ":" +:+ pretty (crop_x cropRegion) +:+ ":" +:+ pretty (crop_y cropRegion)
  +:+ ",scale=" +:+ pretty OUTPUT_WIDTH +:+ ":" +:+ pretty OUTPUT_HEIGHT.

Definition cropVideo (videoBlob : Bytes) (cropRegion : CropRegion) : M Bytes :=
  getFFmpeg;;
  let inputName := "input.mp4" in
  let outputName := "cropped.mp4" in
  try_finally
    (writeFile inputName videoBlob;;
     ff_exec ["-i"; inputName; "-vf"; cropFilter cropRegion; "-c:v"; "libx264";
              "-preset"; "fast"; "-crf"; "23"; "-an"; "-y"; outputName];;
     data ← readFile outputName;
     mret data)
    (deleteFile inputName;; deleteFile outputName).

Definition smartCrop (videoBlob : Bytes) (faceCenters : list (option Point))
    (videoWidth videoHeight : Z) : M Bytes :=
  cropVideo videoBlob (smartCrop_region faceCenters videoWidth videoHeight).

(** *** [lib/ffmpeg/timestretch.ts] *)

(** [n.toFixed(4)] is left to the number printer. *)
Variable Number_toFixed4 : Q → string.

Definition adjustDuration (videoBlob : Bytes) (targetDuration currentDuration : Q)
    : M Bytes :=
  getFFmpeg;;
  let inputName := "input.mp4" in
  let outputName := "adjusted.mp4" in
  try_finally
    (writeFile inputName videoBlob;;
     ff_exec ["-i"; inputName; "-filter:v";
              "setpts=" +:+ Number_toFixed4 (ptsMultiplier targetDuration currentDuration)
              +:+ "*PTS";
              "-c:v"; "libx264"; "-preset"; "fast"; "-crf"; "23"; "-an"; "-y";
              outputName];;
     data ← readFile outputName;
     mret data)
    (deleteFile inputName;; deleteFile outputName).

(** *** [lib/ffmpeg/stitch.ts] *)

Record StitchSegment := mkStitchSegment {
  seg_video : Bytes;
  seg_audio : Bytes;
  seg_duration : Q
}.

(** [new TextEncoder().encode(s)] for the ASCII text the code writes. *)
Definition encode (s : string) : Bytes :=
  map Ascii.byte_of_ascii (String.list_ascii_of_string s).

(** [xs.join(sep)] *)
Fixpoint join (sep : string) (xs : list string) : string :=
  match xs with
  | [] => ""
  | [x] => x
  | x :: rest => x +:+ sep +:+ join sep rest
  end.

(** The first loop of [stitchSegments].  The arrays [segmentFiles] and
    [audioFiles] are shared with the [finally] block, so they are
    returned also when the loop throws. *)
Fixpoint write_segment_files (segments : list StitchSegment) (i : nat)
    (segmentFiles audioFiles : list string) (w : World)
    : result unit * (list string * list string) * World :=
  match segments with
  | [] => (Ok (), (segmentFiles, audioFiles), w)
  | seg :: rest =>
      let videoName := "segment_" +:+ pretty i +:+ ".mp4" in
      let audioName := "audio_" +:+ pretty i +:+ ".wav" in
      match (writeFile videoName (seg_video seg);;
             writeFile audioName (seg_audio seg)) w with
      | (Ok _, w') =>
          write_segment_files rest (S i)
            (segmentFiles ++ [videoName]) (audioFiles ++ [audioName]) w'
      | (Throw e, w') => (Throw e, (segmentFiles, audioFiles), w')
      end
  end.

(** [for (const f of files) await deleteFile(f)] *)
Fixpoint deleteFiles (files : list string) : M unit :=
  match files with
  | [] => mret ()
  | f :: rest => deleteFile f;; deleteFiles rest
  end.

Definition audioInputs (audioFiles : list string) : list string :=
  concat (map (λ f, ["-i"; f]) audioFiles).

Definition audioConcat (audioFiles : list string) : string :=
  join "" (map (λ i, "[" +:+ pretty i +:+ ":a]") (seq 0 (length audioFiles)))
  +:+ "concat=n=" +:+ pretty (length audioFiles) +:+ ":v=0:a=1[voiceover]".

Definition NEWLINE : string := String (Ascii.ascii_of_nat 10) EmptyString.

(** The part of the [try] block after the first loop. *)
Definition stitch_body (segments : list StitchSegment) (backgroundMusic : option Bytes)
    (musicVolume : Q) (segmentFiles audioFiles : list string) : M Bytes :=
  let concatContent := join NEWLINE (map (λ f, "file '" +:+ f +:+ "'") segmentFiles) in
  writeFile "concat.txt" (encode concatContent);;
  ff_exec ["-f"; "concat"; "-safe"; "0"; "-i"; "concat.txt"; "-c:v"; "libx264";
           "-preset"; "fast"; "-crf"; "23"; "-y"; "video_only.mp4"];;
  match backgroundMusic with
  | Some music =>
      writeFile "music.mp3" music;;
      let totalDuration := fold_left (λ sum s, sum + seg_duration s) segments 0 in
      ff_exec (audioInputs audioFiles ++
               ["-i"; "music.mp3"; "-filter_complex";
                audioConcat audioFiles +:+ ";[" +:+ pretty (length audioFiles)
                +:+ ":a]volume=" +:+ Number_toString musicVolume
                +:+ "[music];[voiceover][music]amix=inputs=2:duration=first[aout]";
                "-map"; "[aout]"; "-t"; Number_toString totalDuration; "-y";
                "audio_mixed.wav"])
  | None =>
      ff_exec (audioInputs audioFiles ++
               ["-filter_complex"; audioConcat audioFiles; "-map"; "[voiceover]";
                "-y"; "audio_mixed.wav"])
  end;;
  ff_exec ["-i"; "video_only.mp4"; "-i"; "audio_mixed.wav"; "-c:v"; "copy";
           "-c:a"; "aac"; "-b:a"; "192k"; "-shortest"; "-y"; "final.mp4"];;
  data ← readFile "final.mp4";
  mret data.

Definition stitch_cleanup (segmentFiles audioFiles : list string) : M unit :=
  deleteFiles segmentFiles;;
  deleteFiles audioFiles;;
  deleteFile "concat.txt";;
  deleteFile "video_only.mp4";;
  deleteFile "audio_mixed.wav";;
  deleteFile "music.mp3";;
  deleteFile "final.mp4".

(** The [try] ... [finally] of [stitchSegments]. *)
Definition stitch_try (segments : list StitchSegment)
    (backgroundMusic : option Bytes) (musicVolume : Q) : M Bytes := λ w,
  let '(r, (segmentFiles, audioFiles), w1) := write_segment_files segments 0 [] [] w in
  try_finally
    (match r with
     | Ok _ => stitch_body segments backgroundMusic musicVolume segmentFiles audioFiles
     | Throw e => throw e
     end)
    (stitch_cleanup segmentFiles audioFiles) w1.

Definition stitchSegments (segments : list StitchSegment)
    (backgroundMusic : option Bytes) (musicVolume : Q) : M Bytes :=
  getFFmpeg;; stitch_try segments backgroundMusic musicVolume.

(** *** [components/wizard/ProcessStep.tsx], the browser-side orchestrator *)

(** The engines behind the fourth loop: the metadata of a clip as the
    [video] element reports it, and the face centres that
    [extractFrames] and [analyzeFramesForFaces] find in it. *)
Variable Math_pow : Q → Q → Q.
Variable getVideoDimensions : Bytes → result (Z * Z).
Variable getVideoDuration : Bytes → result Q.
Variable sampledFaceCenters : Bytes → result (list (option Point)).

Definition lift {A} (r : result A) : M A := λ w, (r, w).

(** The body of the loop over [extractedClips]. *)
Definition processClip (clip : Bytes) (audioDuration : Q) : M Bytes :=
  dimensions ← lift (getVideoDimensions clip);
  faceCenters ← lift (sampledFaceCenters clip);
  let cropRegion :=
    calculateOptimalCrop Math_pow faceCenters (fst dimensions) (snd dimensions) in
  croppedClip ← smartCrop clip faceCenters (fst dimensions) (snd dimensions);
  clipDuration ← lift (getVideoDuration croppedClip);
  adjustedClip ← adjustDuration croppedClip audioDuration clipDuration;
  mret adjustedClip.

(** The fields of the project that [processVideo] reads. *)
Record Voice := mkVoice { voice_id : string; voice_name : string }.

Record MusicTrack := mkMusicTrack { music_id : string; music_filePath : string }.

Record Project := mkProject {
  project_videoFile : option Bytes;
  project_selectedVoice : option Voice;
  project_segments : list ScriptSegment;
  project_includeCaptions : bool;
  project_selectedMusic : option MusicTrack;
  project_musicVolume : Q
}.

(** [Partial<ProcessingState>], as [updateProgress] receives it. *)
Record StateUpdates := mkStateUpdates {
  su_stage : option ProcessingStage;
  su_currentSegment : option nat;
  su_progress : option Q;
  su_message : option string;
  su_error : option string
}.

(** [{ ...prev, ...updates }] *)
Definition merge_state (prev : ProcessingState) (u : StateUpdates) : ProcessingState :=
  mkProcessingState
    (default (ps_stage prev) (su_stage u))
    (default (ps_currentSegment prev) (su_currentSegment u))
    (ps_totalSegments prev)
    (default (ps_progress prev) (su_progress u))
    (default (ps_message prev) (su_message u))
    (match su_error u with Some e => Some e | None => ps_error prev end).

(** [updateProgress]: the new state of the component.  The copy that it
    also sends to the project store is not modelled. *)
Definition updateProgress (updates : StateUpdates) : M unit := λ w,
  (Ok (),
   set_ui (λ s, mkUIState (merge_state (processingState s) updates) (processingRef s)
                  (project_captions s) (outputVideo s)
                  (shown s ++ [merge_state (processingState s) updates]))
          w).

(** The three kinds of update that [processVideo] sends. *)
Definition stage_update (stage : ProcessingStage) (progress : Q) (message : string)
    : StateUpdates :=
  mkStateUpdates (Some stage) None (Some progress) (Some message) None.

Definition segment_update (stage : ProcessingStage) (i n : nat) (label : string)
    : StateUpdates :=
  mkStateUpdates (Some stage) (Some (i + 1)%nat)
    (Some (inject_Z (Z.of_nat i) / inject_Z (Z.of_nat n) * 100))
    (Some (segment_message label i n)) None.

Definition error_update (message error : string) : StateUpdates :=
  mkStateUpdates (Some stage_error) None None (Some message) (Some error).

Definition setCaptions (captions : list SegmentCaptions) : M unit := λ w,
  (Ok (),
   set_ui (λ s, mkUIState (processingState s) (processingRef s) captions
                  (outputVideo s) (shown s)) w).

Definition setOutputVideo (video : Bytes) : M unit := λ w,
  (Ok (),
   set_ui (λ s, mkUIState (processingState s) (processingRef s) (project_captions s)
                  (Some video) (shown s)) w).

Definition set_processingRef (b : bool) : M unit := λ w,
  (Ok (),
   set_ui (λ s, mkUIState (processingState s) b (project_captions s)
                  (outputVideo s) (shown s)) w).

(** The speech synthesizer ([synthesizeText]) and [fetch]. *)
Variable synthesizeText : jsstring → Voice → result (Bytes * Q).
Variable fetch : string → result (bool * Bytes).

(** Stage 2: one voiceover per segment. *)
Fixpoint synthesize_loop (n : nat) (voice : Voice) (segments : list ScriptSegment)
    (i : nat) (ttsResults : list (Bytes * Q)) : M (list (Bytes * Q)) :=
  match segments with
  | [] => mret ttsResults
  | segment :: rest =>
      updateProgress (segment_update stage_tts i n "Synthesizing segment");;
      result ← lift (synthesizeText (script segment) voice);
      synthesize_loop n voice rest (S i) (ttsResults ++ [result])
  end.

(** Stage 3: one clip of ten seconds per segment. *)
Fixpoint extract_loop (n : nat) (videoFile : Bytes) (segments : list ScriptSegment)
    (i : nat) (extractedClips : list Bytes) : M (list Bytes) :=
  match segments with
  | [] => mret extractedClips
  | segment :: rest =>
      updateProgress (segment_update stage_extracting i n "Extracting clip");;
      clip ← extractClip videoFile (sourceTimestamp segment) 10;
      extract_loop n videoFile rest (S i) (extractedClips ++ [clip])
  end.

(** Stage 4: face detection, crop and duration of every clip. *)
Fixpoint process_loop (n : nat) (ttsResults : list (Bytes * Q))
    (extractedClips : list Bytes) (i : nat) (processedClips : list Bytes)
    : M (list Bytes) :=
  match extractedClips with
  | [] => mret processedClips
  | clip :: rest =>
      match ttsResults !! i with
      | None => throw "TypeError: Cannot read properties of undefined"
      | Some ttsResult =>
          updateProgress (segment_update stage_detecting i n "Processing clip");;
          adjustedClip ← processClip clip (snd ttsResult);
          process_loop n ttsResults rest (S i) (processedClips ++ [adjustedClip])
      end
  end.

(** [processedClips.map((video, i) => ({ video, audio: ttsResults[i].audio,
    duration: ttsResults[i].duration }))] *)
Fixpoint stitch_data (processedClips : list Bytes) (ttsResults : list (Bytes * Q))
    (i : nat) : result (list StitchSegment) :=
  match processedClips with
  | [] => Ok []
  | video :: rest =>
      match ttsResults !! i, stitch_data rest ttsResults (S i) with
      | Some ttsResult, Ok data =>
          Ok (mkStitchSegment video (fst ttsResult) (snd ttsResult) :: data)
      | None, _ => Throw "TypeError: Cannot read properties of undefined"
      | _, Throw e => Throw e
      end
  end.

(** The background music: [null] when none is selected or when the fetch
    fails. *)
Definition fetch_music (selectedMusic : option MusicTrack) : option Bytes :=
  match selectedMusic with
  | Some track =>
      match fetch (music_filePath track) with
      | Ok (true, blob) => Some blob
      | _ => None
      end
  | None => None
  end.

(** The body of the [try] block of [processVideo]. *)
Definition processVideo_try (project : Project) (videoFile : Bytes) (voice : Voice)
    : M unit :=
  let n := length (project_segments project) in
  updateProgress (stage_update stage_loading 0 "Loading FFmpeg...");;
  getFFmpeg;;
  updateProgress (stage_update stage_loading 100 "FFmpeg loaded");;
  updateProgress (stage_update stage_tts 0 "Generating voiceover...");;
  ttsResults ← synthesize_loop n voice (project_segments project) 0 [];
  updateProgress (stage_update stage_tts 100 "Voiceover complete");;
  (if project_includeCaptions project
   then setCaptions (generateCaptions (project_segments project) (map snd ttsResults))
   else mret ());;
  updateProgress (stage_update stage_extracting 0 "Extracting video clips...");;
  extractedClips ← extract_loop n videoFile (project_segments project) 0 [];
  updateProgress (stage_update stage_extracting 100 "Clips extracted");;
  updateProgress (stage_update stage_detecting 0 "Detecting faces and cropping...");;
  processedClips ← process_loop (length extractedClips) ttsResults extractedClips 0 [];
  updateProgress (stage_update stage_detecting 100 "Clips processed");;
  updateProgress (stage_update stage_stitching 0 "Stitching final video...");;
  stitchSegmentData ← lift (stitch_data processedClips ttsResults 0);
  let musicBlob := fetch_music (project_selectedMusic project) in
  finalVideo ← stitchSegments stitchSegmentData musicBlob (project_musicVolume project);
  setOutputVideo finalVideo;;
  updateProgress (stage_update stage_complete 100 "Video processing complete!").

(** [processVideo] of the [ProcessStep] component. *)
Definition processVideo (project : Project) : M unit :=
  match project_videoFile project, project_selectedVoice project,
        project_segments project with
  | Some videoFile, Some voice, _ :: _ =>
      λ w,
        if processingRef (ui w) then (Ok (), w)
        else
          (set_processingRef true;;
           try_finally
             (try_catch (processVideo_try project videoFile voice)
                (λ message, updateProgress (error_update "Processing failed" message)))
             (set_processingRef false)) w
  | _, _, _ =>
      updateProgress
        (error_update "Missing required data"
           "Please ensure video, voice, and script are configured.")
  end.
End Engine.

(** ** [lib/server/processor.ts]: the server-side orchestrator *)

Module Processor.
Section Processor.
Variable ffmpeg_load : result unit.
Variable ffmpeg_run : list string → gmap string Bytes → ExecOutcome.
Variable Number_toString : Q → string.
(** [fetch(url)]: a rejection, or the response's [ok] flag and body. *)
Variable fetch : string → result (bool * Bytes).
(** [put(filename, blob, ...)] of the blob store: the URL of the upload. *)
Variable put : string → Bytes → result string.

Definition getFFmpeg : M unit := λ w,
  if ffmpeg_loaded w then (Ok (), w)
  else match ffmpeg_load with
       | Ok _ => (Ok (), set_loaded w)
       | Throw e => (Throw e, w)
       end.

Definition downloadFile (url : string) : M Bytes :=
  response ← lift (fetch url);
  if fst response : bool then (mret (snd response) : M Bytes)
  else throw ("Failed to download: " +:+ url).

(** The command line of [extractClip]. *)
Definition extractClip_args (start duration : Q) (outputName : string) : list string :=
  ["-ss"; Number_toString start; "-i"; "input.mp4"; "-t"; Number_toString duration;
   "-c:v"; "libx264"; "-preset"; "fast"; "-c:a"; "aac"; "-y"; outputName].

Definition extractClip (videoData : Bytes) (start duration : Q) (outputName : string)
    : M Bytes :=
  let inputName := "input.mp4" in
  ff_writeFile inputName videoData;;
  ff_exec ffmpeg_run (extractClip_args start duration outputName);;
  data ← ff_readFile outputName;
  ff_deleteFile inputName;;
  ff_deleteFile outputName;;
  mret data.

Definition applyCrop (clipData : Bytes) (outputName : string) : M Bytes :=
  let inputName := "clip_input.mp4" in
  ff_writeFile inputName clipData;;
  ff_exec ffmpeg_run
    ["-i"; inputName; "-vf"; "scale=1080:-2,crop=1080:1920:(iw-1080)/2:(ih-1920)/2";
     "-c:v"; "libx264"; "-preset"; "fast"; "-c:a"; "aac"; "-y"; outputName];;
  data ← ff_readFile outputName;
  ff_deleteFile inputName;;
  ff_deleteFile outputName;;
  mret data.

Definition adjustDuration (clipData : Bytes) (targetDuration : Q) (outputName : string)
    : M Bytes :=
  let inputName := "adjust_input.mp4" in
  ff_writeFile inputName clipData;;
  ff_exec ffmpeg_run
    ["-i"; inputName; "-filter_complex"; "[0:v]setpts=PTS*1.0[v];[0:a]atempo=1.0[a]";
     "-map"; "[v]"; "-map"; "[a]"; "-t"; Number_toString targetDuration;
     "-c:v"; "libx264"; "-preset"; "fast"; "-c:a"; "aac"; "-y"; outputName];;
  data ← ff_readFile outputName;
  ff_deleteFile inputName;;
  ff_deleteFile outputName;;
  mret data.

Definition byte_of_Z (z : Z) : Byte.byte :=
  default Byte.x00 (Byte.of_N (Z.to_N (z mod 256))).

(** [view.setUint16(_, n, true)] and [view.setUint32(_, n, true)] *)
Definition u16le (n : Z) : Bytes := [byte_of_Z n; byte_of_Z (n / 256)].
Definition u32le (n : Z) : Bytes :=
  [byte_of_Z n; byte_of_Z (n / 256); byte_of_Z (n / 65536); byte_of_Z (n / 16777216)].

Record TTSResult := mkTTSResult { tts_audio : Bytes; tts_duration : Q }.

(** [generateTTS]: a silent WAV file whose length is estimated from the
    number of words. *)
Definition generateTTS (text : jsstring) (voiceId : string) : TTSResult :=
  let words := length (split_ws text) in
  let duration := Qmax 1 (inject_Z (Z.of_nat words) / (25 # 10)) in
  let sampleRate := 22050%Z in
  let numSamples := Qfloor (inject_Z sampleRate * duration) in
  let bufferSize := (44 + numSamples * 2)%Z in
  mkTTSResult
    (encode "RIFF" ++ u32le (bufferSize - 8) ++ encode "WAVE" ++ encode "fmt "
     ++ u32le 16 ++ u16le 1 ++ u16le 1 ++ u32le sampleRate ++ u32le (sampleRate * 2)
     ++ u16le 2 ++ u16le 16 ++ encode "data" ++ u32le (numSamples * 2)
     ++ replicate (Z.to_nat (numSamples * 2)) Byte.x00)
    duration.

Record Processed := mkProcessed {
  p_video : Bytes;
  p_audio : Bytes;
  p_duration : Q
}.

(** The first loop of [stitchSegments]: mux every clip with its
    voiceover. *)
Fixpoint combine_segments (segments : list Processed) (i : nat)
    (concatList : list string) : M (list string) :=
  match segments with
  | [] => mret concatList
  | seg :: rest =>
      let videoName := "seg_" +:+ pretty i +:+ ".mp4" in
      let audioName := "seg_" +:+ pretty i +:+ ".wav" in
      let combinedName := "combined_" +:+ pretty i +:+ ".mp4" in
      ff_writeFile videoName (p_video seg);;
      ff_writeFile audioName (p_audio seg);;
      ff_exec ffmpeg_run
        ["-i"; videoName; "-i"; audioName; "-c:v"; "copy"; "-c:a"; "aac";
         "-map"; "0:v:0"; "-map"; "1:a:0"; "-shortest"; "-y"; combinedName];;
      ff_deleteFile videoName;;
      ff_deleteFile audioName;;
      combine_segments rest (S i) (concatList ++ ["file '" +:+ combinedName +:+ "'"])
  end.

Fixpoint delete_combined (n i : nat) : M unit :=
  match n with
  | O => mret ()
  | S n' => ff_deleteFile ("combined_" +:+ pretty i +:+ ".mp4");; delete_combined n' (S i)
  end.

Definition stitchSegments (segments : list Processed) (musicData : option Bytes)
    (musicVolume : Q) : M Bytes :=
  concatList ← combine_segments segments 0 [];
  ff_writeFile "concat.txt" (encode (join NEWLINE concatList));;
  ff_exec ffmpeg_run
    ["-f"; "concat"; "-safe"; "0"; "-i"; "concat.txt"; "-c"; "copy"; "-y";
     "concatenated.mp4"];;
  delete_combined (length segments) 0;;
  ff_deleteFile "concat.txt";;
  finalOutput ←
    match musicData with
    | Some music =>
        if Qgtb musicVolume 0 then
          ff_writeFile "music.wav" music;;
          ff_exec ffmpeg_run
            ["-i"; "concatenated.mp4"; "-i"; "music.wav"; "-filter_complex";
             "[1:a]volume=" +:+ Number_toString musicVolume
             +:+ "[music];[0:a][music]amix=inputs=2:duration=first[a]";
             "-map"; "0:v"; "-map"; "[a]"; "-c:v"; "copy"; "-c:a"; "aac"; "-y";
             "final.mp4"];;
          ff_deleteFile "music.wav";;
          ff_deleteFile "concatenated.mp4";;
          mret "final.mp4"
        else mret "concatenated.mp4"
    | None => mret "concatenated.mp4"
    end;
  output ← ff_readFile finalOutput;
  ff_deleteFile finalOutput;;
  mret output.

(** The uniform word timings of the server's [generateCaptions].
    [processVideo] passes one duration per segment; a missing one is
    read as 0 here. *)
Fixpoint generateCaptions_loop (segments : list ScriptSegment) (durations : list Q)
    (index : nat) (currentTime : Q) : list SegmentCaptions :=
  match segments with
  | [] => []
  | segment :: rest =>
      let duration := default 0 (durations !! index) in
      let words := words_of (script segment) in
      let wordDuration := duration / inject_Z (Z.of_nat (length words)) in
      let captionWords :=
        imap (λ wordIndex word,
                mkCaptionWord word
                  (currentTime + inject_Z (Z.of_nat wordIndex) * wordDuration)
                  (currentTime + inject_Z (Z.of_nat wordIndex + 1) * wordDuration))
             words in
      mkSegmentCaptions (seg_id segment) captionWords
      :: generateCaptions_loop rest durations (S index) (currentTime + duration)
  end.

Definition generateCaptions (segments : list ScriptSegment) (durations : list Q)
    : list SegmentCaptions :=
  generateCaptions_loop segments durations 0 0.

(** [((i + 1) / job.segments.length) * 100] *)
Definition segment_progress (i n : nat) : Q :=
  (inject_Z (Z.of_nat i + 1) / inject_Z (Z.of_nat n)) * 100.

(** Stage 3 of [processVideo]: one voiceover per segment. *)
Fixpoint tts_loop (job : ProcessingJob) (segments : list ScriptSegment) (i : nat)
    (ttsResults : list TTSResult) : M (list TTSResult) :=
  match segments with
  | [] => mret ttsResults
  | segment :: rest =>
      let n := length (job_segments job) in
      updateJobProgress (job_id job) stage_tts (segment_progress i n)
        (segment_message "Synthesizing segment" i n) (Some (i + 1)%nat);;
      let result := generateTTS (script segment) (job_voiceId job) in
      tts_loop job rest (S i) (ttsResults ++ [result])
  end.

(** Stage 4 of [processVideo]: extract, crop and time-adjust every clip. *)
Fixpoint segment_loop (job : ProcessingJob) (videoData : Bytes)
    (ttsResults : list TTSResult) (segments : list ScriptSegment) (i : nat)
    (processedSegments : list Processed) : M (list Processed) :=
  match segments with
  | [] => mret processedSegments
  | segment :: rest =>
      let n := length (job_segments job) in
      let progress := segment_progress i n in
      match ttsResults !! i with
      | None => throw "TypeError: Cannot read properties of undefined"
      | Some ttsResult =>
          updateJobProgress (job_id job) stage_detecting (progress * (5 # 10))
            (segment_message "Extracting clip" i n) (Some (i + 1)%nat);;
          clipData ← extractClip videoData (sourceTimestamp segment) 10
                       ("clip_" +:+ pretty i +:+ ".mp4");
          updateJobProgress (job_id job) stage_cropping (progress * (7 # 10))
            (segment_message "Cropping clip" i n) (Some (i + 1)%nat);;
          croppedData ← applyCrop clipData ("cropped_" +:+ pretty i +:+ ".mp4");
          updateJobProgress (job_id job) stage_cropping (progress * (9 # 10))
            (segment_message "Adjusting duration" i n) (Some (i + 1)%nat);;
          adjustedData ← adjustDuration croppedData (tts_duration ttsResult)
                           ("adjusted_" +:+ pretty i +:+ ".mp4");
          segment_loop job videoData ttsResults rest (S i)
            (processedSegments
             ++ [mkProcessed adjustedData (tts_audio ttsResult) (tts_duration ttsResult)])
      end
  end.

(** Stages 3 to 6 of [processVideo], from the voiceovers to the end of
    the [try] block. *)
Definition processVideo_after_download (job : ProcessingJob) (videoData : Bytes)
    : M unit :=
  updateJobProgress (job_id job) stage_tts 0 "Generating voiceover..." None;;
  ttsResults ← tts_loop job (job_segments job) 0 [];
  updateJobProgress (job_id job) stage_detecting 0 "Processing video segments..." None;;
  processedSegments ← segment_loop job videoData ttsResults (job_segments job) 0 [];
  musicData ←
    match job_musicUrl job with
    | Some (String c rest) =>
        updateJobProgress (job_id job) stage_stitching 0
          "Loading background music..." None;;
        musicBuffer ← downloadFile (String c rest);
        mret (Some musicBuffer)
    | _ => mret None
    end;
  updateJobProgress (job_id job) stage_stitching 20 "Stitching final video..." None;;
  finalVideo ← stitchSegments processedSegments musicData (job_musicVolume job);
  updateJobProgress (job_id job) stage_stitching 80 "Uploading final video..." None;;
  uploaded ← lift (put ("outputs/" +:+ job_id job +:+ "/final.mp4") finalVideo);
  let captions :=
    if job_includeCaptions job
    then Some (generateCaptions (job_segments job) (map tts_duration ttsResults))
    else None in
  completeJob (job_id job) uploaded captions.

(** The body of the [try] block of [processVideo]. *)
Definition processVideo_try (job : ProcessingJob) : M unit :=
  updateJobProgress (job_id job) stage_loading 0 "Loading FFmpeg..." None;;
  getFFmpeg;;
  updateJobProgress (job_id job) stage_loading 100 "FFmpeg loaded" None;;
  updateJobProgress (job_id job) stage_extracting 0 "Downloading source video..." None;;
  videoData ← downloadFile (job_videoUrl job);
  updateJobProgress (job_id job) stage_extracting 20 "Source video downloaded" None;;
  processVideo_after_download job videoData.

Definition processVideo (job : ProcessingJob) : M unit :=
  try_catch (processVideo_try job) (λ message, failJob (job_id job) message).
End Processor.
End Processor.

(** ** The audio track that the stitchers ask ffmpeg for

    The mixing itself happens inside ffmpeg; the code only writes the
    filter graph.  The filters it names are given here their documented
    meaning on tracks of samples taken at one common rate. *)

Section Audio.
(** Samples per second, the decoder of an audio file, and the level that
    [amix] gives its output at each sample (its normalisation). *)
Variable sample_rate : Q.
Variable decode : Bytes → list Q.
Variable amix_gain : nat → Q.






End Audio.

(** ** The API routes ([app/api/process/route.ts],
    [app/api/status/[jobId]/route.ts])

    A response is its HTTP status and its JSON body. *)

(** The body of a [POST /api/process] request as [request.json()] hands
    it over: a key that is absent is [None]. *)
Record CreateJobRequest := mkCreateJobRequest {
  req_videoUrl : option string;
  req_segments : option (list ScriptSegment);
  req_voiceId : option string;
  req_musicUrl : option string;
  req_musicVolume : option Q;
  req_includeCaptions : option bool
}.

Record JobStatusResponse := mkJobStatusResponse {
  rs_id : string;
  rs_status : JobStatus;
  rs_stage : ProcessingStage;
  rs_progress : Q;
  rs_currentSegment : option nat;
  rs_totalSegments : nat;
  rs_message : string;
  rs_error : option string;
  rs_outputUrl : option string;
  rs_captions : option (list SegmentCaptions)
}.

Inductive ResponseBody :=
  | body_error (error : string)
  | body_started (jobId : string) (status : JobStatus) (message : string)
  | body_job (response : JobStatusResponse).

Record Response := mkResponse { res_status : nat; res_body : ResponseBody }.

(** [NextResponse.json(body)] and [NextResponse.json(body, { status })] *)
Definition json (body : ResponseBody) : Response := mkResponse 200 body.
Definition json_status (status : nat) (body : ResponseBody) : Response :=
  mkResponse status body.

(** [!s] for a string that may be absent: absent and empty are falsy. *)
Definition falsy (s : option string) : bool :=
  match s with
  | Some (String _ _) => false
  | _ => true
  end.

(** The job that [POST] builds from a valid body. *)
Definition new_job (jobId videoUrl voiceId : string) (segments : list ScriptSegment)
    (body : CreateJobRequest) : ProcessingJob :=
  mkJob jobId status_pending stage_queued 0 (Some 0%nat) (length segments) "Job queued"
    None videoUrl segments voiceId (req_musicUrl body)
    (default (3 # 10) (req_musicVolume body))
    (default false (req_includeCaptions body))
    None None.

Section Routes.
Variable ffmpeg_load : result unit.
Variable ffmpeg_run : list string → gmap string Bytes → ExecOutcome.
Variable Number_toString : Q → string.
Variable fetch : string → result (bool * Bytes).
Variable put : string → Bytes → result string.
(** The identifier that [uuidv4()] draws for this request. *)
Variable uuidv4 : string.

(** [POST /api/process].  [body] is the outcome of [request.json()].  The
    second component is the task handed to [waitUntil]: it runs after
    the response has been built. *)
Definition POST_process (body : result CreateJobRequest)
    : M (Response * option (M unit)) :=
  try_catch
    (body ← lift body;
     if falsy (req_videoUrl body) then
       mret (json_status 400 (body_error "videoUrl is required"), None)
     else
       match req_segments body with
       | None | Some [] =>
           mret (json_status 400
                   (body_error "segments array is required and must not be empty"),
                 None)
       | Some segments =>
           if falsy (req_voiceId body) then
             mret (json_status 400 (body_error "voiceId is required"), None)
           else
             let job :=
               new_job uuidv4 (default "" (req_videoUrl body))
                 (default "" (req_voiceId body)) segments body in
             createJob job;;
             mret (json (body_started (job_id job) status_pending "Processing started"),
                   Some (Processor.processVideo ffmpeg_load ffmpeg_run Number_toString
                           fetch put job))
       end)
    (λ _, mret (json_status 500 (body_error "Failed to start processing"), None)).


End Routes.

(** ** More of the browser-side ffmpeg library

    [extractMultipleClips] is modelled as it runs without the optional
    [onProgress] callback. *)

Section Library.
Variable ffmpeg_load : result unit.
Variable ffmpeg_run : list string → gmap string Bytes → ExecOutcome.
Variable Number_toString : Q → string.
Variable getVideoDuration : Bytes → result Q.

(** *** [lib/ffmpeg/extract.ts], [extractMultipleClips] *)

Fixpoint clips_loop (timestamps : list Q) (duration : Q) (i : nat) (clips : list Bytes)
    : M (list Bytes) :=
  match timestamps with
  | [] => mret clips
  | startTime :: rest =>
      let outputName := "clip_" +:+ pretty i +:+ ".mp4" in
      ff_exec ffmpeg_run
        ["-ss"; Number_toString startTime; "-i"; "input.mp4"; "-t";
         Number_toString duration; "-an"; "-c:v"; "libx264"; "-preset"; "fast";
         "-crf"; "23"; "-y"; outputName];;
      data ← readFile ffmpeg_load outputName;
      deleteFile ffmpeg_load outputName;;
      clips_loop rest duration (S i) (clips ++ [data])
  end.

Definition extractMultipleClips (videoFile : Bytes) (timestamps : list Q) (duration : Q)
    : M (list Bytes) :=
  getFFmpeg ffmpeg_load;;
  let inputName := "input.mp4" in
  try_finally
    (writeFile ffmpeg_load inputName videoFile;;
     clips_loop timestamps duration 0 [])
    (deleteFile ffmpeg_load inputName).

(** *** [lib/ffmpeg/stitch.ts], [addAudioToVideo] and [createBlankVideo] *)

Definition addAudioToVideo (videoBlob audioBlob : Bytes) : M Bytes :=
  getFFmpeg ffmpeg_load;;
  try_finally
    (writeFile ffmpeg_load "video.mp4" videoBlob;;
     writeFile ffmpeg_load "audio.wav" audioBlob;;
     ff_exec ffmpeg_run
       ["-i"; "video.mp4"; "-i"; "audio.wav"; "-c:v"; "copy"; "-c:a"; "aac";
        "-b:a"; "192k"; "-shortest"; "-y"; "output.mp4"];;
     data ← readFile ffmpeg_load "output.mp4";
     mret data)
    (deleteFile ffmpeg_load "video.mp4";;
     deleteFile ffmpeg_load "audio.wav";;
     deleteFile ffmpeg_load "output.mp4").

Definition createBlankVideo (duration : Q) (color : string) : M Bytes :=
  getFFmpeg ffmpeg_load;;
  try_finally
    (ff_exec ffmpeg_run
       ["-f"; "lavfi"; "-i";
        "color=c=" +:+ color +:+ ":s=" +:+ pretty OUTPUT_WIDTH +:+ "x"
        +:+ pretty OUTPUT_HEIGHT +:+ ":d=" +:+ Number_toString duration;
        "-c:v"; "libx264"; "-preset"; "fast"; "-crf"; "23"; "-y"; "blank.mp4"];;
     data ← readFile ffmpeg_load "blank.mp4";
     mret data)
    (deleteFile ffmpeg_load "blank.mp4").

(** *** [lib/ffmpeg/timestretch.ts], [loopToMinDuration] *)



End Library.

(** ** More of the smart cropper ([lib/mediapipe/cropper.ts],
    [lib/mediapipe/detector.ts]) *)

(** The loop of [smoothCropRegions]: [prev] is the region pushed last. *)
Fixpoint smooth_loop (smoothingFactor : Q) (prev : CropRegion) (rest : list CropRegion)
    : list CropRegion :=
  match rest with
  | [] => []
  | curr :: rest' =>
      let next :=
        mkCropRegion
          (Math_round (inject_Z (crop_x prev)
                       + inject_Z (crop_x curr - crop_x prev) * (1 - smoothingFactor)))
          (Math_round (inject_Z (crop_y prev)
                       + inject_Z (crop_y curr - crop_y prev) * (1 - smoothingFactor)))
          (crop_width curr) (crop_height curr) in
      next :: smooth_loop smoothingFactor next rest'
  end.

Definition smoothCropRegions (cropRegions : list CropRegion) (smoothingFactor : Q)
    : list CropRegion :=
  if (length cropRegions <=? 1)%nat then cropRegions
  else
    match cropRegions with
    | first :: rest => first :: smooth_loop smoothingFactor first rest
    | [] => []
    end.

Definition validateCropRegion (region : CropRegion) (videoWidth videoHeight : Z)
    : CropRegion :=
  mkCropRegion
    (Z.max 0 (Z.min (crop_x region) (videoWidth - crop_width region)))
    (Z.max 0 (Z.min (crop_y region) (videoHeight - crop_height region)))
    (Z.min (crop_width region) videoWidth)
    (Z.min (crop_height region) videoHeight).

(** A detection as MediaPipe reports it: the box is in fractions of
    pixels. *)
Record BoundingBox := mkBoundingBox {
  bb_x : Q;
  bb_y : Q;
  bb_width : Q;
  bb_height : Q
}.

Record FaceDetection := mkFaceDetection {
  fd_timestamp : Q;
  boundingBox : BoundingBox;
  confidence : Q
}.

Definition getFaceCenter (detection : FaceDetection) : Point :=
  mkPoint (bb_x (boundingBox detection) + bb_width (boundingBox detection) / 2)
          (bb_y (boundingBox detection) + bb_height (boundingBox detection) / 2).

(** [detections.reduce((best, current) =>
      current.confidence > best.confidence ? current : best)] *)
Definition bestFace (first : FaceDetection) (rest : list FaceDetection) : FaceDetection :=
  fold_left (λ best current,
               if Qgtb (confidence current) (confidence best) then current else best)
            rest first.

Section Detector.
(** The outcome of [initFaceDetector()], and of [detectFacesInFrame] on
    each frame. *)
Variable initFaceDetector : result unit.
Variable detectFacesInFrame : Bytes → result (list FaceDetection).

(** The body of the loop of [analyzeFramesForFaces]: what is pushed for
    one frame. *)
Definition frame_center (frame : Bytes) : option Point :=
  match detectFacesInFrame frame with
  | Ok (first :: rest) => Some (getFaceCenter (bestFace first rest))
  | Ok [] => None
  | Throw _ => None
  end.

(** [analyzeFramesForFaces], called without [onProgress]. *)
Definition analyzeFramesForFaces (frames : list Bytes) : result (list (option Point)) :=
  match initFaceDetector with
  | Ok _ => Ok (map frame_center frames)
  | Throw e => Throw e
  end.
End Detector.

(** ** More of the caption generator ([lib/utils/captions.ts]) *)

(** [currentTime >= word.startTime && currentTime < word.endTime] *)
Definition is_current (currentTime : Q) (word : CaptionWord) : bool :=
  Qle_bool (startTime word) currentTime && negb (Qle_bool (endTime word) currentTime).

(** The inner loop of [getCurrentWord] and of [getVisibleCaption]: the
    first word of one segment that is current, with its index. *)
Fixpoint find_current (currentTime : Q) (words : list CaptionWord) (w : nat)
    : option (nat * CaptionWord) :=
  match words with
  | [] => None
  | word :: rest =>
      if is_current currentTime word then Some (w, word)
      else find_current currentTime rest (S w)
  end.

Fixpoint getCurrentWord (captions : list SegmentCaptions) (currentTime : Q)
    : option CaptionWord :=
  match captions with
  | [] => None
  | segment :: rest =>
      match find_current currentTime (cap_words segment) 0 with
      | Some (_, word) => Some word
      | None => getCurrentWord rest currentTime
      end
  end.

(** The outer loop of [getVisibleCaption]: the indices of the segment and
    of the word that are current. *)
Fixpoint find_indices (captions : list SegmentCaptions) (currentTime : Q) (s : nat)
    : option (nat * nat) :=
  match captions with
  | [] => None
  | segment :: rest =>
      match find_current currentTime (cap_words segment) 0 with
      | Some (w, _) => Some (s, w)
      | None => find_indices rest currentTime (S s)
      end
  end.

Record VisibleCaption := mkVisibleCaption {
  vc_words : list CaptionWord;
  currentWordIndex : nat
}.

(** [getVisibleCaption], for a window of a whole number of words. *)
Definition getVisibleCaption (captions : list SegmentCaptions) (currentTime : Q)
    (windowSize : nat) : option VisibleCaption :=
  match find_indices captions currentTime 0 with
  | None => None
  | Some (currentSegmentIndex, currentWordIndex) =>
      let allWords := concat (map cap_words captions) in
      let flatCurrentIndex :=
        (fold_left (λ sum s, sum + length (cap_words s))
                   (take currentSegmentIndex captions) 0
         + currentWordIndex)%nat in
      let start := (flatCurrentIndex - windowSize / 2)%nat in
      let end_ := Nat.min (length allWords) (start + windowSize) in
      let words := drop start (take end_ allWords) in
      Some (mkVisibleCaption words (flatCurrentIndex - start))
  end.

(** ** Timestamps ([lib/utils/time.ts]) *)



Definition digits_value (ds : list N) : N :=
  fold_left (λ acc d, acc * 10 + d)%N ds 0%N.




Section Time.
(** [parseFloat], with [None] for [NaN]. *)
Variable parseFloat : jsstring → option Q.

End Time.

(** [a % b] on numbers: the remainder of the division truncated toward
    zero. *)
Definition Qtruncate (q : Q) : Z := if Qle_bool 0 q then Qfloor q else Qceiling q.




(** ** Audio ([lib/utils/audio.ts], [lib/piper/synthesize.ts],
    [lib/piper/client.ts]) *)

(** An [AudioBuffer]: the samples of each channel, and the sample rate.
    The Web Audio API only makes buffers with at least one channel and at
    least one frame. *)
Record AudioBuffer := mkAudioBuffer {
  channels : list (list Q);
  ab_sampleRate : Q
}.

Definition numberOfChannels (b : AudioBuffer) : nat := length (channels b).

(** [buffer.length]: the number of frames. *)
Definition ab_length (b : AudioBuffer) : nat := length (default [] (head (channels b))).

(** [Math.max(-1, Math.min(1, x))] *)
Definition clamp1 (x : Q) : Q := Qmax (-1) (Qmin 1 x).

Section Mix.
(** What a [Float32Array] keeps of a number stored in it. *)
Variable fround : Q → Q.

(** The inner loop of [mixAudioBuffers] on one channel.  A secondary
    channel has at least one frame, so [secondaryData[secondaryIndex]]
    is always a sample. *)
Definition mix_channel (primaryData secondaryData : list Q) (secondaryVolume : Q)
    : list Q :=
  imap (λ i p,
          let secondaryIndex := (i mod length secondaryData)%nat in
          let stored :=
            fround (p + default 0 (secondaryData !! secondaryIndex) * secondaryVolume) in
          fround (clamp1 stored))
       primaryData.

(** [mixAudioBuffers].  [new OfflineAudioContext] refuses a buffer
    without channels or frames, and [getChannelData(-1)] throws. *)
Definition mixAudioBuffers (primary secondary : AudioBuffer) (secondaryVolume : Q)
    : result AudioBuffer :=
  if ((numberOfChannels primary =? 0) || (ab_length primary =? 0))%nat
  then Throw "NotSupportedError"
  else
    match numberOfChannels secondary with
    | O => Throw "IndexSizeError"
    | S last_channel =>
        Ok (mkAudioBuffer
              (imap (λ channel primaryData,
                       let secondaryChannel := Nat.min channel last_channel in
                       mix_channel primaryData
                         (default [] (channels secondary !! secondaryChannel))
                         secondaryVolume)
                    (channels primary))
              (ab_sampleRate primary))
    end.
End Mix.

(** [view.setInt16(_, n, true)]: the two bytes of [n] in two's
    complement, low byte first. *)
Definition i16le (n : Z) : Bytes := Processor.u16le n.

(** The 16-bit sample that [audioToWav] writes for one sample:
    [setInt16] drops the fraction. *)
Definition intSample (x : Q) : Z :=
  let sample := clamp1 x in
  Qtruncate (if negb (Qle_bool 0 sample) then sample * 32768 else sample * 32767).

(** [audioToWav(audioData, sampleRate)], for a whole sample rate. *)
Definition audioToWav (audioData : list Q) (sampleRate : Z) : Bytes :=
  let numChannels := 1%Z in
  let bitsPerSample := 16%Z in
  let bytesPerSample := (bitsPerSample / 8)%Z in
  let blockAlign := (numChannels * bytesPerSample)%Z in
  let byteRate := (sampleRate * blockAlign)%Z in
  let dataSize := (Z.of_nat (length audioData) * bytesPerSample)%Z in
  let bufferSize := (44 + dataSize)%Z in
  encode "RIFF" ++ Processor.u32le (bufferSize - 8) ++ encode "WAVE" ++ encode "fmt "
  ++ Processor.u32le 16 ++ Processor.u16le 1 ++ Processor.u16le numChannels
  ++ Processor.u32le sampleRate ++ Processor.u32le byteRate
  ++ Processor.u16le blockAlign ++ Processor.u16le bitsPerSample
  ++ encode "data" ++ Processor.u32le dataSize
  ++ concat (map (λ x, i16le (intSample x)) audioData).

(** *** [lib/piper/client.ts] *)

(** The module state of the client.  The only instance there is is the
    fallback one, so [piperInstance] is whether it has been made. *)
Record PiperState := mkPiperState {
  piperInstance : bool;
  currentVoice : option Voice;
  isLoading : bool
}.

(** [estimateDuration] *)
Definition estimateDuration (text : jsstring) : Q :=
  let words := length (words_of text) in
  Qmax (5 # 10) (inject_Z (Z.of_nat words) / (25 # 10)).

Section Piper.
(** Whether [window.speechSynthesis] exists, and the sample that the
    placeholder tone has at each index
    ([Math.sin(2 * Math.PI * 220 * i / 22050) * 0.1] as a [Float32Array]
    keeps it). *)
Variable has_speechSynthesis : bool.
Variable tone : nat → Q.

Definition SAMPLE_RATE : Z := 22050.

(** [piperInstance.synthesize(text)] of the fallback instance. *)
Definition fallback_synthesize (text : jsstring) : list Q :=
  let samples := Z.to_nat (Qfloor (estimateDuration text * inject_Z SAMPLE_RATE)) in
  if has_speechSynthesis then map tone (seq 0 samples)
  else replicate samples 0.

(** [loadVoice] awaits nothing between setting [isLoading] and clearing
    it in its [finally], so it runs as one step. *)
Definition loadVoice (voice : Voice) (st : PiperState) : result unit * PiperState :=
  if (match currentVoice st with
      | Some v => String.eqb (voice_id v) (voice_id voice)
      | None => false
      end) && piperInstance st
  then (Ok (), st)
  else if isLoading st then (Throw "Voice is already being loaded", st)
  else (Ok (), mkPiperState true (Some voice) false).

Definition synthesize (text : jsstring) (st : PiperState) : result (list Q) * PiperState :=
  if piperInstance st then (Ok (fallback_synthesize text), st)
  else (Throw "No voice loaded. Call loadVoice first.", st).

(** [getSampleRate()] *)
Definition getSampleRate (st : PiperState) : Z := SAMPLE_RATE.


(** *** [lib/piper/synthesize.ts] *)

Definition synthesizeText (text : jsstring) (voice : Voice) (st : PiperState)
    : result (Bytes * Q) * PiperState :=
  match loadVoice voice st with
  | (Throw e, st1) => (Throw e, st1)
  | (Ok _, st1) =>
      match synthesize text st1 with
      | (Throw e, st2) => (Throw e, st2)
      | (Ok audioData, st2) =>
          let sampleRate := getSampleRate st2 in
          let duration := inject_Z (Z.of_nat (length audioData)) / inject_Z sampleRate in
          let audioBlob := audioToWav audioData sampleRate in
          (Ok (audioBlob, duration), st2)
      end
  end.
End Piper.

(** The fallback word timings of [lib/piper/synthesize.ts]
    ([estimateWordTimings(text, duration)]): by number of characters. *)
Fixpoint char_timings_loop (charsPerSecond : Q) (words : list jsstring) (currentTime : Q)
    : list CaptionWord :=
  match words with
  | [] => []
  | word :: rest =>
      let wordDuration := inject_Z (Z.of_nat (length word)) / charsPerSecond in
      mkCaptionWord word currentTime (currentTime + wordDuration)
      :: char_timings_loop charsPerSecond rest (currentTime + wordDuration)
  end.

Definition estimateWordTimings_by_chars (text : jsstring) (duration : Q)
    : list CaptionWord :=
  let words := words_of text in
  if (length words =? 0)%nat then []
  else
    let totalChars :=
      fold_left (λ sum w, sum + inject_Z (Z.of_nat (length w))) words 0 in
    let charsPerSecond := totalChars / duration in
    let timings := char_timings_loop charsPerSecond words 0 in
    alter (set_endTime duration) (length timings - 1)%nat timings.

(** ** The project store ([store/projectStore.ts]) *)

(** [reorderSegments(fromIndex, toIndex)] on the segments of the project,
    for indices from 0 on.  [segments.splice(fromIndex, 1)] removes the
    element at [fromIndex] if there is one, and [removed] is [undefined]
    otherwise; [segments.splice(toIndex, 0, removed)] inserts it before
    index [toIndex], or at the end when the array is shorter.  An entry of
    the result is [None] where the array holds [undefined]. *)
Definition reorderSegments {A : Type} (fromIndex toIndex : nat) (segments : list A)
    : list (option A) :=
  let removed := segments !! fromIndex in
  let segments := delete fromIndex (Some <$> segments) in
  take toIndex segments ++ removed :: drop toIndex segments.

(** ** Uploading a video ([app/api/upload/route.ts]) *)

(** A [File] of the form data: its name, type and size. *)
Record File := mkFile {
  file_name : jsstring;
  file_type : string;
  file_size : Z
}.

(** What [put] of [@vercel/blob] returns. *)
Record PutBlobResult := mkPutBlobResult {
  blob_url : string;
  blob_pathname : string;
  blob_contentType : string
}.

Inductive UploadBody :=
  | upload_error (error : string)
  | upload_stored (url pathname contentType : string) (size : Z).

Record UploadResponse := mkUploadResponse { up_status : nat; up_body : UploadBody }.

(** The characters that [/[^a-zA-Z0-9.-]/g] leaves in place. *)
Definition is_safe_char (c : N) : bool :=
  ((97 <=? c) && (c <=? 122) || (65 <=? c) && (c <=? 90) || (48 <=? c) && (c <=? 57)
   || (c =? 46) || (c =? 45))%N.

(** [file.name.replace(/[^a-zA-Z0-9.-]/g, '_')] *)
Definition sanitizedName (name : jsstring) : jsstring :=
  map (λ c, if is_safe_char c then c else 95%N) name.

Definition validTypes : list string :=
  ["video/mp4"; "video/webm"; "video/quicktime"; "video/x-msvideo"].

Definition maxSize : Z := 500 * 1024 * 1024.

(** [`uploads/${timestamp}-${sanitizedName}`] *)
Definition upload_filename (timestamp : Z) (file : File) : jsstring :=
  js "uploads/" ++ js (pretty timestamp) ++ js "-" ++ sanitizedName (file_name file).

Section Upload.
(** [put(filename, file, { access: 'public', contentType: file.type })],
    and [Date.now()]. *)
Variable put : jsstring → File → result PutBlobResult.
Variable now : Z.

(** [POST]: [formData] is the outcome of [request.formData()] and of
    [formData.get('file')], [None] when there is no such field. *)
Definition POST_upload (formData : result (option File)) : UploadResponse :=
  match formData with
  | Throw _ => mkUploadResponse 500 (upload_error "Failed to upload file")
  | Ok None => mkUploadResponse 400 (upload_error "No file provided")
  | Ok (Some file) =>
      if negb (bool_decide (file_type file ∈ validTypes)) then
        mkUploadResponse 400
          (upload_error "Invalid file type. Supported: MP4, WebM, MOV, AVI")
      else if (maxSize <? file_size file)%Z then
        mkUploadResponse 400 (upload_error "File too large. Maximum size is 500MB")
      else
        let timestamp := now in
        let filename := upload_filename timestamp file in
        match put filename file with
        | Ok blob =>
            mkUploadResponse 200
              (upload_stored (blob_url blob) (blob_pathname blob)
                 (blob_contentType blob) (file_size file))
        | Throw _ => mkUploadResponse 500 (upload_error "Failed to upload file")
        end
  end.
End Upload.

(** ** Frames for the face analysis ([extractFrames] of
    [lib/ffmpeg/extract.ts]) *)

(** [n.toString().padStart(3, '0')] for an integer [n]. *)
Definition pad3 (n : Z) : string :=
  let s := pretty n in
  match String.length s with
  | 0%nat => "000"
  | 1%nat => "00" +:+ s
  | 2%nat => "0" +:+ s
  | _ => s
  end.

(** [`frame_${frameIndex.toString().padStart(3, '0')}.jpg`] *)
Definition frameName (frameIndex : nat) : string :=
  "frame_" +:+ pad3 (Z.of_nat frameIndex) +:+ ".jpg".

Section Frames.
(** The command of [extractFrames] writes a sequence of images, not one
    output file: [ffmpeg_run_fs] is the file system that a command leaves
    and the error if the call rejected. *)
Variable ffmpeg_load : result unit.
Variable ffmpeg_run_fs : list string → gmap string Bytes → gmap string Bytes * option string.
Variable Number_toString : Q → string.

Definition ff_exec_fs (args : list string) : M unit := λ w,
  let '(files, error) := ffmpeg_run_fs args (fs w) in
  let w' := set_fs (λ _, files) (log_run args w) in
  match error with
  | Some e => (Throw e, w')
  | None => (Ok (), w')
  end.

Definition extractFrames_args (interval : Q) : list string :=
  ["-i"; "input.mp4"; "-vf"; "fps=1/" +:+ Number_toString interval; "-f"; "image2";
   "frame_%03d.jpg"].

(** The [while (true)] loop that reads the frames back; [fuel] bounds the
    number of its turns, and [None] is a loop that has not ended within
    them.  Whatever is thrown in the inner [try] ends the loop. *)
Fixpoint read_frames (fuel : nat) (frameIndex : nat) (frames : list Bytes) (w : World)
    : option (list Bytes * World) :=
  match fuel with
  | O => None
  | S fuel =>
      let frameName := frameName frameIndex in
      match readFile ffmpeg_load frameName w with
      | (Throw _, w1) => Some (frames, w1)
      | (Ok data, w1) =>
          match deleteFile ffmpeg_load frameName w1 with
          | (Throw _, w2) => Some (frames ++ [data], w2)
          | (Ok _, w2) => read_frames fuel (S frameIndex) (frames ++ [data]) w2
          end
      end
  end.

Definition extractFrames (fuel : nat) (videoBlob : Bytes) (interval : Q) (w : World)
    : option (result (list Bytes) * World) :=
  match getFFmpeg ffmpeg_load w with
  | (Throw e, w1) => Some (Throw e, w1)
  | (Ok _, w1) =>
      let inputName := "input.mp4" in
      match (writeFile ffmpeg_load inputName videoBlob;;
             ff_exec_fs (extractFrames_args interval)) w1 with
      | (Throw e, w2) =>
          Some (try_finally (throw e) (deleteFile ffmpeg_load inputName) w2)
      | (Ok _, w2) =>
          match read_frames fuel 1 [] w2 with
          | None => None
          | Some (frames, w3) =>
              Some (try_finally (mret frames) (deleteFile ffmpeg_load inputName) w3)
          end
      end
  end.
End Frames.

(** ** The server-mode client ([components/wizard/ProcessStep.tsx]) *)

(** The body that [startProcessing] posts to [/api/process], as the
    route reads it back: [JSON.stringify] leaves out a key whose value is
    [undefined].  [origin] is [window.location.origin]. *)
Definition requestBody (origin : string) (project : Project) (videoUrl : string)
    : CreateJobRequest :=
  mkCreateJobRequest
    (Some videoUrl)
    (Some (map (λ seg, mkScriptSegment (seg_id seg) (outputTime seg) (script seg)
                         (sourceTimestamp seg))
             (project_segments project)))
    (Some (match voice_id <$> project_selectedVoice project with
           | Some (String c s) => String c s
           | _ => "en_US-lessac-medium"
           end))
    (match music_filePath <$> project_selectedMusic project with
     | Some (String c s) => Some (origin +:+ String c s)
     | _ => None
     end)
    (Some (project_musicVolume project))
    (Some (project_includeCaptions project)).

(** *** Polling the job *)






(** * Statements

    The vocabulary of the properties: the predicates that the claims of
    the specification are stated with, and the sample engines and inputs
    on which the code is run. *)

(** ** Crop regions *)

(** The region lies inside a frame of the given size. *)
Definition within_frame (r : CropRegion) (frameWidth frameHeight : Z) : Prop :=
  (0 <= crop_x r /\ 0 <= crop_y r /\
   crop_x r + crop_width r <= frameWidth /\
   crop_y r + crop_height r <= frameHeight)%Z.

(** [width / height] is 9/16 up to one pixel of width. *)
Definition aspect_9_16 (r : CropRegion) : Prop :=
  Qabs (inject_Z (crop_width r) - (9 # 16) * inject_Z (crop_height r)) <= 1.

(** ** Captions *)

(** The pause bonus in the words of the specification: 3 after a
    sentence end, 1.5 after a clause break. *)
Definition ends_in (marks : list string) (word : jsstring) : bool :=
  existsb (endsWith word) marks.

Definition spec_weight (word : jsstring) : Q :=
  inject_Z (Z.of_nat (length word))
  + (if ends_in ["."; "!"; "?"] word then 3 else 0)
  + (if ends_in [","; ";"; ":"] word then 15 # 10 else 0).

(** The windows of [ws] follow one another from [a] to [b]: the first
    starts at [a], each next one starts where the previous one ends, every
    window is non-empty, and the last one ends at [b]. *)
Fixpoint tiles (a : Q) (ws : list CaptionWord) (b : Q) : Prop :=
  match ws with
  | [] => False
  | w :: rest =>
      startTime w == a /\ startTime w < endTime w /\
      match rest with
      | [] => endTime w == b
      | _ :: _ => tiles (endTime w) rest b
      end
  end.

(** Two timings that differ only in the representation of their numbers. *)
Definition cw_equiv (x y : CaptionWord) : Prop :=
  cw_text x = cw_text y /\ startTime x == startTime y /\ endTime x == endTime y.

(** The time that the loop of [estimateWordTimings] gives each word. *)
Definition word_durations (timePerWeight : Q) (words : list jsstring) : list Q :=
  map (λ w, word_weight w * timePerWeight) words.

(** The [cumulativeTime] at which segment [i] starts: the durations of
    the earlier segments, added up from 0. *)
Definition cumulativeTime_before (durations : list Q) (i : nat) : Q :=
  fold_left Qplus (map (duration_or_default durations) (seq 0 i)) 0.

(** ** Status writes *)

(** The order in which the stages are meant to be passed. *)
Definition stage_rank (s : ProcessingStage) : nat :=
  match s with
  | stage_queued => 0 | stage_loading => 1 | stage_tts => 2 | stage_extracting => 3
  | stage_detecting => 4 | stage_cropping => 5 | stage_stitching => 6
  | stage_complete => 7 | stage_error => 8
  end.

(** One status write after another: the stage does not move backward
    and, inside one stage, the progress does not decrease; a move to
    [error] is always allowed. *)
Definition forward_step (a b : ProcessingJob) : Prop :=
  job_stage b = stage_error \/
  ((stage_rank (job_stage a) <= stage_rank (job_stage b))%nat /\
   (job_stage a = job_stage b -> job_progress a <= job_progress b)).

(** Every write of a history is a forward step from the one before. *)
Definition monotone_updates (history : list ProcessingJob) : Prop :=
  forall i a b, history !! i = Some a -> history !! S i = Some b -> forward_step a b.

(** The updates that [updateJobProgress] writes. *)
Definition progress_updates (stage : ProcessingStage) (progress : Q) (message : string)
    (currentSegment : option nat) : JobUpdates :=
  mkJobUpdates
    (Some match stage with
          | stage_complete => status_complete
          | stage_error => status_error
          | _ => status_processing
          end)
    (Some stage) (Some progress) (Some currentSegment) (Some message) None None None.

(** The updates that [failJob] writes. *)
Definition fail_updates (error : string) : JobUpdates :=
  mkJobUpdates (Some status_error) (Some stage_error) None None
    (Some "Processing failed") (Some error) None None.

(** ** Computations and the world *)

(** A computation that never touches the job store. *)
Definition store_frame {A} (m : M A) : Prop :=
  forall w, memoryStore (snd (m w)) = memoryStore w /\ written (snd (m w)) = written w.

(** A computation that keeps a property of the world. *)
Definition preserves {A} (P : World → Prop) (m : M A) : Prop :=
  forall w, P w -> P (snd (m w)).

(** A computation that only adds to the history of status writes. *)
Definition appends {A} (m : M A) : Prop :=
  forall w, exists l, written (snd (m w)) = written w ++ l.

(** The job [id] is in the store, and its record satisfies [R]. *)
Definition job_is (id : string) (R : ProcessingJob → Prop) (w : World) : Prop :=
  exists j, memoryStore w !! id = Some j /\ R j.

(** ** Updates shown by the browser-side orchestrator *)

(** [forward_step], on the states that the component shows. *)
Definition forward_state (a b : ProcessingState) : Prop :=
  ps_stage b = stage_error \/
  ((stage_rank (ps_stage a) <= stage_rank (ps_stage b))%nat /\
   (ps_stage a = ps_stage b -> ps_progress a <= ps_progress b)).

Definition monotone_states (history : list ProcessingState) : Prop :=
  forall i a b, history !! i = Some a -> history !! S i = Some b -> forward_state a b.

(** The same, by recursion on the updates that follow the state [a]. *)
Fixpoint chain (a : ProcessingState) (l : list ProcessingState) : Prop :=
  match l with
  | [] => True
  | b :: rest => forward_state a b /\ chain b rest
  end.

(** A state from which an update to stage [s] at progress [p] is a
    forward step. *)
Definition upto (s : ProcessingStage) (p : Q) (st : ProcessingState) : Prop :=
  (stage_rank (ps_stage st) <= stage_rank s)%nat /\
  (ps_stage st = s -> ps_progress st <= p).

(** A computation that never touches the state of the component. *)
Definition ui_frame {A} (m : M A) : Prop :=
  forall w, ui (snd (m w)) = ui w.

(** A computation that shows nothing. *)
Definition quiet {A} (m : M A) : Prop :=
  forall w, shown (ui (snd (m w))) = shown (ui w) /\
            processingState (ui (snd (m w))) = processingState (ui w).

(** Started in a state that satisfies [P], the computation [m] shows a
    chain of forward updates; when it returns, the state satisfies [R]. *)
Definition shows {A} (P : ProcessingState → Prop) (m : M A)
    (R : ProcessingState → Prop) : Prop :=
  forall w, P (processingState (ui w)) ->
    exists l,
      shown (ui (snd (m w))) = shown (ui w) ++ l /\
      chain (processingState (ui w)) l /\
      processingState (ui (snd (m w))) = List.last l (processingState (ui w)) /\
      (forall x, fst (m w) = Ok x -> R (processingState (ui (snd (m w))))).

(** The shape shared by the browser-side [extractClip], [cropVideo] and
    [adjustDuration]: write the input, run ffmpeg, read the output;
    delete both files in the [finally] block. *)
Definition scratch_step (ffmpeg_load : result unit)
    (ffmpeg_run : list string → gmap string Bytes → ExecOutcome)
    (inputName outputName : string) (data : Bytes) (args : list string) : M Bytes :=
  try_finally
    (writeFile ffmpeg_load inputName data;;
     ff_exec ffmpeg_run args;;
     data ← readFile ffmpeg_load outputName;
     mret data)
    (deleteFile ffmpeg_load inputName;; deleteFile ffmpeg_load outputName).



(** ** Sample engines and inputs *)

(** A stand-in for [Math.pow] on the two exponents that two detections
    need: [1.2 ^ 0 = 1], and [1.2 ^ (1/2)] is about 1.0954. *)
Definition pow_sample (b e : Q) : Q := if Qeq_bool e 0 then 1 else 10954 # 10000.

(** An ffmpeg that writes a one-byte output for every command. *)
Definition run_ok (args : list string) (files : gmap string Bytes) : ExecOutcome :=
  mkExecOutcome (Some [Byte.x01]) None.

(** An ffmpeg that returns without writing an output file. *)
Definition run_no_output (args : list string) (files : gmap string Bytes) : ExecOutcome :=
  mkExecOutcome None None.

(** A number printer: the numerator, and the denominator when it is not 1. *)
Definition show_Q (q : Q) : string :=
  let r := Qred q in
  if (Qden r =? 1)%positive then pretty (Qnum r)
  else pretty (Qnum r) +:+ "/" +:+ pretty (Z.pos (Qden r)).

(** A source download and an upload that succeed. *)
Definition fetch_ok (url : string) : result (bool * Bytes) := Ok (true, [Byte.x00]).

Definition put_ok (filename : string) (blob : Bytes) : result string :=
  Ok ("https://blob.example.com/" +:+ filename).

(** The component as it is mounted: [useState]'s initial value. *)
Definition ui_initial (totalSegments : nat) : UIState :=
  mkUIState (mkProcessingState stage_loading 0 totalSegments 0 "Initializing..." None)
    false [] None [].

(** The browser with ffmpeg loaded and nothing in its file system. *)
Definition world_loaded : World := mkWorld ∅ true ∅ [] [] (ui_initial 1).

(** The fourth loop of the browser-side pipeline on a 720x1600 clip in
    which no face is found. *)
Definition tall_frame_no_faces : M Bytes :=
  processClip (Ok ()) run_ok show_Q pow_sample
    (λ _, Ok (720, 1600)%Z) (λ _, Ok 10) (λ _, Ok [None; None; None])
    [Byte.x00] 3.

(** Two detections, and the same loop on a 1920x1080 clip that shows
    them. *)
Definition two_faces : list (option Point) :=
  [Some (mkPoint 400 300); Some (mkPoint 1000 300)].

Definition wide_frame_two_faces : M Bytes :=
  processClip (Ok ()) run_ok show_Q pow_sample
    (λ _, Ok (1920, 1080)%Z) (λ _, Ok 10) (λ _, Ok two_faces)
    [Byte.x00] 3.

(** A script of two segments: one space, then two words. *)
Definition two_segments : list ScriptSegment :=
  [mkScriptSegment "a" 0 (js " ") 0; mkScriptSegment "b" 1 (js "hi there") 10].

(** A job with one segment, no music and no captions, as [POST
    /api/process] creates it, and the world in which it has just been
    stored. *)
Definition one_segment_job : ProcessingJob :=
  mkJob "job-1" status_pending stage_queued 0 (Some 0%nat) 1 "Job queued" None
    "https://example.com/source.mp4"
    [mkScriptSegment "s1" 0 (js "Hello world.") 5]
    "voice-1" None (3 # 10) false None None.

Definition world_with_job (job : ProcessingJob) : World :=
  mkWorld ∅ false {[ job_id job := job ]} [job] [] (ui_initial 0).

(** The server-side run of that job when every engine succeeds. *)
Definition one_segment_run : result unit * World :=
  Processor.processVideo (Ok ()) run_ok show_Q fetch_ok put_ok one_segment_job
    (world_with_job one_segment_job).

(** The same job with its segment taken at second 100 of the source, and
    its run with an ffmpeg that writes no output file. *)
Definition late_segment_job : ProcessingJob :=
  mkJob "job-1" status_pending stage_queued 0 (Some 0%nat) 1 "Job queued" None
    "https://example.com/source.mp4"
    [mkScriptSegment "s1" 0 (js "Hello world.") 100]
    "voice-1" None (3 # 10) false None None.

Definition failing_extraction_run : result unit * World :=
  Processor.processVideo (Ok ()) run_no_output show_Q fetch_ok put_ok
    late_segment_job (world_with_job late_segment_job).





(** A project of one segment, ready to be processed. *)
Definition sample_project : Project :=
  mkProject (Some [Byte.x00]) (Some (mkVoice "en_US-lessac-medium" "Lessac"))
    [mkScriptSegment "s1" 0 (js "Hello world.") 5] true None (15 # 100).

(** ** Jobs *)

(** The part of a job that [POST /api/process] copies from the request. *)
Definition same_request (a b : ProcessingJob) : Prop :=
  job_id a = job_id b /\ job_totalSegments a = job_totalSegments b /\
  job_videoUrl a = job_videoUrl b /\ job_segments a = job_segments b /\
  job_voiceId a = job_voiceId b /\ job_musicUrl a = job_musicUrl b /\
  job_musicVolume a = job_musicVolume b /\
  job_includeCaptions a = job_includeCaptions b.

(** The two states in which a job is left for good. *)
Definition finished (j : ProcessingJob) : Prop :=
  (job_status j = status_complete /\ job_stage j = stage_complete /\
   job_progress j = 100 /\ is_Some (job_outputUrl j)) \/
  (job_status j = status_error /\ job_stage j = stage_error /\
   is_Some (job_error j)).

(** [status] tells the same as [stage]. *)
Definition status_matches_stage (j : ProcessingJob) : Prop :=
  (job_status j = status_complete <-> job_stage j = stage_complete) /\
  (job_status j = status_error <-> job_stage j = stage_error).

(** When [m] returns, the world satisfies [P]. *)
Definition ensures {A} (m : M A) (P : World → Prop) : Prop :=
  forall w a w', m w = (Ok a, w') -> P w'.

(** A request body that [POST /api/process] accepts. *)
Definition valid_request (body : CreateJobRequest) : Prop :=
  falsy (req_videoUrl body) = false /\ falsy (req_voiceId body) = false /\
  exists segment rest, req_segments body = Some (segment :: rest).


Definition world_empty : World := mkWorld ∅ false ∅ [] [] (ui_initial 0).

(** ** Scratch files *)

(** Started with ffmpeg loaded, [m] keeps it loaded and changes no file
    other than those of [names]. *)
Definition touches_only {A} (names : list string) (m : M A) : Prop :=
  forall w, ffmpeg_loaded w = true ->
    ffmpeg_loaded (snd (m w)) = true /\
    forall name, name ∉ names -> fs (snd (m w)) !! name = fs w !! name.

(** Started with ffmpeg loaded, [m] returns, keeps it loaded and leaves
    no file of [names]; the other files are as before. *)
Definition deletes (names : list string) (m : M unit) : Prop :=
  forall w, ffmpeg_loaded w = true ->
    fst (m w) = Ok () /\ ffmpeg_loaded (snd (m w)) = true /\
    forall name,
      fs (snd (m w)) !! name = if bool_decide (name ∈ names) then None else fs w !! name.

(** The file system in which the files of [names] are gone and the
    others are as in [files]. *)
Definition without (names : list string) (files files' : gmap string Bytes) : Prop :=
  forall name,
    files' !! name = if bool_decide (name ∈ names) then None else files !! name.

(** The names [prefix0suffix], [prefix1suffix], ... of [n] numbered files. *)
Definition numbered (prefix suffix : string) (n : nat) : list string :=
  map (λ i, prefix +:+ pretty i +:+ suffix) (seq 0 n).


(** An ffmpeg that fails after it has written its output file. *)
Definition run_partial (args : list string) (files : gmap string Bytes) : ExecOutcome :=
  mkExecOutcome (Some [Byte.x01]) (Some "ffmpeg: conversion failed").

(** ** More on crop regions and captions *)

(** A region of size [w] x [h] inside a frame of [frameWidth] x
    [frameHeight]. *)
Definition framed (frameWidth frameHeight w h : Z) (r : CropRegion) : Prop :=
  within_frame r frameWidth frameHeight /\ crop_width r = w /\ crop_height r = h.

(** The word is shown at [currentTime]. *)
Definition shown_at (currentTime : Q) (word : CaptionWord) : Prop :=
  startTime word <= currentTime /\ currentTime < endTime word.

(** Three crops of one 1920x1080 clip, and three detections in one
    frame. *)
Definition sample_regions : list CropRegion :=
  [mkCropRegion 0 0 608 1080; mkCropRegion 1000 0 608 1080; mkCropRegion 1312 0 608 1080].

(** ** Reading a WAV file back *)

Definition byte_value (b : Byte.byte) : Z := Z.of_N (Byte.to_N b).

(** [view.getUint16(offset, true)], [view.getUint32(offset, true)] and
    [view.getInt16(offset, true)]; [None] past the end. *)
Definition getUint16 (bytes : Bytes) (offset : nat) : option Z :=
  match drop offset bytes with
  | b0 :: b1 :: _ => Some (byte_value b0 + 256 * byte_value b1)%Z
  | _ => None
  end.

Definition getUint32 (bytes : Bytes) (offset : nat) : option Z :=
  match drop offset bytes with
  | b0 :: b1 :: b2 :: b3 :: _ =>
      Some (byte_value b0 + 256 * byte_value b1 + 65536 * byte_value b2
            + 16777216 * byte_value b3)%Z
  | _ => None
  end.

Definition getInt16 (bytes : Bytes) (offset : nat) : option Z :=
  (λ u, if (u <? 32768)%Z then u else (u - 65536)%Z) <$> getUint16 bytes offset.

(** A buffer as the Web Audio API makes them: at least one channel, at
    least one frame, all channels of one length. *)
Definition well_formed (b : AudioBuffer) : Prop :=
  (1 <= numberOfChannels b)%nat /\ (1 <= ab_length b)%nat /\
  Forall (λ data, length data = ab_length b) (channels b).

Definition in_range (x : Q) : Prop := -1 <= x /\ x <= 1.





(** A file that the upload route accepts. *)
Definition acceptable (file : File) : Prop :=
  file_type file ∈ validTypes /\ (file_size file <= maxSize)%Z.

(** A character of a stored name: a letter, a digit, or one of [.-_]. *)
Definition is_name_char (c : N) : Prop := is_safe_char c = true \/ c = 95%N.

(** The number of characters of the words. *)
Definition chars_of (words : list jsstring) : Q :=
  sumQ (map (λ w, inject_Z (Z.of_nat (length w))) words).

(** An ffmpeg that leaves two frames beside the files it found. *)
Definition two_frames (args : list string) (files : gmap string Bytes)
    : gmap string Bytes * option string :=
  (<[frameName 1 := [Byte.x01]]> (<[frameName 2 := [Byte.x02]]> files), None).


(** * Properties *)

(** ** Rounding and comparisons *)

Lemma Math_round_lower (q : Q) : inject_Z (Math_round q) <= q + (1 # 2).
Proof. unfold Math_round. apply Qfloor_le. Qed.

Lemma Math_round_upper (q : Q) : q + (1 # 2) < inject_Z (Math_round q + 1).
Proof. unfold Math_round. apply Qlt_floor. Qed.

Lemma Qgtb_true (a b : Q) : Qgtb a b = true <-> b < a.
Proof.
  unfold Qgtb. rewrite negb_true_iff. split.
  - intros H. apply Qnot_le_lt. intros Hle. apply Qle_bool_iff in Hle. congruence.
  - intros H. destruct (Qle_bool a b) eqn:E; [|reflexivity].
    apply Qle_bool_iff in E. exfalso. apply (Qlt_not_le _ _ H E).
Qed.

Lemma Qgtb_false (a b : Q) : Qgtb a b = false <-> a <= b.
Proof.
  unfold Qgtb. rewrite negb_false_iff. apply Qle_bool_iff.
Qed.

(** The rounding of a fraction with a known denominator, as integer bounds. *)
Lemma Math_round_frac (n : Z) (d : positive) :
  (2 * Z.pos d * Math_round (n # d) <= 2 * n + Z.pos d
   < 2 * Z.pos d * (Math_round (n # d) + 1))%Z.
Proof.
  pose proof (Math_round_lower (n # d)) as Hl.
  pose proof (Math_round_upper (n # d)) as Hu.
  set (r := Math_round (n # d)) in *. clearbody r.
  unfold Qle, Qlt in *. simpl in *. nia.
Qed.

Lemma Math_round_comp (q q' : Q) : q == q' -> Math_round q = Math_round q'.
Proof.
  intros H. unfold Math_round. apply Qfloor_comp. rewrite H. reflexivity.
Qed.

(** ** Crop bounds *)

Lemma aspect_lt_Z (a : Q) (w h : Z) :
  a == 9 # 16 -> (0 < h)%Z ->
  (a < inject_Z w / inject_Z h <-> (9 * h < 16 * w)%Z).
Proof.
  intros Ha Hh. rewrite Ha.
  destruct h as [|p|p]; try lia.
  unfold Qlt, Qdiv, Qmult, Qinv. simpl. lia.
Qed.

(** A frame wider than 9:16 keeps its height; the rounded width fits. *)
Lemma wide_cropWidth (a : Q) (w h : Z) :
  a == 9 # 16 -> (0 < w)%Z -> (0 < h)%Z ->
  Qgtb (inject_Z w / inject_Z h) a = true ->
  (0 <= Math_round (inject_Z h * a) <= w /\
   -8 <= 16 * Math_round (inject_Z h * a) - 9 * h <= 8)%Z.
Proof.
  intros Ha Hw Hh Hgt.
  apply Qgtb_true in Hgt. apply (aspect_lt_Z a w h Ha Hh) in Hgt.
  assert (E : Math_round (inject_Z h * a) = Math_round ((9 * h) # 16)).
  { apply Math_round_comp. rewrite Ha. unfold Qeq. simpl. lia. }
  rewrite E. pose proof (Math_round_frac (9 * h) 16). lia.
Qed.

(** A frame at most as wide as 9:16 keeps its width; the rounded height fits. *)
Lemma tall_cropHeight (a : Q) (w h : Z) :
  a == 9 # 16 -> (0 < w)%Z -> (0 < h)%Z ->
  Qgtb (inject_Z w / inject_Z h) a = false ->
  (0 <= Math_round (inject_Z w / a) <= h /\
   -4 <= 9 * Math_round (inject_Z w / a) - 16 * w <= 4)%Z.
Proof.
  intros Ha Hw Hh Hle.
  assert (Hn : ~ (9 * h < 16 * w)%Z).
  { intros Hlt. apply (aspect_lt_Z a w h Ha Hh) in Hlt.
    apply Qgtb_true in Hlt. congruence. }
  assert (E : Math_round (inject_Z w / a) = Math_round ((16 * w) # 9)).
  { apply Math_round_comp. rewrite Ha. unfold Qeq. simpl. lia. }
  rewrite E. pose proof (Math_round_frac (16 * w) 9). lia.
Qed.

(** Half of a non-negative margin, rounded, stays inside the margin. *)
Lemma round_half_margin (d : Z) :
  (0 <= d)%Z -> (0 <= Math_round (inject_Z d / 2) <= d)%Z.
Proof.
  intros Hd.
  assert (E : Math_round (inject_Z d / 2) = Math_round (d # 2)).
  { apply Math_round_comp. unfold Qeq. simpl. lia. }
  rewrite E. pose proof (Math_round_frac d 2). lia.
Qed.

Lemma aspect_from_Z (cw ch : Z) :
  (-16 <= 16 * cw - 9 * ch <= 16)%Z ->
  Qabs (inject_Z cw - (9 # 16) * inject_Z ch) <= 1.
Proof.
  intros H. apply Qabs_Qle_condition.
  unfold Qle, Qminus, Qplus, Qopp, Qmult. simpl. lia.
Qed.

Lemma TARGET_ASPECT_eq : TARGET_ASPECT == 9 # 16.
Proof. reflexivity. Qed.

Lemma targetAspect_eq : 9 / 16 == 9 # 16.
Proof. reflexivity. Qed.

Lemma calculateOptimalCrop_ok (Math_pow : Q -> Q -> Q)
    (faceCenters : list (option Point)) (w h : Z) :
  (0 < w)%Z -> (0 < h)%Z ->
  within_frame (calculateOptimalCrop Math_pow faceCenters w h) w h /\
  aspect_9_16 (calculateOptimalCrop Math_pow faceCenters w h).
Proof.
  intros Hw Hh. unfold calculateOptimalCrop, within_frame, aspect_9_16.
  destruct (Qgtb (inject_Z w / inject_Z h) TARGET_ASPECT) eqn:E;
    cbn [crop_x crop_y crop_width crop_height].
  - destruct (wide_cropWidth _ w h TARGET_ASPECT_eq Hw Hh E) as [Hb Ha].
    split; [lia|]. apply aspect_from_Z. lia.
  - destruct (tall_cropHeight _ w h TARGET_ASPECT_eq Hw Hh E) as [Hb Ha].
    split; [lia|]. apply aspect_from_Z. lia.
Qed.

Lemma calculateCropRegion_ok (faceCenter : option Point) (w h : Z) :
  (0 < w)%Z -> (0 < h)%Z ->
  within_frame (calculateCropRegion w h faceCenter) w h /\
  aspect_9_16 (calculateCropRegion w h faceCenter).
Proof.
  intros Hw Hh. unfold calculateCropRegion, within_frame, aspect_9_16.
  destruct (Qgtb (inject_Z w / inject_Z h) (9 / 16)) eqn:E.
  - destruct (wide_cropWidth _ w h targetAspect_eq Hw Hh E) as [Hb Ha].
    set (cw := Math_round (inject_Z h * (9 / 16))) in *.
    destruct faceCenter as [c|]; cbn [crop_x crop_y crop_width crop_height].
    + split; [lia|]. apply aspect_from_Z. lia.
    + pose proof (round_half_margin (w - cw) ltac:(lia)).
      pose proof (round_half_margin (h - h) ltac:(lia)).
      split; [lia|]. apply aspect_from_Z. lia.
  - destruct (tall_cropHeight _ w h targetAspect_eq Hw Hh E) as [Hb Ha].
    set (ch := Math_round (inject_Z w / (9 / 16))) in *.
    destruct faceCenter as [c|]; cbn [crop_x crop_y crop_width crop_height].
    + split; [lia|]. apply aspect_from_Z. lia.
    + pose proof (round_half_margin (w - w) ltac:(lia)).
      pose proof (round_half_margin (h - ch) ltac:(lia)).
      split; [lia|]. apply aspect_from_Z. lia.
Qed.

(** C5.  For every list of detections (also empty or all null), every
    optional face centre and every positive integer frame size, the region
    computed by [calculateOptimalCrop], the one computed by
    [calculateCropRegion] and the one [smartCrop] applies lie inside the
    frame ([0 <= x], [0 <= y], [x + width <= frameWidth],
    [y + height <= frameHeight]) and have a width within one pixel of 9/16
    of their height. *)
Theorem crop_bounds_invariant (Math_pow : Q -> Q -> Q)
    (faceCenters : list (option Point)) (faceCenter : option Point)
    (frameWidth frameHeight : Z) :
  (0 < frameWidth)%Z -> (0 < frameHeight)%Z ->
  (within_frame (calculateOptimalCrop Math_pow faceCenters frameWidth frameHeight)
     frameWidth frameHeight /\
   aspect_9_16 (calculateOptimalCrop Math_pow faceCenters frameWidth frameHeight)) /\
  (within_frame (calculateCropRegion frameWidth frameHeight faceCenter)
     frameWidth frameHeight /\
   aspect_9_16 (calculateCropRegion frameWidth frameHeight faceCenter)) /\
  (within_frame (smartCrop_region faceCenters frameWidth frameHeight)
     frameWidth frameHeight /\
   aspect_9_16 (smartCrop_region faceCenters frameWidth frameHeight)).
Proof.
  intros Hw Hh.
  split; [apply calculateOptimalCrop_ok; assumption|].
  split; apply calculateCropRegion_ok; assumption.
Qed.

Lemma crop_bounds_invariant_witness :
  (0 < 1920)%Z /\ (0 < 1080)%Z /\
  within_frame
    (calculateOptimalCrop pow_sample [None; Some (mkPoint 400 300)] 1920 1080)
    1920 1080.
Proof.
  split; [lia|]. split; [lia|].
  apply (crop_bounds_invariant pow_sample [None; Some (mkPoint 400 300)] None
           1920 1080); lia.
Defined.

(** ** The duration matcher *)




(** ** The crop the browser pipeline applies *)

(** Without a located face [smartCrop] passes no centre on, and
    [calculateCropRegion] then keeps its default, the centre crop. *)
Lemma no_faces_smartCrop_is_centre_crop (faceCenters : list (option Point))
    (videoWidth videoHeight : Z) :
  filter_valid faceCenters = [] ->
  smartCrop_region faceCenters videoWidth videoHeight
  = calculateCropRegion videoWidth videoHeight None.
Proof.
  intros H. unfold smartCrop_region, averageCenter. rewrite H. reflexivity.
Qed.

(** C3 (broken by the code).  On a 720x1600 clip whose sampled frames show
    no face, [calculateOptimalCrop] aims at the upper third (y = 107),
    but [processVideo] drops that region: the rectangle [smartCrop] hands
    to ffmpeg is the plain centre crop (y = 160 = (1600 - 1280) / 2). *)
Theorem no_faces_applied_crop_is_centre :
  (forall Math_pow,
     calculateOptimalCrop Math_pow [None; None; None] 720 1600
     = mkCropRegion 0 107 720 1280) /\
  smartCrop_region [None; None; None] 720 1600 = mkCropRegion 0 160 720 1280 /\
  ran (snd (tall_frame_no_faces world_loaded)) !! 0%nat
  = Some ["-i"; "input.mp4"; "-vf"; "crop=720:1280:0:160,scale=720:1280";
          "-c:v"; "libx264"; "-preset"; "fast"; "-crf"; "23"; "-an"; "-y";
          "cropped.mp4"].
Proof.
  split; [intros Math_pow; reflexivity|].
  split; [reflexivity|]. vm_compute. reflexivity.
Qed.

(** The x coordinate of the recency-weighted crop, for weights [w0] and
    [w1] of the two detections. *)
Lemma weighted_crop_x (Math_pow : Q -> Q -> Q) :
  crop_x (calculateOptimalCrop Math_pow two_faces 1920 1080)
  = Z.max 0 (Z.min
      (Math_round
         ((0 + 400 * Math_pow (12 # 10) (0 # 2) + 1000 * Math_pow (12 # 10) (1 # 2))
          / (0 + Math_pow (12 # 10) (0 # 2) + Math_pow (12 # 10) (1 # 2))
          - inject_Z 608 / 2))
      1312).
Proof. reflexivity. Qed.

(** C9 (broken by the code).  For detections at x = 400 and x = 1000 in a
    1920x1080 clip, the recency-weighted centroid of [calculateOptimalCrop]
    (weights 1.2^0 and 1.2^(1/2)) puts the crop at x = 409 or 410, but that
    region is dropped: [smartCrop] aims at the unweighted mean x = 700 and
    hands ffmpeg the rectangle at x = 396. *)
Theorem applied_crop_is_unweighted_mean (Math_pow : Q -> Q -> Q) :
  Math_pow (12 # 10) (0 # 2) == 1 ->
  (109 # 100) <= Math_pow (12 # 10) (1 # 2) <= (11 # 10) ->
  (409 <= crop_x (calculateOptimalCrop Math_pow two_faces 1920 1080) <= 410)%Z /\
  averageCenter two_faces = Some (mkPoint (1400 # 2) (600 # 2)) /\
  smartCrop_region two_faces 1920 1080 = mkCropRegion 396 0 608 1080 /\
  ran (snd (wide_frame_two_faces world_loaded)) !! 0%nat
  = Some ["-i"; "input.mp4"; "-vf"; "crop=608:1080:396:0,scale=720:1280";
          "-c:v"; "libx264"; "-preset"; "fast"; "-crf"; "23"; "-an"; "-y";
          "cropped.mp4"].
Proof.
  intros H0 [Hlo Hhi].
  split; [|split; [reflexivity|split; [reflexivity|vm_compute; reflexivity]]].
  rewrite weighted_crop_x.
  set (w0 := Math_pow (12 # 10) (0 # 2)) in *.
  set (w1 := Math_pow (12 # 10) (1 # 2)) in *.
  set (T := (0 + 400 * w0 + 1000 * w1) / (0 + w0 + w1)).
  assert (Hpos : 0 < 0 + w0 + w1) by lra.
  assert (HT1 : (7129 # 10) <= T).
  { unfold T. apply Qle_shift_div_l; [exact Hpos|]. lra. }
  assert (HT2 : T <= (7143 # 10)).
  { unfold T. apply Qle_shift_div_r; [exact Hpos|]. lra. }
  pose proof (Math_round_lower (T - inject_Z 608 / 2)) as Hl.
  pose proof (Math_round_upper (T - inject_Z 608 / 2)) as Hu.
  set (r := Math_round (T - inject_Z 608 / 2)) in *. clearbody r.
  assert (E : inject_Z 608 / 2 == 304) by reflexivity.
  rewrite E in Hl, Hu.
  assert (Hr1 : inject_Z r <= 4108 # 10) by lra.
  assert (Hr2 : (4094 # 10) < inject_Z (r + 1)) by lra.
  unfold Qle, Qlt in Hr1, Hr2. simpl in Hr1, Hr2. lia.
Qed.

Lemma applied_crop_is_unweighted_mean_witness :
  (409 <= crop_x (calculateOptimalCrop pow_sample two_faces 1920 1080) <= 410)%Z /\
  smartCrop_region two_faces 1920 1080 = mkCropRegion 396 0 608 1080.
Proof.
  pose proof (applied_crop_is_unweighted_mean pow_sample) as H.
  destruct H as (Hx & _ & Hs & _).
  - reflexivity.
  - split; discriminate.
  - split; [exact Hx | exact Hs].
Defined.

(** ** Sums of numbers *)

Lemma fold_left_Qplus_acc (xs : list Q) (a : Q) :
  fold_left Qplus xs a == a + sumQ xs.
Proof.
  revert a. induction xs as [|x xs IH]; intros a.
  - unfold sumQ. simpl. lra.
  - unfold sumQ. simpl. rewrite (IH (a + x)), (IH (0 + x)). lra.
Qed.

Lemma sumQ_cons (x : Q) (xs : list Q) : sumQ (x :: xs) == x + sumQ xs.
Proof.
  unfold sumQ at 1. simpl. rewrite fold_left_Qplus_acc. lra.
Qed.


Lemma sumQ_scale (c : Q) (xs : list Q) :
  sumQ (map (λ x, x * c) xs) == sumQ xs * c.
Proof.
  induction xs as [|x xs IH]; [reflexivity|].
  rewrite map_cons, !sumQ_cons, IH. lra.
Qed.

Lemma sumQ_pos (xs : list Q) :
  xs <> [] -> Forall (λ x, 0 < x) xs -> 0 < sumQ xs.
Proof.
  intros Hne Hall. induction Hall as [|x xs Hx Hxs IH]; [congruence|].
  rewrite sumQ_cons. destruct xs as [|y ys].
  - unfold sumQ. simpl. lra.
  - assert (0 < sumQ (y :: ys)) by (apply IH; discriminate). lra.
Qed.

(** ** Word weights *)

Lemma word_weight_spec (word : jsstring) : word_weight word == spec_weight word.
Proof.
  unfold word_weight, spec_weight, ends_in, endsWith. simpl.
  destruct (last word) as [c|]; simpl; [|lra].
  repeat match goal with
         | |- context [(c =? ?k)%N] =>
             let E := fresh "E" in
             destruct (c =? k)%N eqn:E;
             [apply N.eqb_eq in E; subst c; simpl | simpl]
         end; lra.
Qed.

Lemma spec_weight_pos (word : jsstring) : word <> [] -> 0 < spec_weight word.
Proof.
  intros Hne. unfold spec_weight.
  assert (1 <= inject_Z (Z.of_nat (length word))).
  { destruct word as [|c rest]; [congruence|].
    unfold Qle. simpl. lia. }
  destruct (ends_in _ word), (ends_in _ word); lra.
Qed.

Lemma word_weight_pos (word : jsstring) : word <> [] -> 0 < word_weight word.
Proof.
  intros Hne. rewrite word_weight_spec. apply spec_weight_pos, Hne.
Qed.

Lemma words_of_nonempty (text : jsstring) : Forall (λ w, w <> []) (words_of text).
Proof.
  unfold words_of, filter_Boolean. apply Forall_forall. intros w Hw.
  apply list_elem_of_filter in Hw. tauto.
Qed.

Lemma total_weight_pos (words : list jsstring) :
  words <> [] -> Forall (λ w, w <> []) words ->
  0 < sumQ (map word_weight words).
Proof.
  intros Hne Hall. apply sumQ_pos.
  - destruct words; [congruence|discriminate].
  - apply Forall_map. eapply Forall_impl; [exact Hall|].
    intros w Hw. apply word_weight_pos, Hw.
Qed.

(** ** Word timings *)

Lemma tiles_end (a b b' : Q) (ws : list CaptionWord) :
  b == b' -> tiles a ws b -> tiles a ws b'.
Proof.
  intros Hb. revert a. induction ws as [|w rest IH]; intros a; [tauto|].
  simpl. intros (Hs & Hlt & Hrest). split; [exact Hs|]. split; [exact Hlt|].
  destruct rest as [|w' rest'].
  - rewrite <- Hb. exact Hrest.
  - apply IH. exact Hrest.
Qed.

Lemma tiles_start (a a' b : Q) (ws : list CaptionWord) :
  a == a' -> tiles a ws b -> tiles a' ws b.
Proof.
  intros Ha. destruct ws as [|w rest]; [tauto|].
  simpl. intros (Hs & Hrest). split; [rewrite <- Ha; exact Hs|exact Hrest].
Qed.

Lemma tiles_equiv (a b : Q) (l k : list CaptionWord) :
  Forall2 cw_equiv l k -> tiles a l b -> tiles a k b.
Proof.
  intros H. revert a. induction H as [|x y l k (_ & Hs & He) Hlk IH]; intros a; [tauto|].
  simpl. intros (H1 & H2 & H3).
  split; [rewrite <- Hs; exact H1|]. split; [rewrite <- Hs, <- He; exact H2|].
  destruct Hlk as [|x' y' l' k' Hxy Hlk'].
  - rewrite <- He. exact H3.
  - apply (tiles_start (endTime x)); [exact He|]. apply IH. exact H3.
Qed.



Lemma timings_loop_tiles (tpw : Q) (words : list jsstring) (t : Q) :
  0 < tpw -> words <> [] -> Forall (λ w, w <> []) words ->
  tiles t (timings_loop tpw words t) (fold_left Qplus (word_durations tpw words) t).
Proof.
  intros Htpw Hne Hall. revert t Hne.
  induction Hall as [|w rest Hw Hrest IH]; intros t Hne; [done|].
  assert (Hd : 0 < word_weight w * tpw).
  { apply Qmult_lt_0_compat; [apply word_weight_pos, Hw|exact Htpw]. }
  simpl. split; [reflexivity|]. split; [lra|].
  destruct rest as [|w' rest']; [reflexivity|].
  apply IH. discriminate.
Qed.

(** Overwriting the last [endTime] with the value it already has, up to
    the representation of the number. *)
Lemma set_last_endTime_equiv (tpw : Q) (words : list jsstring) (t e : Q) :
  words <> [] ->
  e == fold_left Qplus (word_durations tpw words) t ->
  Forall2 cw_equiv
    (alter (set_endTime e) (length (timings_loop tpw words t) - 1)%nat
       (timings_loop tpw words t))
    (timings_loop tpw words t).
Proof.
  intros Hne. revert t. induction words as [|w rest IH]; intros t He; [congruence|].
  destruct rest as [|w' rest'].
  - simpl. constructor; [|constructor].
    unfold cw_equiv. simpl in *. repeat split; try reflexivity. exact He.
  - assert (Hlen : (length (timings_loop tpw (w :: w' :: rest') t) - 1
                    = S (length (timings_loop tpw (w' :: rest')
                                   (t + word_weight w * tpw)) - 1))%nat).
    { simpl. lia. }
    rewrite Hlen. simpl timings_loop at 1 3.
    change (alter ?f (S ?n) (?x :: ?l)) with (x :: alter f n l).
    constructor.
    + unfold cw_equiv. repeat split; reflexivity.
    + apply IH; [discriminate|exact He].
Qed.

Lemma word_durations_total (duration : Q) (words : list jsstring) :
  words <> [] -> Forall (λ w, w <> []) words ->
  sumQ (word_durations (duration / sumQ (map word_weight words)) words) == duration.
Proof.
  intros Hne Hall. pose proof (total_weight_pos words Hne Hall) as Hpos.
  unfold word_durations.
  rewrite <- (map_map word_weight (λ x, x * (duration / sumQ (map word_weight words)))).
  rewrite sumQ_scale. field. lra.
Qed.

(** With at least one word, the word timings are those of the loop, the
    last [endTime] being overwritten by an equal number. *)
Lemma estimateWordTimings_equiv (text : jsstring) (start duration : Q) :
  words_of text <> [] ->
  Forall2 cw_equiv
    (estimateWordTimings text start duration)
    (timings_loop (duration / sumQ (map word_weight (words_of text)))
       (words_of text) start).
Proof.
  intros Hne. unfold estimateWordTimings.
  destruct (words_of text) as [|w rest] eqn:E; [congruence|].
  change (length (w :: rest) =? 0)%nat with false. cbv iota.
  apply set_last_endTime_equiv; [discriminate|].
  rewrite fold_left_Qplus_acc, <- E, word_durations_total.
  - reflexivity.
  - rewrite E. discriminate.
  - apply words_of_nonempty.
Qed.

Lemma cw_equiv_list_sym (l k : list CaptionWord) :
  Forall2 cw_equiv l k -> Forall2 cw_equiv k l.
Proof.
  induction 1 as [|x y l k (Ht & Hs & He) _ IH]; constructor; [|exact IH].
  repeat split; symmetry; assumption.
Qed.






(** ** Captions of a whole script *)

Lemma generateCaptions_loop_lookup (segments : list ScriptSegment) (durations : list Q)
    (i0 : nat) (t : Q) (k : nat) (segment : ScriptSegment) :
  segments !! k = Some segment ->
  generateCaptions_loop segments durations i0 t !! k
  = Some (mkSegmentCaptions (seg_id segment)
            (estimateWordTimings (script segment)
               (fold_left Qplus (map (duration_or_default durations) (seq i0 k)) t)
               (duration_or_default durations (i0 + k)))).
Proof.
  revert i0 t k. induction segments as [|s rest IH]; intros i0 t k Hk; [done|].
  destruct k as [|k].
  - simpl in Hk. injection Hk as ->. simpl. rewrite Nat.add_0_r. reflexivity.
  - simpl in Hk. simpl. rewrite (IH (S i0) _ k Hk).
    rewrite Nat.add_succ_r. reflexivity.
Qed.

Lemma estimateWordTimings_tiles (text : jsstring) (start duration : Q) :
  words_of text <> [] -> 0 < duration ->
  tiles start (estimateWordTimings text start duration) (start + duration).
Proof.
  intros Hne Hd.
  pose proof (words_of_nonempty text) as Hall.
  pose proof (total_weight_pos _ Hne Hall) as Hpos.
  apply (tiles_equiv _ _ _ _
           (cw_equiv_list_sym _ _ (estimateWordTimings_equiv text start duration Hne))).
  eapply tiles_end; [|apply timings_loop_tiles; [|exact Hne|exact Hall]].
  - rewrite fold_left_Qplus_acc, word_durations_total by assumption. reflexivity.
  - apply Qlt_shift_div_l; [exact Hpos|lra].
Qed.

Lemma duration_or_default_pos (durations : list Q) (i : nat) (d : Q) :
  durations !! i = Some d -> 0 < d -> duration_or_default durations i = d.
Proof.
  intros Hi Hd. unfold duration_or_default. rewrite Hi.
  destruct (Qeq_bool d 0) eqn:E; [|reflexivity].
  apply Qeq_bool_iff in E. lra.
Qed.



(** C6 as stated fails on a two-segment script: a script made of one
    space is not empty but has no word, so its caption list is empty; and
    the words of the second segment start at 1, the end of the first
    segment, and end at 3, not at its duration 2. *)
Lemma caption_coverage_counterexample :
  exists cap0 cap1,
    generateCaptions two_segments [1; 2] = [cap0; cap1] /\
    js " " <> [] /\
    ~ tiles 0 (cap_words cap0) 1 /\
    ~ tiles 0 (cap_words cap1) 2.
Proof.
  eexists. eexists. split; [vm_compute; reflexivity|].
  split; [discriminate|]. split.
  - simpl. tauto.
  - simpl. intros (H & _). vm_compute in H. discriminate.
Qed.

(** ** The status updates of the server-side orchestrator *)

(** The stages and the progress that the run of [one_segment_job] writes,
    after the record of the job's creation. *)
Lemma one_segment_trace :
  fst one_segment_run = Ok () /\
  map (λ j, (job_stage j, Qred (job_progress j))) (written (snd one_segment_run))
  = [(stage_queued, 0); (stage_loading, 0); (stage_loading, 100);
     (stage_extracting, 0); (stage_extracting, 20);
     (stage_tts, 0); (stage_tts, 100);
     (stage_detecting, 0); (stage_detecting, 50);
     (stage_cropping, 70); (stage_cropping, 90);
     (stage_stitching, 20); (stage_stitching, 80); (stage_complete, 100)].
Proof.
  split; vm_compute; reflexivity.
Qed.

(** ** Scratch files of the browser-side media steps *)

Lemma delete_scratch_written (files : gmap string Bytes) (i o : string) (d : Bytes) :
  delete o (delete i (<[i := d]> files)) = delete o (delete i files).
Proof. rewrite delete_insert_eq. reflexivity. Qed.

Lemma delete_scratch_produced (files : gmap string Bytes) (i o : string) (d x : Bytes) :
  delete o (delete i (<[o := x]> (<[i := d]> files))) = delete o (delete i files).
Proof.
  apply map_eq. intros k.
  destruct (decide (k = o)) as [->|Ho]; [rewrite !lookup_delete_eq; reflexivity|].
  rewrite !(lookup_delete_ne _ o k) by congruence.
  destruct (decide (k = i)) as [->|Hi]; [rewrite !lookup_delete_eq; reflexivity|].
  rewrite !(lookup_delete_ne _ i k) by congruence.
  rewrite !lookup_insert_ne by congruence. reflexivity.
Qed.

(** Unfold the monad operations and reduce what they expose. *)
Ltac monad_step :=
  cbv beta iota zeta delta
    [mret M_ret mbind M_bind try_finally try_catch throw lift].

Section EngineFacts.
Variable ffmpeg_load : result unit.
Variable ffmpeg_run : list string → gmap string Bytes → ExecOutcome.

Lemma getFFmpeg_loaded (w : World) :
  ffmpeg_loaded w = true -> getFFmpeg ffmpeg_load w = (Ok (), w).
Proof. intros H. unfold getFFmpeg. rewrite H. reflexivity. Qed.

Lemma writeFile_loaded (name : string) (data : Bytes) (w : World) :
  ffmpeg_loaded w = true ->
  writeFile ffmpeg_load name data w = (Ok (), set_fs (insert name data) w).
Proof.
  intros H. unfold writeFile, mbind, M_bind. rewrite (getFFmpeg_loaded w H).
  reflexivity.
Qed.

Lemma readFile_loaded (name : string) (w : World) :
  ffmpeg_loaded w = true -> readFile ffmpeg_load name w = ff_readFile name w.
Proof.
  intros H. unfold readFile, mbind, M_bind. rewrite (getFFmpeg_loaded w H).
  reflexivity.
Qed.

(** Whether or not the file exists, [deleteFile] leaves a file system
    without it and does not throw. *)
Lemma deleteFile_loaded (name : string) (w : World) :
  ffmpeg_loaded w = true ->
  deleteFile ffmpeg_load name w = (Ok (), set_fs (delete name) w).
Proof.
  intros H. unfold deleteFile, mbind, M_bind. rewrite (getFFmpeg_loaded w H).
  unfold try_catch, ff_deleteFile.
  destruct (fs w !! name) as [d|] eqn:E; [reflexivity|].
  unfold mret, M_ret, set_fs. rewrite (delete_id _ _ E). destruct w; reflexivity.
Qed.

Lemma scratch_step_cleans_up (inputName outputName : string) (data : Bytes)
    (args : list string) (w : World) :
  ffmpeg_loaded w = true ->
  last args = Some outputName ->
  fs (snd (scratch_step ffmpeg_load ffmpeg_run inputName outputName data args w))
  = delete outputName (delete inputName (fs w)) /\
  ffmpeg_loaded (snd (scratch_step ffmpeg_load ffmpeg_run inputName outputName data args w)) = true.
Proof.
  intros Hl Hlast. unfold scratch_step. monad_step.
  rewrite (writeFile_loaded _ _ w Hl). monad_step.
  unfold ff_exec. rewrite Hlast.
  set (w1 := set_fs (insert inputName data) w).
  destruct (ffmpeg_run args (fs w1)) as [[out|] [e|]]; cbn [exec_output exec_error].
  all: repeat first
       [ progress monad_step
       | match goal with
         | |- context [readFile ffmpeg_load ?n ?x] =>
             rewrite (readFile_loaded n x) by exact Hl; unfold ff_readFile;
             destruct (fs x !! n)
         | |- context [deleteFile ffmpeg_load ?n ?x] =>
             rewrite (deleteFile_loaded n x) by exact Hl
         end ].
  all: cbn [snd fs set_fs log_run ffmpeg_loaded]; subst w1;
       cbn [snd fs set_fs log_run ffmpeg_loaded].
  all: split; [|exact Hl].
  all: first [apply delete_scratch_produced | apply delete_scratch_written].
Qed.

Variable Number_toString : Q → string.
Variable Number_toFixed4 : Q → string.

(** Both outcomes of [extractClip], [cropVideo] and [adjustDuration]
    leave ffmpeg's file system without their input and output files. *)
Lemma extractClip_cleans_up (videoFile : Bytes) (start duration : Q) (w : World) :
  ffmpeg_loaded w = true ->
  fs (snd (extractClip ffmpeg_load ffmpeg_run Number_toString videoFile start duration w))
  = delete "clip.mp4" (delete "input.mp4" (fs w)).
Proof.
  intros Hl. unfold extractClip.
  change (fs (snd ((getFFmpeg ffmpeg_load;;
            scratch_step ffmpeg_load ffmpeg_run "input.mp4" "clip.mp4" videoFile
              (extractClip_args Number_toString start duration)) w)) = 
          delete "clip.mp4" (delete "input.mp4" (fs w))).
  unfold mbind, M_bind. rewrite (getFFmpeg_loaded w Hl).
  apply scratch_step_cleans_up; [exact Hl|reflexivity].
Qed.

Lemma cropVideo_cleans_up (videoBlob : Bytes) (cropRegion : CropRegion) (w : World) :
  ffmpeg_loaded w = true ->
  fs (snd (cropVideo ffmpeg_load ffmpeg_run videoBlob cropRegion w))
  = delete "cropped.mp4" (delete "input.mp4" (fs w)).
Proof.
  intros Hl. unfold cropVideo.
  match goal with
  | |- fs (snd ((_;; try_finally (_;; ff_exec _ ?args;; _) _) w)) = _ =>
      change (fs (snd ((getFFmpeg ffmpeg_load;;
                scratch_step ffmpeg_load ffmpeg_run "input.mp4" "cropped.mp4" videoBlob args) w)) = 
              delete "cropped.mp4" (delete "input.mp4" (fs w)))
  end.
  unfold mbind, M_bind. rewrite (getFFmpeg_loaded w Hl).
  apply scratch_step_cleans_up; [exact Hl|reflexivity].
Qed.

Lemma adjustDuration_cleans_up (videoBlob : Bytes) (targetDuration currentDuration : Q)
    (w : World) :
  ffmpeg_loaded w = true ->
  fs (snd (adjustDuration ffmpeg_load ffmpeg_run Number_toFixed4
             videoBlob targetDuration currentDuration w))
  = delete "adjusted.mp4" (delete "input.mp4" (fs w)).
Proof.
  intros Hl. unfold adjustDuration.
  match goal with
  | |- fs (snd ((_;; try_finally (_;; ff_exec _ ?args;; _) _) w)) = _ =>
      change (fs (snd ((getFFmpeg ffmpeg_load;;
                scratch_step ffmpeg_load ffmpeg_run "input.mp4" "adjusted.mp4" videoBlob args) w)) = 
              delete "adjusted.mp4" (delete "input.mp4" (fs w)))
  end.
  unfold mbind, M_bind. rewrite (getFFmpeg_loaded w Hl).
  apply scratch_step_cleans_up; [exact Hl|reflexivity].
Qed.
End EngineFacts.

(** ** What the server-side steps do to the job store *)

Create HintDb frame.

Lemma frame_ret {A} (a : A) : store_frame (mret a : M A).
Proof. intros w. split; reflexivity. Qed.

Lemma frame_throw {A} (e : string) : store_frame (throw e : M A).
Proof. intros w. split; reflexivity. Qed.

Lemma frame_lift {A} (r : result A) : store_frame (lift r).
Proof. intros w. split; reflexivity. Qed.

Lemma frame_bind {A B} (m : M A) (f : A → M B) :
  store_frame m -> (forall a, store_frame (f a)) -> store_frame (m ≫= f).
Proof.
  intros Hm Hf w. specialize (Hm w). unfold mbind, M_bind.
  destruct (m w) as [[a|e] w1]; simpl in *; [|exact Hm].
  destruct (Hf a w1) as [-> ->]. exact Hm.
Qed.

Lemma frame_writeFile (name : string) (data : Bytes) : store_frame (ff_writeFile name data).
Proof. intros w. split; reflexivity. Qed.

Lemma frame_readFile (name : string) : store_frame (ff_readFile name).
Proof. intros w. unfold ff_readFile. destruct (fs w !! name); split; reflexivity. Qed.

Lemma frame_deleteFile (name : string) : store_frame (ff_deleteFile name).
Proof. intros w. unfold ff_deleteFile. destruct (fs w !! name); split; reflexivity. Qed.

Lemma frame_exec (run : list string → gmap string Bytes → ExecOutcome)
    (args : list string) : store_frame (ff_exec run args).
Proof.
  intros w. unfold ff_exec.
  destruct (run args (fs w)) as [[out|] [e|]]; simpl; destruct (last args);
    split; reflexivity.
Qed.

#[local] Hint Resolve frame_ret frame_throw frame_lift frame_writeFile
  frame_readFile frame_deleteFile frame_exec : frame.

Ltac frame_chain :=
  repeat first
    [ apply frame_bind; [|intros ?]
    | solve [auto with frame] ].

Lemma preserves_frame {A} (Q : gmap string ProcessingJob → Prop) (m : M A) :
  store_frame m -> preserves (λ w, Q (memoryStore w)) m.
Proof. intros Hm w Hw. rewrite (proj1 (Hm w)). exact Hw. Qed.

Lemma preserves_bind {A B} (P : World → Prop) (m : M A) (f : A → M B) :
  preserves P m -> (forall a, preserves P (f a)) -> preserves P (m ≫= f).
Proof.
  intros Hm Hf w Hw. specialize (Hm w Hw). unfold mbind, M_bind.
  destruct (m w) as [[a|e] w1]; simpl in *; [|exact Hm].
  apply Hf. exact Hm.
Qed.


Lemma updateJob_stored (id : string) (u : JobUpdates) (w : World) (j : ProcessingJob) :
  memoryStore w !! id = Some j ->
  fst (updateJob id u w) = Ok () /\
  memoryStore (snd (updateJob id u w)) = <[id := apply_updates j u]> (memoryStore w).
Proof.
  intros Hj. unfold updateJob, getJob. monad_step. rewrite Hj. split; reflexivity.
Qed.

Lemma updateJob_missing (id : string) (u : JobUpdates) (w : World) :
  memoryStore w !! id = None ->
  updateJob id u w = (Throw ("Job not found: " +:+ id), w).
Proof.
  intros Hj. unfold updateJob, getJob. monad_step. rewrite Hj. reflexivity.
Qed.

(** An update of one job leaves the others in the store. *)
Lemma updateJob_keeps (id id' : string) (u : JobUpdates) :
  preserves (job_is id' (λ _, True)) (updateJob id u).
Proof.
  intros w (j' & Hj' & _). unfold job_is.
  destruct (memoryStore w !! id) as [j|] eqn:E.
  - destruct (updateJob_stored id u w j E) as [_ ->].
    destruct (decide (id = id')) as [->|Hne].
    + exists (apply_updates j u). rewrite lookup_insert_eq. split; [reflexivity|exact I].
    + exists j'. rewrite lookup_insert_ne by exact Hne. split; [exact Hj'|exact I].
  - rewrite (updateJob_missing id u w E). exists j'. split; [exact Hj'|exact I].
Qed.

Lemma updateJobProgress_keeps (id id' : string) (stage : ProcessingStage) (progress : Q)
    (message : string) (currentSegment : option nat) :
  preserves (job_is id' (λ _, True))
    (updateJobProgress id stage progress message currentSegment).
Proof. apply updateJob_keeps. Qed.


Lemma frame_preserves_job {A} (id : string) (R : ProcessingJob → Prop) (m : M A) :
  store_frame m -> preserves (job_is id R) m.
Proof.
  intros Hm.
  apply (preserves_frame (λ store, exists j, store !! id = Some j /\ R j) m Hm).
Qed.




Section ProcessorFacts.
Variable ffmpeg_load : result unit.
Variable ffmpeg_run : list string → gmap string Bytes → ExecOutcome.
Variable Number_toString : Q → string.
Variable fetch : string → result (bool * Bytes).
Variable put : string → Bytes → result string.

Lemma frame_getFFmpeg : store_frame (Processor.getFFmpeg ffmpeg_load).
Proof.
  intros w. unfold Processor.getFFmpeg.
  destruct (ffmpeg_loaded w); [split; reflexivity|].
  destruct ffmpeg_load; split; reflexivity.
Qed.

Lemma frame_downloadFile (url : string) : store_frame (Processor.downloadFile fetch url).
Proof.
  unfold Processor.downloadFile. apply frame_bind; [auto with frame|].
  intros [ok body]. destruct ok; simpl; auto with frame.
Qed.

Lemma frame_extractClip (videoData : Bytes) (start duration : Q) (outputName : string) :
  store_frame (Processor.extractClip ffmpeg_run Number_toString
                 videoData start duration outputName).
Proof. unfold Processor.extractClip. frame_chain. Qed.

Lemma frame_applyCrop (clipData : Bytes) (outputName : string) :
  store_frame (Processor.applyCrop ffmpeg_run clipData outputName).
Proof. unfold Processor.applyCrop. frame_chain. Qed.

Lemma frame_adjustDuration (clipData : Bytes) (targetDuration : Q) (outputName : string) :
  store_frame (Processor.adjustDuration ffmpeg_run Number_toString
                 clipData targetDuration outputName).
Proof. unfold Processor.adjustDuration. frame_chain. Qed.

Lemma frame_combine_segments (segments : list Processor.Processed) (i : nat)
    (concatList : list string) :
  store_frame (Processor.combine_segments ffmpeg_run segments i concatList).
Proof.
  revert i concatList. induction segments as [|seg rest IH]; intros i concatList; simpl.
  - auto with frame.
  - frame_chain.
Qed.

Lemma frame_delete_combined (n i : nat) : store_frame (Processor.delete_combined n i).
Proof.
  revert i. induction n as [|n IH]; intros i; simpl; [auto with frame|].
  frame_chain.
Qed.

Lemma frame_stitchSegments (segments : list Processor.Processed)
    (musicData : option Bytes) (musicVolume : Q) :
  store_frame (Processor.stitchSegments ffmpeg_run Number_toString
                 segments musicData musicVolume).
Proof.
  unfold Processor.stitchSegments.
  apply frame_bind; [apply frame_combine_segments|intros concatList].
  apply frame_bind; [auto with frame|intros _].
  apply frame_bind; [auto with frame|intros _].
  apply frame_bind; [apply frame_delete_combined|intros _].
  apply frame_bind; [auto with frame|intros _].
  apply frame_bind; [|intros finalOutput; frame_chain].
  destruct musicData as [music|]; [|auto with frame].
  destruct (Qgtb musicVolume 0); frame_chain.
Qed.

Lemma tts_loop_keeps (job : ProcessingJob) (id : string) (segments : list ScriptSegment)
    (i : nat) (ttsResults : list Processor.TTSResult) :
  preserves (job_is id (λ _, True)) (Processor.tts_loop job segments i ttsResults).
Proof.
  revert i ttsResults. induction segments as [|segment rest IH]; intros i ttsResults; simpl.
  - apply frame_preserves_job. auto with frame.
  - apply preserves_bind; [apply updateJobProgress_keeps|intros _]. apply IH.
Qed.

Lemma segment_loop_keeps (job : ProcessingJob) (id : string) (videoData : Bytes)
    (ttsResults : list Processor.TTSResult) (segments : list ScriptSegment) (i : nat)
    (processedSegments : list Processor.Processed) :
  preserves (job_is id (λ _, True))
    (Processor.segment_loop ffmpeg_run Number_toString job videoData ttsResults
       segments i processedSegments).
Proof.
  revert i processedSegments.
  induction segments as [|segment rest IH]; intros i processedSegments; simpl.
  - apply frame_preserves_job. auto with frame.
  - destruct (ttsResults !! i) as [ttsResult|];
      [|apply frame_preserves_job; auto with frame].
    apply preserves_bind; [apply updateJobProgress_keeps|intros _].
    apply preserves_bind;
      [apply frame_preserves_job, frame_extractClip|intros clipData].
    apply preserves_bind; [apply updateJobProgress_keeps|intros _].
    apply preserves_bind;
      [apply frame_preserves_job, frame_applyCrop|intros croppedData].
    apply preserves_bind; [apply updateJobProgress_keeps|intros _].
    apply preserves_bind;
      [apply frame_preserves_job, frame_adjustDuration|intros adjustedData].
    apply IH.
Qed.

Lemma processVideo_try_keeps (job : ProcessingJob) (id : string) :
  preserves (job_is id (λ _, True))
    (Processor.processVideo_try ffmpeg_load ffmpeg_run Number_toString fetch put job).
Proof.
  unfold Processor.processVideo_try, Processor.processVideo_after_download.
  apply preserves_bind; [apply updateJobProgress_keeps|intros _].
  apply preserves_bind; [apply frame_preserves_job, frame_getFFmpeg|intros _].
  apply preserves_bind; [apply updateJobProgress_keeps|intros _].
  apply preserves_bind; [apply updateJobProgress_keeps|intros _].
  apply preserves_bind; [apply frame_preserves_job, frame_downloadFile|intros videoData].
  apply preserves_bind; [apply updateJobProgress_keeps|intros _].
  apply preserves_bind; [apply updateJobProgress_keeps|intros _].
  apply preserves_bind; [apply tts_loop_keeps|intros ttsResults].
  apply preserves_bind; [apply updateJobProgress_keeps|intros _].
  apply preserves_bind; [apply segment_loop_keeps|intros processedSegments].
  apply preserves_bind.
  { destruct (job_musicUrl job) as [[|c rest]|];
      try solve [apply frame_preserves_job; auto with frame].
    apply preserves_bind; [apply updateJobProgress_keeps|intros _].
    apply preserves_bind; [apply frame_preserves_job, frame_downloadFile|intros music].
    apply frame_preserves_job. auto with frame. }
  intros musicData.
  apply preserves_bind; [apply updateJobProgress_keeps|intros _].
  apply preserves_bind; [apply frame_preserves_job, frame_stitchSegments|intros finalVideo].
  apply preserves_bind; [apply updateJobProgress_keeps|intros _].
  apply preserves_bind; [apply frame_preserves_job; auto with frame|intros uploaded].
  apply updateJob_keeps.
Qed.



(** The server-side [extractClip] deletes its files only after a
    successful read: whenever it throws, the copy of the source video it
    wrote is still in ffmpeg's file system. *)
Lemma server_extractClip_throw_keeps_input (videoData : Bytes) (start duration : Q)
    (outputName : string) (w w' : World) (e : string) :
  outputName <> "input.mp4" ->
  Processor.extractClip ffmpeg_run Number_toString videoData start duration outputName w
  = (Throw e, w') ->
  fs w' !! "input.mp4" = Some videoData.
Proof.
  intros Hne. unfold Processor.extractClip, ff_writeFile. monad_step.
  unfold ff_exec.
  change (last (Processor.extractClip_args Number_toString start duration outputName))
    with (Some outputName).
  set (w1 := set_fs (insert "input.mp4" videoData) w).
  destruct (ffmpeg_run _ (fs w1)) as [[out|] [err|]]; cbn [exec_output exec_error].
  all: subst w1; unfold ff_readFile, ff_deleteFile; cbn [fs set_fs log_run].
  all: try destruct (<["input.mp4" := videoData]> (fs w) !! outputName) as [old|] eqn:E.
  all: repeat first
    [ progress cbv beta iota
    | progress cbn [fs set_fs log_run]
    | rewrite (lookup_insert_eq _ outputName)
    | rewrite (lookup_insert_eq _ "input.mp4")
    | rewrite (lookup_insert_ne _ outputName "input.mp4") by exact Hne
    | rewrite (lookup_delete_ne _ "input.mp4" outputName) by congruence
    | rewrite E ].
  all: try discriminate.
  all: intros [= _ <-]; cbn [fs set_fs log_run].
  all: try rewrite (lookup_insert_ne _ outputName "input.mp4") by exact Hne.
  all: apply lookup_insert_eq.
Qed.
End ProcessorFacts.

(** ** The outcome of the browser-side [extractClip] *)

Section ExtractFacts.
Variable ffmpeg_load : result unit.
Variable ffmpeg_run : list string → gmap string Bytes → ExecOutcome.
Variable Number_toString : Q → string.

End ExtractFacts.

(** ** Extraction beyond the end of the source *)




(** ** Scratch files of the server-side media steps *)

(** C10 (broken by the code).  The server-side [extractClip] has no
    [finally]: whenever it throws (ffmpeg rejected, or left no output to
    read), the copy of the source video it wrote as [input.mp4] stays in
    ffmpeg's file system, while the browser-side [extractClip] deletes
    its files on every path ([extractClip_cleans_up]). *)
Theorem server_extractClip_failure_leaves_scratch
    (ffmpeg_run : list string → gmap string Bytes → ExecOutcome)
    (Number_toString : Q → string) (videoData : Bytes) (start duration : Q)
    (outputName : string) (w w' : World) (e : string) :
  outputName <> "input.mp4" ->
  Processor.extractClip ffmpeg_run Number_toString videoData start duration outputName w
  = (Throw e, w') ->
  fs w' !! "input.mp4" = Some videoData.
Proof.
  intros Hne H.
  exact (server_extractClip_throw_keeps_input ffmpeg_run Number_toString
           videoData start duration outputName w w' e Hne H).
Qed.

Lemma server_extractClip_failure_leaves_scratch_witness :
  fst (Processor.extractClip run_no_output show_Q [Byte.x00] 100 10 "clip_0.mp4"
         world_loaded) = Throw FS_ERROR /\
  fs (snd (Processor.extractClip run_no_output show_Q [Byte.x00] 100 10 "clip_0.mp4"
             world_loaded)) !! "input.mp4" = Some [Byte.x00].
Proof.
  split; [vm_compute; reflexivity|].
  apply (server_extractClip_failure_leaves_scratch run_no_output show_Q [Byte.x00]
           100 10 "clip_0.mp4" world_loaded _ FS_ERROR).
  - discriminate.
  - vm_compute. reflexivity.
Defined.

(** ** Background music *)





(** ** The history of status writes *)

Lemma appends_frame {A} (m : M A) : store_frame m -> appends m.
Proof.
  intros Hm w. exists []. rewrite (proj2 (Hm w)), app_nil_r. reflexivity.
Qed.

Lemma appends_bind {A B} (m : M A) (f : A → M B) :
  appends m -> (forall a, appends (f a)) -> appends (m ≫= f).
Proof.
  intros Hm Hf w. destruct (Hm w) as [l Hl]. unfold mbind, M_bind.
  destruct (m w) as [[a|e] w1]; simpl in *.
  - destruct (Hf a w1) as [l' Hl']. exists (l ++ l').
    rewrite Hl', Hl, app_assoc. reflexivity.
  - exists l. exact Hl.
Qed.

Lemma appends_try_catch {A} (m : M A) (handler : string → M A) :
  appends m -> (forall e, appends (handler e)) -> appends (try_catch m handler).
Proof.
  intros Hm Hh w. destruct (Hm w) as [l Hl]. unfold try_catch.
  destruct (m w) as [[a|e] w1]; simpl in *.
  - exists l. exact Hl.
  - destruct (Hh e w1) as [l' Hl']. exists (l ++ l').
    rewrite Hl', Hl, app_assoc. reflexivity.
Qed.

Lemma updateJob_run (id : string) (u : JobUpdates) (w : World) (j : ProcessingJob) :
  memoryStore w !! id = Some j ->
  updateJob id u w = (Ok (), record_job id (apply_updates j u) w).
Proof.
  intros Hj. unfold updateJob, getJob. monad_step. rewrite Hj. reflexivity.
Qed.

Lemma appends_updateJob (id : string) (u : JobUpdates) : appends (updateJob id u).
Proof.
  intros w. destruct (memoryStore w !! id) as [j|] eqn:E.
  - rewrite (updateJob_run id u w j E). eexists. reflexivity.
  - rewrite (updateJob_missing id u w E). exists []. simpl.
    rewrite app_nil_r. reflexivity.
Qed.

Lemma appends_updateJobProgress (id : string) (stage : ProcessingStage) (progress : Q)
    (message : string) (currentSegment : option nat) :
  appends (updateJobProgress id stage progress message currentSegment).
Proof. apply appends_updateJob. Qed.

(** A progress update of a stored job, followed by [f]: the new record
    is stored and added to the history, and [f] goes on from there. *)
Lemma update_step {B} (id : string) (stage : ProcessingStage) (progress : Q)
    (message : string) (currentSegment : option nat) (f : unit → M B)
    (w : World) (j : ProcessingJob) :
  memoryStore w !! id = Some j ->
  let j' := apply_updates j (progress_updates stage progress message currentSegment) in
  exists w',
    (updateJobProgress id stage progress message currentSegment ≫= f) w = f () w' /\
    memoryStore w' !! id = Some j' /\
    written w' = written w ++ [j'] /\
    ffmpeg_loaded w' = ffmpeg_loaded w.
Proof.
  intros Hj j'. exists (record_job id j' w).
  split; [|split; [|split]].
  - unfold mbind, M_bind, updateJobProgress. fold (progress_updates stage progress
      message currentSegment).
    rewrite (updateJob_run id _ w j Hj). reflexivity.
  - simpl. apply lookup_insert_eq.
  - reflexivity.
  - reflexivity.
Qed.

#[local] Hint Resolve frame_getFFmpeg frame_downloadFile frame_extractClip
  frame_applyCrop frame_adjustDuration frame_stitchSegments : frame.

Lemma appends_tts_loop (job : ProcessingJob) (segments : list ScriptSegment) (i : nat)
    (ttsResults : list Processor.TTSResult) :
  appends (Processor.tts_loop job segments i ttsResults).
Proof.
  revert i ttsResults. induction segments as [|segment rest IH]; intros i ttsResults; simpl.
  - apply appends_frame. auto with frame.
  - apply appends_bind; [apply appends_updateJobProgress|intros _]. apply IH.
Qed.

(** Solve [appends] goals along the structure of the computation. *)
Ltac appends_chain :=
  repeat first
    [ apply appends_updateJobProgress
    | apply appends_updateJob
    | apply appends_tts_loop
    | assumption
    | solve [apply appends_frame; auto with frame]
    | match goal with
      | |- appends (match ?x with _ => _ end) => destruct x
      end
    | apply appends_bind; [|intros ?] ].

(** Run the progress update at the head of the goal's computation. *)
Ltac step_update Hj w' Hj' Hw' Hl' :=
  match goal with
  | |- context [(updateJobProgress ?id ?st ?p ?msg ?cs ≫= ?f) ?w] =>
      let E := fresh "E" in
      destruct (update_step id st p msg cs f w _ Hj) as (w' & E & Hj' & Hw' & Hl');
      rewrite E; clear E
  end.

Section ProcessorHistory.
Variable ffmpeg_load : result unit.
Variable ffmpeg_run : list string → gmap string Bytes → ExecOutcome.
Variable Number_toString : Q → string.
Variable fetch : string → result (bool * Bytes).
Variable put : string → Bytes → result string.

Lemma appends_segment_loop (job : ProcessingJob) (videoData : Bytes)
    (ttsResults : list Processor.TTSResult) (segments : list ScriptSegment) (i : nat)
    (processedSegments : list Processor.Processed) :
  appends (Processor.segment_loop ffmpeg_run Number_toString job videoData ttsResults
             segments i processedSegments).
Proof.
  revert i processedSegments.
  induction segments as [|segment rest IH]; intros i processedSegments; simpl.
  - appends_chain.
  - appends_chain. apply IH.
Qed.

Lemma getFFmpeg_ok (w : World) :
  ffmpeg_loaded w = true \/ ffmpeg_load = Ok () ->
  exists w', Processor.getFFmpeg ffmpeg_load w = (Ok (), w') /\
             memoryStore w' = memoryStore w /\ written w' = written w.
Proof.
  intros H. unfold Processor.getFFmpeg.
  destruct (ffmpeg_loaded w) eqn:E.
  - exists w. repeat split.
  - destruct H as [H| ->]; [discriminate|].
    exists (set_loaded w). repeat split.
Qed.

(** From the start of the voiceovers on: the first record written has
    the stage [tts]. *)
Lemma after_download_history (job : ProcessingJob) (videoData : Bytes) (w : World)
    (j : ProcessingJob) :
  memoryStore w !! job_id job = Some j ->
  exists j5 l,
    written (snd (Processor.processVideo_after_download ffmpeg_run Number_toString
                    fetch put job videoData w))
    = written w ++ [j5] ++ l /\
    job_stage j5 = stage_tts.
Proof.
  intros Hj. unfold Processor.processVideo_after_download.
  match goal with
  | |- context [(updateJobProgress ?id ?st ?p ?msg ?cs ≫= ?f) w] =>
      destruct (update_step id st p msg cs f w j Hj) as (w5 & E & Hj5 & Hw5 & _);
      assert (Ha : appends (f ()))
  end.
  { appends_chain; apply appends_segment_loop. }
  rewrite E. destruct (Ha w5) as [l Hl].
  eexists. exists l. rewrite Hl, Hw5, <- app_assoc. split; reflexivity.
Qed.

(** Up to the start of the voiceovers the run is fixed: five records
    are written, the last two with the stages [extracting] and [tts]. *)
Lemma processVideo_try_history (job : ProcessingJob) (w : World) (j : ProcessingJob)
    (body : Bytes) :
  memoryStore w !! job_id job = Some j ->
  ffmpeg_loaded w = true \/ ffmpeg_load = Ok () ->
  fetch (job_videoUrl job) = Ok (true, body) ->
  exists j1 j2 j3 j4 j5 l,
    written (snd (Processor.processVideo_try ffmpeg_load ffmpeg_run Number_toString
                    fetch put job w))
    = written w ++ [j1; j2; j3; j4; j5] ++ l /\
    job_stage j4 = stage_extracting /\ job_stage j5 = stage_tts.
Proof.
  intros Hj Hload Hfetch. unfold Processor.processVideo_try.
  step_update Hj w1 Hj1 Hw1 Hl1.
  destruct (getFFmpeg_ok w1) as (w1' & E & Hs & Hh).
  { rewrite Hl1. exact Hload. }
  unfold mbind at 1, M_bind at 1. rewrite E. clear E.
  rewrite <- Hs in Hj1.
  step_update Hj1 w2 Hj2 Hw2 Hl2.
  step_update Hj2 w3 Hj3 Hw3 Hl3.
  unfold mbind at 1, M_bind at 1.
  unfold Processor.downloadFile at 1, lift at 1. unfold mbind at 1, M_bind at 1.
  rewrite Hfetch. cbn [fst snd]. unfold mret at 1, M_ret at 1.
  step_update Hj3 w4 Hj4 Hw4 Hl4.
  destruct (after_download_history job body w4 _ Hj4) as (j5 & l & Hl & Hst).
  do 5 eexists. exists l. rewrite Hl, Hw4, Hw3, Hw2, Hh, Hw1.
  split; [rewrite <- !app_assoc; reflexivity|].
  split; [reflexivity|exact Hst].
Qed.

Lemma processVideo_history (job : ProcessingJob) (w : World) (j : ProcessingJob)
    (body : Bytes) :
  memoryStore w !! job_id job = Some j ->
  ffmpeg_loaded w = true \/ ffmpeg_load = Ok () ->
  fetch (job_videoUrl job) = Ok (true, body) ->
  exists j1 j2 j3 j4 j5 l,
    written (snd (Processor.processVideo ffmpeg_load ffmpeg_run Number_toString
                    fetch put job w))
    = written w ++ [j1; j2; j3; j4; j5] ++ l /\
    job_stage j4 = stage_extracting /\ job_stage j5 = stage_tts.
Proof.
  intros Hj Hload Hfetch.
  destruct (processVideo_try_history job w j body Hj Hload Hfetch)
    as (j1 & j2 & j3 & j4 & j5 & l & Hl & H4 & H5).
  exists j1, j2, j3, j4, j5.
  unfold Processor.processVideo, try_catch.
  destruct (Processor.processVideo_try _ _ _ _ _ job w) as [[[]|e] w']; simpl in Hl.
  - exists l. split; [exact Hl|]. split; assumption.
  - destruct (appends_updateJob (job_id job) (fail_updates e) w') as [l' Hl'].
    exists (l ++ l'). unfold failJob. fold (fail_updates e).
    rewrite Hl', Hl. split; [|split; assumption].
    rewrite <- !app_assoc. reflexivity.
Qed.
End ProcessorHistory.

(** ** The updates of the browser-side orchestrator *)

Lemma ui_frame_ret {A} (a : A) : ui_frame (mret a : M A).
Proof. intros w. reflexivity. Qed.

Lemma ui_frame_throw {A} (e : string) : ui_frame (throw e : M A).
Proof. intros w. reflexivity. Qed.

Lemma ui_frame_bind {A B} (m : M A) (f : A → M B) :
  ui_frame m -> (forall a, ui_frame (f a)) -> ui_frame (m ≫= f).
Proof.
  intros Hm Hf w. specialize (Hm w). unfold mbind, M_bind.
  destruct (m w) as [[a|e] w1]; simpl in *; [|exact Hm].
  rewrite (Hf a w1). exact Hm.
Qed.

Lemma ui_frame_try_finally {A} (body : M A) (cleanup : M unit) :
  ui_frame body -> ui_frame cleanup -> ui_frame (try_finally body cleanup).
Proof.
  intros Hb Hc w. specialize (Hb w). unfold try_finally.
  destruct (body w) as [r w1]. specialize (Hc w1).
  destruct (cleanup w1) as [[[]|e] w2]; simpl in *; congruence.
Qed.

Lemma ui_frame_try_catch {A} (body : M A) (handler : string → M A) :
  ui_frame body -> (forall e, ui_frame (handler e)) -> ui_frame (try_catch body handler).
Proof.
  intros Hb Hh w. specialize (Hb w). unfold try_catch.
  destruct (body w) as [[a|e] w1]; simpl in *; [exact Hb|].
  rewrite (Hh e w1). exact Hb.
Qed.

Lemma ui_frame_writeFile (name : string) (data : Bytes) : ui_frame (ff_writeFile name data).
Proof. intros w. reflexivity. Qed.

Lemma ui_frame_readFile (name : string) : ui_frame (ff_readFile name).
Proof. intros w. unfold ff_readFile. destruct (fs w !! name); reflexivity. Qed.

Lemma ui_frame_deleteFile (name : string) : ui_frame (ff_deleteFile name).
Proof. intros w. unfold ff_deleteFile. destruct (fs w !! name); reflexivity. Qed.

Lemma ui_frame_exec (run : list string → gmap string Bytes → ExecOutcome)
    (args : list string) : ui_frame (ff_exec run args).
Proof.
  intros w. unfold ff_exec.
  destruct (run args (fs w)) as [[out|] [e|]]; simpl; destruct (last args); reflexivity.
Qed.

Lemma ui_frame_getFFmpeg (ffmpeg_load : result unit) : ui_frame (getFFmpeg ffmpeg_load).
Proof.
  intros w. unfold getFFmpeg.
  destruct (ffmpeg_loaded w); [reflexivity|]. destruct ffmpeg_load; reflexivity.
Qed.

Lemma ui_frame_lift {A} (r : result A) : ui_frame (lift r).
Proof. intros w. reflexivity. Qed.

Create HintDb ui_frame.

#[local] Hint Resolve ui_frame_ret ui_frame_throw ui_frame_writeFile ui_frame_readFile
  ui_frame_deleteFile ui_frame_exec ui_frame_getFFmpeg ui_frame_lift : ui_frame.

Ltac ui_frame_chain :=
  repeat first
    [ solve [auto with ui_frame]
    | apply ui_frame_bind; [|intros ?]
    | apply ui_frame_try_finally
    | apply ui_frame_try_catch; [|intros ?] ].

(** The progress of a loop over [n] segments, at its [i]th turn. *)
Lemma segment_progress_next (i n : nat) :
  inject_Z (Z.of_nat i) / inject_Z (Z.of_nat n) * 100
  <= inject_Z (Z.of_nat (S i)) / inject_Z (Z.of_nat n) * 100.
Proof.
  apply Qmult_le_compat_r; [|discriminate].
  unfold Qdiv. apply Qmult_le_compat_r.
  - rewrite <- Zle_Qle. lia.
  - apply Qinv_le_0_compat. replace 0 with (inject_Z 0) by reflexivity.
    rewrite <- Zle_Qle. lia.
Qed.

Lemma segment_progress_bound (i n : nat) :
  (i <= n)%nat -> inject_Z (Z.of_nat i) / inject_Z (Z.of_nat n) * 100 <= 100.
Proof.
  intros Hin. destruct n as [|n].
  - replace i with 0%nat by lia. discriminate.
  - apply Qle_trans with (1 * 100); [|unfold Qle; simpl; lia].
    apply Qmult_le_compat_r; [|discriminate].
    apply Qle_shift_div_r.
    + replace 0 with (inject_Z 0) by reflexivity. rewrite <- Zlt_Qlt. lia.
    + rewrite Qmult_1_l. rewrite <- Zle_Qle. lia.
Qed.

Lemma last_cons (a b : ProcessingState) (l : list ProcessingState) :
  List.last (b :: l) a = List.last l b.
Proof.
  revert a b. induction l as [|c l IH]; intros a b; [reflexivity|].
  change (List.last (c :: l) a = List.last (c :: l) b). rewrite !IH. reflexivity.
Qed.

Lemma chain_app (a : ProcessingState) (l1 l2 : list ProcessingState) :
  chain a l1 -> chain (List.last l1 a) l2 -> chain a (l1 ++ l2).
Proof.
  revert a. induction l1 as [|b l1 IH]; intros a H1 H2; [exact H2|].
  destruct H1 as [Hab H1]. split; [exact Hab|].
  apply IH; [exact H1|]. rewrite <- (last_cons a). exact H2.
Qed.

Lemma last_app_default (a : ProcessingState) (l1 l2 : list ProcessingState) :
  List.last (l1 ++ l2) a = List.last l2 (List.last l1 a).
Proof.
  revert a. induction l1 as [|b l1 IH]; intros a; [reflexivity|].
  change ((b :: l1) ++ l2) with (b :: (l1 ++ l2)).
  rewrite !last_cons. apply IH.
Qed.

Lemma chain_monotone (a : ProcessingState) (l : list ProcessingState) :
  chain a l -> monotone_states (a :: l).
Proof.
  revert a. induction l as [|b l IH]; intros a H i x y Hx Hy.
  - destruct i; discriminate.
  - destruct H as [Hab H]. destruct i as [|i].
    + injection Hx as <-. injection Hy as <-. exact Hab.
    + exact (IH b H i x y Hx Hy).
Qed.

Lemma upto_weaken (s s' : ProcessingStage) (p p' : Q) (st : ProcessingState) :
  (stage_rank s < stage_rank s')%nat \/ (s = s' /\ p <= p') ->
  upto s p st -> upto s' p' st.
Proof.
  intros H [Hr Hp]. destruct H as [H | [<- H]].
  - split; [lia|]. intros E. rewrite E in Hr. lia.
  - split; [exact Hr|]. intros E. apply Qle_trans with p; [exact (Hp E)|exact H].
Qed.

Lemma quiet_frame {A} (m : M A) : ui_frame m -> quiet m.
Proof. intros Hm w. rewrite (Hm w). split; reflexivity. Qed.

Lemma quiet_set_ui {A} (x : A) (f : UIState → UIState) :
  (forall s, shown (f s) = shown s /\ processingState (f s) = processingState s) ->
  quiet (λ w, (Ok x, set_ui f w)).
Proof. intros Hf [fs0 ld st wr rn u0]. exact (Hf u0). Qed.

Lemma quiet_setCaptions (captions : list SegmentCaptions) : quiet (setCaptions captions).
Proof. apply quiet_set_ui. intros s. split; reflexivity. Qed.

Lemma quiet_setOutputVideo (video : Bytes) : quiet (setOutputVideo video).
Proof. apply quiet_set_ui. intros s. split; reflexivity. Qed.

Lemma quiet_set_processingRef (b : bool) : quiet (set_processingRef b).
Proof. apply quiet_set_ui. intros s. split; reflexivity. Qed.

Lemma shows_quiet {A} (P : ProcessingState → Prop) (m : M A) :
  quiet m -> shows P m P.
Proof.
  intros Hm w Hw. destruct (Hm w) as [Hs Hp]. exists []. rewrite Hs, Hp, app_nil_r.
  split; [reflexivity|]. split; [exact I|]. split; [reflexivity|].
  intros _ _. exact Hw.
Qed.

Lemma shows_frame {A} (P : ProcessingState → Prop) (m : M A) :
  ui_frame m -> shows P m P.
Proof. intros Hm. apply shows_quiet, quiet_frame, Hm. Qed.

Lemma shows_consequence {A} (P P' R R' : ProcessingState → Prop) (m : M A) :
  shows P m R -> (forall st, P' st -> P st) -> (forall st, R st -> R' st) ->
  shows P' m R'.
Proof.
  intros Hm HP HR w Hw. destruct (Hm w (HP _ Hw)) as (l & Hl & Hc & Hlast & Hret).
  exists l. split; [exact Hl|]. split; [exact Hc|]. split; [exact Hlast|].
  intros x Hx. apply HR. exact (Hret x Hx).
Qed.

Lemma shows_pre {A} (P P' R : ProcessingState → Prop) (m : M A) :
  shows P m R -> (forall st, P' st -> P st) -> shows P' m R.
Proof. intros Hm HP. apply (shows_consequence P P' R R m Hm HP). auto. Qed.

Lemma shows_frame_weaken {A} (P R : ProcessingState → Prop) (m : M A) :
  ui_frame m -> (forall st, P st -> R st) -> shows P m R.
Proof.
  intros Hm HR. apply (shows_consequence P P P R m); [apply shows_frame; exact Hm|auto|exact HR].
Qed.

Lemma shows_bind {A B} (P R S : ProcessingState → Prop) (m : M A) (f : A → M B) :
  shows P m R -> (forall a, shows R (f a) S) -> shows P (m ≫= f) S.
Proof.
  intros Hm Hf w Hw. destruct (Hm w Hw) as (l1 & Hl1 & Hc1 & Hlast1 & Hret1).
  unfold mbind, M_bind. destruct (m w) as [[a|e] w1]; simpl in *.
  - destruct (Hf a w1 (Hret1 a eq_refl)) as (l2 & Hl2 & Hc2 & Hlast2 & Hret2).
    exists (l1 ++ l2). rewrite Hl2, Hl1, <- app_assoc. split; [reflexivity|].
    split; [apply chain_app; [exact Hc1|rewrite <- Hlast1; exact Hc2]|].
    split; [rewrite Hlast2, Hlast1, last_app_default; reflexivity|exact Hret2].
  - exists l1. split; [exact Hl1|]. split; [exact Hc1|]. split; [exact Hlast1|].
    intros x Hx. discriminate.
Qed.

(** An update that names its stage and its progress. *)
Lemma shows_update (s : ProcessingStage) (p : Q) (u : StateUpdates) :
  su_stage u = Some s -> su_progress u = Some p ->
  shows (upto s p) (updateProgress u) (upto s p).
Proof.
  intros Hs Hp w [Hr Hq]. exists [merge_state (processingState (ui w)) u].
  unfold updateProgress. destruct w as [f ld st wr rn u0].
  cbn [fst snd ui set_ui shown processingState] in *.
  assert (Es : ps_stage (merge_state (processingState u0) u) = s).
  { unfold merge_state. cbn [ps_stage]. rewrite Hs. reflexivity. }
  assert (Ep : ps_progress (merge_state (processingState u0) u) = p).
  { unfold merge_state. cbn [ps_progress]. rewrite Hp. reflexivity. }
  split; [reflexivity|]. split; [|split; [reflexivity|]].
  - split; [|exact I]. right. rewrite Es, Ep. split; [exact Hr|exact Hq].
  - intros _ _. unfold upto. rewrite Es, Ep. split; [lia|]. intros _. apply Qle_refl.
Qed.

(** The update of the [catch] block. *)
Lemma shows_error (message error : string) (P : ProcessingState → Prop) :
  shows P (updateProgress (error_update message error)) (λ _, True).
Proof.
  intros w _. exists [merge_state (processingState (ui w)) (error_update message error)].
  destruct w as [f ld st wr rn u0]. cbn.
  split; [reflexivity|]. split; [|split; [reflexivity|intros _ _; exact I]].
  split; [|exact I]. left. reflexivity.
Qed.

Lemma shows_try_catch (P R : ProcessingState → Prop) (body : M unit)
    (message : string) :
  shows P body R ->
  shows P (try_catch body (λ e, updateProgress (error_update message e))) (λ _, True).
Proof.
  intros Hb w Hw. destruct (Hb w Hw) as (l1 & Hl1 & Hc1 & Hlast1 & _).
  unfold try_catch. destruct (body w) as [[[]|e] w1]; cbn [fst snd] in *.
  - exists l1. split; [exact Hl1|]. split; [exact Hc1|]. split; [exact Hlast1|].
    intros _ _. exact I.
  - destruct (shows_error message e (λ _, True) w1 I) as (l2 & Hl2 & Hc2 & Hlast2 & _).
    exists (l1 ++ l2). rewrite Hl2, Hl1, <- app_assoc. split; [reflexivity|].
    split; [apply chain_app; [exact Hc1|rewrite <- Hlast1; exact Hc2]|].
    split; [rewrite Hlast2, Hlast1, last_app_default; reflexivity|intros _ _; exact I].
Qed.

Lemma shows_try_finally {A} (P R : ProcessingState → Prop) (body : M A)
    (cleanup : M unit) :
  shows P body R -> quiet cleanup -> shows P (try_finally body cleanup) (λ _, True).
Proof.
  intros Hb Hc w Hw. destruct (Hb w Hw) as (l & Hl & Hch & Hlast & _).
  unfold try_finally. destruct (body w) as [r w1]. destruct (Hc w1) as [Hs Hp].
  exists l. destruct (cleanup w1) as [[[]|e] w2]; cbn [fst snd] in *; rewrite Hs, Hp;
    (split; [exact Hl|]; split; [exact Hch|]; split; [exact Hlast|intros _ _; exact I]).
Qed.

Lemma segment_progress_first (n : nat) :
  0 <= inject_Z (Z.of_nat 0) / inject_Z (Z.of_nat n) * 100.
Proof. unfold Qle. simpl. lia. Qed.

(** Run the update at the head of a computation. *)
Ltac show_update :=
  eapply shows_bind;
  [ eapply shows_pre;
    [ apply shows_update; reflexivity
    | intros ?; apply upto_weaken;
      first [ left; simpl; lia
            | right; split; [reflexivity|];
              first [apply Qle_refl | unfold Qle; simpl; lia] ] ]
  | intros _ ].

Section BrowserHistory.
Variable ffmpeg_load : result unit.
Variable ffmpeg_run : list string → gmap string Bytes → ExecOutcome.
Variable Number_toString : Q → string.
Variable Number_toFixed4 : Q → string.
Variable Math_pow : Q → Q → Q.
Variable getVideoDimensions : Bytes → result (Z * Z).
Variable getVideoDuration : Bytes → result Q.
Variable sampledFaceCenters : Bytes → result (list (option Point)).
Variable synthesizeText : jsstring → Voice → result (Bytes * Q).
Variable fetch : string → result (bool * Bytes).

Lemma ui_frame_client_writeFile (name : string) (data : Bytes) :
  ui_frame (writeFile ffmpeg_load name data).
Proof. unfold writeFile. ui_frame_chain. Qed.

Lemma ui_frame_client_readFile (name : string) : ui_frame (readFile ffmpeg_load name).
Proof. unfold readFile. ui_frame_chain. Qed.

Lemma ui_frame_client_deleteFile (name : string) :
  ui_frame (deleteFile ffmpeg_load name).
Proof. unfold deleteFile. ui_frame_chain. Qed.

#[local] Hint Resolve ui_frame_client_writeFile ui_frame_client_readFile
  ui_frame_client_deleteFile : ui_frame.

Lemma ui_frame_extractClip (videoFile : Bytes) (start duration : Q) :
  ui_frame (extractClip ffmpeg_load ffmpeg_run Number_toString videoFile start duration).
Proof. unfold extractClip. ui_frame_chain. Qed.

Lemma ui_frame_cropVideo (videoBlob : Bytes) (cropRegion : CropRegion) :
  ui_frame (cropVideo ffmpeg_load ffmpeg_run videoBlob cropRegion).
Proof. unfold cropVideo. ui_frame_chain. Qed.

Lemma ui_frame_adjustDuration (videoBlob : Bytes) (targetDuration currentDuration : Q) :
  ui_frame (adjustDuration ffmpeg_load ffmpeg_run Number_toFixed4
              videoBlob targetDuration currentDuration).
Proof. unfold adjustDuration. ui_frame_chain. Qed.

Lemma ui_frame_processClip (clip : Bytes) (audioDuration : Q) :
  ui_frame (processClip ffmpeg_load ffmpeg_run Number_toFixed4 Math_pow
              getVideoDimensions getVideoDuration sampledFaceCenters clip audioDuration).
Proof.
  unfold processClip, smartCrop. ui_frame_chain.
Qed.

Lemma ui_frame_deleteFiles (files : list string) :
  ui_frame (deleteFiles ffmpeg_load files).
Proof. induction files as [|f rest IH]; simpl; ui_frame_chain. Qed.

Lemma ui_frame_write_segment_files (segments : list StitchSegment) (i : nat)
    (segmentFiles audioFiles : list string) (w : World) :
  ui (snd (write_segment_files ffmpeg_load segments i segmentFiles audioFiles w)) = ui w.
Proof.
  revert i segmentFiles audioFiles w.
  induction segments as [|seg rest IH]; intros i segmentFiles audioFiles w; simpl;
    [reflexivity|].
  match goal with
  | |- context [(?m ≫= ?f) w] =>
      assert (Hm : ui_frame (m ≫= f)) by ui_frame_chain;
      specialize (Hm w); destruct ((m ≫= f) w) as [[[]|e] w1]
  end; cbn [snd] in *.
  - rewrite IH. exact Hm.
  - exact Hm.
Qed.

Lemma ui_frame_stitchSegments (segments : list StitchSegment)
    (backgroundMusic : option Bytes) (musicVolume : Q) :
  ui_frame (stitchSegments ffmpeg_load ffmpeg_run Number_toString
              segments backgroundMusic musicVolume).
Proof.
  unfold stitchSegments. apply ui_frame_bind; [auto with ui_frame|intros _].
  intros w. unfold stitch_try.
  pose proof (ui_frame_write_segment_files segments 0 [] [] w) as Hw.
  destruct (write_segment_files ffmpeg_load segments 0 [] [] w)
    as [[r [segmentFiles audioFiles]] w1].
  cbn [snd] in Hw. rewrite <- Hw.
  apply ui_frame_try_finally.
  - destruct r as [[]|e]; [|auto with ui_frame].
    unfold stitch_body. destruct backgroundMusic; ui_frame_chain.
  - unfold stitch_cleanup. ui_frame_chain; apply ui_frame_deleteFiles.
Qed.

Lemma shows_synthesize_loop (n : nat) (voice : Voice) (segments : list ScriptSegment)
    (i : nat) (ttsResults : list (Bytes * Q)) :
  (i + length segments = n)%nat ->
  shows (upto stage_tts (inject_Z (Z.of_nat i) / inject_Z (Z.of_nat n) * 100))
    (synthesize_loop synthesizeText n voice segments i ttsResults)
    (upto stage_tts 100).
Proof.
  revert i ttsResults.
  induction segments as [|segment rest IH]; intros i ttsResults Hn; simpl in *.
  - apply shows_frame_weaken; [auto with ui_frame|].
    intros st. apply upto_weaken. right. split; [reflexivity|].
    apply segment_progress_bound. lia.
  - eapply shows_bind; [apply shows_update; reflexivity|intros _].
    eapply shows_bind; [apply shows_frame; auto with ui_frame|intros result].
    eapply shows_pre; [apply (IH (S i)); lia|].
    intros st. apply upto_weaken. right. split; [reflexivity|].
    apply segment_progress_next.
Qed.

Lemma shows_extract_loop (n : nat) (videoFile : Bytes) (segments : list ScriptSegment)
    (i : nat) (extractedClips : list Bytes) :
  (i + length segments = n)%nat ->
  shows (upto stage_extracting (inject_Z (Z.of_nat i) / inject_Z (Z.of_nat n) * 100))
    (extract_loop ffmpeg_load ffmpeg_run Number_toString n videoFile segments i
       extractedClips)
    (upto stage_extracting 100).
Proof.
  revert i extractedClips.
  induction segments as [|segment rest IH]; intros i extractedClips Hn; simpl in *.
  - apply shows_frame_weaken; [auto with ui_frame|].
    intros st. apply upto_weaken. right. split; [reflexivity|].
    apply segment_progress_bound. lia.
  - eapply shows_bind; [apply shows_update; reflexivity|intros _].
    eapply shows_bind; [apply shows_frame; apply ui_frame_extractClip|intros clip].
    eapply shows_pre; [apply (IH (S i)); lia|].
    intros st. apply upto_weaken. right. split; [reflexivity|].
    apply segment_progress_next.
Qed.

Lemma shows_process_loop (n : nat) (ttsResults : list (Bytes * Q))
    (extractedClips : list Bytes) (i : nat) (processedClips : list Bytes) :
  (i + length extractedClips = n)%nat ->
  shows (upto stage_detecting (inject_Z (Z.of_nat i) / inject_Z (Z.of_nat n) * 100))
    (process_loop ffmpeg_load ffmpeg_run Number_toFixed4 Math_pow getVideoDimensions
       getVideoDuration sampledFaceCenters n ttsResults extractedClips i processedClips)
    (upto stage_detecting 100).
Proof.
  revert i processedClips.
  induction extractedClips as [|clip rest IH]; intros i processedClips Hn; simpl in *.
  - apply shows_frame_weaken; [auto with ui_frame|].
    intros st. apply upto_weaken. right. split; [reflexivity|].
    apply segment_progress_bound. lia.
  - destruct (ttsResults !! i) as [ttsResult|].
    + eapply shows_bind; [apply shows_update; reflexivity|intros _].
      eapply shows_bind; [apply shows_frame; apply ui_frame_processClip|intros adjusted].
      eapply shows_pre; [apply (IH (S i)); lia|].
      intros st. apply upto_weaken. right. split; [reflexivity|].
      apply segment_progress_next.
    + apply shows_frame_weaken; [auto with ui_frame|].
      intros st. apply upto_weaken. right. split; [reflexivity|].
      apply segment_progress_bound. lia.
Qed.

(** The [try] block: from a state in the first stage at progress zero,
    every update is a forward step. *)
Lemma shows_processVideo_try (project : Project) (videoFile : Bytes) (voice : Voice) :
  shows (upto stage_loading 0)
    (processVideo_try ffmpeg_load ffmpeg_run Number_toString Number_toFixed4 Math_pow
       getVideoDimensions getVideoDuration sampledFaceCenters synthesizeText fetch
       project videoFile voice)
    (upto stage_complete 100).
Proof.
  unfold processVideo_try.
  show_update.
  eapply shows_bind; [apply shows_frame; auto with ui_frame|intros _].
  show_update. show_update.
  eapply shows_bind.
  { eapply shows_pre; [apply (shows_synthesize_loop _ _ _ 0); reflexivity|].
    intros st. apply upto_weaken. right. split; [reflexivity|].
    apply segment_progress_first. }
  intros ttsResults. show_update.
  eapply shows_bind.
  { destruct (project_includeCaptions project);
      [apply shows_quiet, quiet_setCaptions|apply shows_frame; auto with ui_frame]. }
  intros _. show_update.
  eapply shows_bind.
  { eapply shows_pre; [apply (shows_extract_loop _ _ _ 0); reflexivity|].
    intros st. apply upto_weaken. right. split; [reflexivity|].
    apply segment_progress_first. }
  intros extractedClips. show_update. show_update.
  eapply shows_bind.
  { eapply shows_pre; [apply (shows_process_loop _ _ _ 0); reflexivity|].
    intros st. apply upto_weaken. right. split; [reflexivity|].
    apply segment_progress_first. }
  intros processedClips. show_update. show_update.
  eapply shows_bind; [apply shows_frame; auto with ui_frame|intros stitchSegmentData].
  eapply shows_bind; [apply shows_frame; apply ui_frame_stitchSegments|intros finalVideo].
  eapply shows_bind; [apply shows_quiet, quiet_setOutputVideo|intros _].
  eapply shows_pre; [apply shows_update; reflexivity|].
  intros st. apply upto_weaken. left. simpl. lia.
Qed.

Lemma shows_processVideo (project : Project) :
  shows (upto stage_loading 0)
    (processVideo ffmpeg_load ffmpeg_run Number_toString Number_toFixed4 Math_pow
       getVideoDimensions getVideoDuration sampledFaceCenters synthesizeText fetch
       project)
    (λ _, True).
Proof.
  unfold processVideo.
  destruct (project_videoFile project) as [videoFile|]; [|apply shows_error].
  destruct (project_selectedVoice project) as [voice|]; [|apply shows_error].
  destruct (project_segments project) as [|segment rest] eqn:Hsegs; [apply shows_error|].
  intros w Hw. destruct (processingRef (ui w)).
  - exists []. rewrite app_nil_r. cbn [fst snd].
    split; [reflexivity|]. split; [exact I|]. split; [reflexivity|intros _ _; exact I].
  - revert w Hw.
    change (shows (upto stage_loading 0)
              (set_processingRef true;;
               try_finally
                 (try_catch
                    (processVideo_try ffmpeg_load ffmpeg_run Number_toString
                       Number_toFixed4 Math_pow getVideoDimensions getVideoDuration
                       sampledFaceCenters synthesizeText fetch project videoFile voice)
                    (λ message, updateProgress (error_update "Processing failed" message)))
                 (set_processingRef false))
              (λ _, True)).
    eapply shows_bind; [apply shows_quiet, quiet_set_processingRef|intros _].
    eapply shows_try_finally; [|apply quiet_set_processingRef].
    eapply shows_try_catch. apply shows_processVideo_try.
Qed.

(** X26.  Sibling of the server-side orchestrator: started as the
    component starts it, in the stage [loading] at progress zero, the
    browser-side [processVideo] shows only forward updates, whatever the
    project is and whatever the engines do (succeed or throw): every
    state it shows has a later stage than the one before, or the same
    stage and a progress that is not lower, or is the error state. *)
Theorem browser_updates_are_monotone (project : Project) (w : World) :
  ps_stage (processingState (ui w)) = stage_loading ->
  ps_progress (processingState (ui w)) <= 0 ->
  exists l,
    shown (ui (snd (processVideo ffmpeg_load ffmpeg_run Number_toString Number_toFixed4
                      Math_pow getVideoDimensions getVideoDuration sampledFaceCenters
                      synthesizeText fetch project w)))
    = shown (ui w) ++ l /\
    monotone_states (processingState (ui w) :: l).
Proof.
  intros Hs Hp.
  destruct (shows_processVideo project w) as (l & Hl & Hc & _).
  { split; [rewrite Hs; reflexivity|]. intros _. exact Hp. }
  exists l. split; [exact Hl|]. apply chain_monotone. exact Hc.
Qed.
End BrowserHistory.

Lemma browser_updates_are_monotone_witness :
  exists l,
    shown (ui (snd (processVideo (Ok ()) run_ok show_Q show_Q pow_sample
                      (λ _, Ok (720, 1600)%Z) (λ _, Ok 10) (λ _, Ok [None; None; None])
                      (λ _ _, Ok ([Byte.x00], 2)) (λ _, Throw "offline")
                      sample_project world_loaded)))
    = shown (ui world_loaded) ++ l /\
    monotone_states (processingState (ui world_loaded) :: l).
Proof.
  apply (browser_updates_are_monotone (Ok ()) run_ok show_Q show_Q pow_sample
           (λ _, Ok (720, 1600)%Z) (λ _, Ok 10) (λ _, Ok [None; None; None])
           (λ _ _, Ok ([Byte.x00], 2)) (λ _, Throw "offline")
           sample_project world_loaded).
  - reflexivity.
  - cbn. lra.
Defined.

(** C2 (broken by the code).  In every run of the server-side
    [processVideo] on a stored job in which ffmpeg loads and the source
    video downloads, the status writes are not monotone: the download is
    reported under the stage [extracting], and the next write has the
    stage [tts], which the order queued, loading, tts, extracting,
    detecting, cropping, stitching, complete puts before it. *)
Theorem server_stage_moves_backward
    (ffmpeg_load : result unit)
    (ffmpeg_run : list string → gmap string Bytes → ExecOutcome)
    (Number_toString : Q → string)
    (fetch : string → result (bool * Bytes))
    (put : string → Bytes → result string)
    (job : ProcessingJob) (w : World) (j : ProcessingJob) (body : Bytes) :
  memoryStore w !! job_id job = Some j ->
  ffmpeg_loaded w = true \/ ffmpeg_load = Ok () ->
  fetch (job_videoUrl job) = Ok (true, body) ->
  ~ monotone_updates
      (written (snd (Processor.processVideo ffmpeg_load ffmpeg_run Number_toString
                       fetch put job w))).
Proof.
  intros Hj Hload Hfetch Hmono.
  destruct (processVideo_history ffmpeg_load ffmpeg_run Number_toString fetch put
              job w j body Hj Hload Hfetch)
    as (j1 & j2 & j3 & j4 & j5 & l & Hl & H4 & H5).
  rewrite Hl in Hmono. set (n := length (written w)) in *.
  assert (Ha : (written w ++ [j1; j2; j3; j4; j5] ++ l) !! (n + 3)%nat = Some j4).
  { rewrite lookup_app_r by (unfold n; lia).
    replace (n + 3 - length (written w))%nat with 3%nat by (unfold n; lia).
    reflexivity. }
  assert (Hb : (written w ++ [j1; j2; j3; j4; j5] ++ l) !! S (n + 3) = Some j5).
  { rewrite lookup_app_r by (unfold n; lia).
    replace (S (n + 3) - length (written w))%nat with 4%nat by (unfold n; lia).
    reflexivity. }
  destruct (Hmono (n + 3)%nat j4 j5 Ha Hb) as [He | [Hr _]].
  - rewrite H5 in He. discriminate.
  - rewrite H4, H5 in Hr. simpl in Hr. lia.
Qed.

Lemma server_stage_moves_backward_witness :
  ~ monotone_updates (written (snd one_segment_run)).
Proof.
  apply (server_stage_moves_backward (Ok ()) run_ok show_Q fetch_ok put_ok
           one_segment_job (world_with_job one_segment_job) one_segment_job
           [Byte.x00]).
  - reflexivity.
  - right. reflexivity.
  - reflexivity.
Defined.

(** * The surrounding code *)

(** ** The job store *)

(** X1.  [updateJob] on an identifier that is not in the store throws
    "Job not found: <id>" and writes nothing: the store and the history of
    writes are as before.  The same holds for [updateJobProgress],
    [completeJob] and [failJob], which go through [updateJob]. *)
Theorem updateJob_missing_job (id : string) (w : World) :
  memoryStore w !! id = None ->
  (forall u, updateJob id u w = (Throw ("Job not found: " +:+ id), w)) /\
  (forall stage progress message currentSegment,
     updateJobProgress id stage progress message currentSegment w
     = (Throw ("Job not found: " +:+ id), w)) /\
  (forall outputUrl captions,
     completeJob id outputUrl captions w = (Throw ("Job not found: " +:+ id), w)) /\
  (forall error, failJob id error w = (Throw ("Job not found: " +:+ id), w)).
Proof.
  intros Hj. split; [|split; [|split]]; intros; apply updateJob_missing; exact Hj.
Qed.

Lemma updateJob_missing_job_witness :
  failJob "job-2" "boom" (world_with_job one_segment_job)
  = (Throw "Job not found: job-2", world_with_job one_segment_job).
Proof.
  destruct (updateJob_missing_job "job-2" (world_with_job one_segment_job))
    as (_ & _ & _ & H).
  - vm_compute. reflexivity.
  - exact (H "boom").
Defined.

Lemma apply_updates_same_request (j : ProcessingJob) (u : JobUpdates) :
  same_request j (apply_updates j u).
Proof. repeat split. Qed.

Lemma same_request_trans (a b c : ProcessingJob) :
  same_request a b -> same_request b c -> same_request a c.
Proof.
  unfold same_request. intros H1 H2.
  destruct H1 as (?&?&?&?&?&?&?&?), H2 as (?&?&?&?&?&?&?&?).
  repeat split; congruence.
Qed.

(** X2.  [updateJob] on a stored job returns, replaces that one record
    and appends it to the history; the new record keeps the request data
    of the old one (identifier, source, segments, voice, music, caption
    flag, segment count), and every other job is left as it was. *)
Theorem updateJob_stored_job (id : string) (u : JobUpdates) (w : World)
    (j : ProcessingJob) :
  memoryStore w !! id = Some j ->
  exists j',
    fst (updateJob id u w) = Ok () /\
    memoryStore (snd (updateJob id u w)) !! id = Some j' /\
    same_request j j' /\
    written (snd (updateJob id u w)) = written w ++ [j'] /\
    forall id', id' <> id ->
      memoryStore (snd (updateJob id u w)) !! id' = memoryStore w !! id'.
Proof.
  intros Hj. exists (apply_updates j u).
  destruct (updateJob_stored id u w j Hj) as [Hr Hs].
  split; [exact Hr|]. rewrite Hs.
  split; [apply lookup_insert_eq|].
  split; [apply apply_updates_same_request|].
  split.
  - unfold updateJob, getJob. monad_step. rewrite Hj. reflexivity.
  - intros id' Hne. apply lookup_insert_ne. congruence.
Qed.

Lemma updateJob_stored_job_witness :
  exists j',
    memoryStore (snd (failJob "job-1" "boom" (world_with_job one_segment_job)))
    !! "job-1" = Some j' /\
    job_videoUrl j' = "https://example.com/source.mp4".
Proof.
  destruct (updateJob_stored_job "job-1" (fail_updates "boom")
              (world_with_job one_segment_job) one_segment_job)
    as (j' & _ & Hs & Hreq & _).
  - vm_compute. reflexivity.
  - exists j'. split; [exact Hs|].
    destruct Hreq as (_ & _ & Hurl & _). symmetry. exact Hurl.
Defined.

(** X3.  Whatever the stored record was, the three helpers leave one
    whose [status] agrees with its [stage]: [complete] with [complete],
    [error] with [error], and [processing] with every other stage that
    [updateJobProgress] is given. *)
Theorem status_follows_stage (id : string) (w : World) (j : ProcessingJob) :
  memoryStore w !! id = Some j ->
  (forall stage progress message currentSegment,
     job_is id (λ j', status_matches_stage j' /\ job_stage j' = stage)
       (snd (updateJobProgress id stage progress message currentSegment w))) /\
  (forall outputUrl captions,
     job_is id finished (snd (completeJob id outputUrl captions w))) /\
  (forall error, job_is id finished (snd (failJob id error w))).
Proof.
  intros Hj. split; [|split].
  - intros stage progress message currentSegment. unfold updateJobProgress.
    match goal with
    | |- job_is _ _ (snd (updateJob _ ?u _)) =>
        destruct (updateJob_stored id u w j Hj) as [_ Hs];
        exists (apply_updates j u)
    end.
    rewrite Hs. split; [apply lookup_insert_eq|].
    split; [|reflexivity]. unfold status_matches_stage.
    destruct stage; cbn; repeat split; intros; congruence.
  - intros outputUrl captions. unfold completeJob.
    match goal with
    | |- job_is _ _ (snd (updateJob _ ?u _)) =>
        destruct (updateJob_stored id u w j Hj) as [_ Hs];
        exists (apply_updates j u)
    end.
    rewrite Hs. split; [apply lookup_insert_eq|].
    left. cbn. repeat split. eexists. reflexivity.
  - intros error. unfold failJob.
    match goal with
    | |- job_is _ _ (snd (updateJob _ ?u _)) =>
        destruct (updateJob_stored id u w j Hj) as [_ Hs];
        exists (apply_updates j u)
    end.
    rewrite Hs. split; [apply lookup_insert_eq|].
    right. cbn. repeat split. eexists. reflexivity.
Qed.

Lemma status_follows_stage_witness :
  job_is "job-1" finished
    (snd (completeJob "job-1" "https://blob.example.com/final.mp4" None
            (world_with_job one_segment_job))).
Proof.
  destruct (status_follows_stage "job-1" (world_with_job one_segment_job)
              one_segment_job) as (_ & H & _).
  - vm_compute. reflexivity.
  - exact (H "https://blob.example.com/final.mp4" None).
Defined.

(** ** The end of a server-side run *)

Lemma failJob_stored (id : string) (w : World) (j : ProcessingJob)
    (error : string) :
  memoryStore w !! id = Some j ->
  fst (failJob id error w) = Ok () /\ job_is id finished (snd (failJob id error w)).
Proof.
  intros Hj. unfold failJob.
  match goal with
  | |- fst (updateJob _ ?u _) = _ /\ _ =>
      destruct (updateJob_stored id u w j Hj) as [Hr Hs];
      split; [exact Hr|exists (apply_updates j u)]
  end.
  rewrite Hs. split; [apply lookup_insert_eq|].
  right. cbn. repeat split. eexists. reflexivity.
Qed.

Lemma ensures_bind {A B} (m : M A) (f : A → M B) (P : World → Prop) :
  (forall a, ensures (f a) P) -> ensures (m ≫= f) P.
Proof.
  intros Hf w b w'. unfold mbind, M_bind.
  destruct (m w) as [[a|e] w1]; [|discriminate]. apply Hf.
Qed.

Section ProcessorInvariant.
Variable ffmpeg_load : result unit.
Variable ffmpeg_run : list string → gmap string Bytes → ExecOutcome.
Variable Number_toString : Q → string.
Variable fetch : string → result (bool * Bytes).
Variable put : string → Bytes → result string.
(** A property of job records that no update breaks. *)
Variable R : ProcessingJob → Prop.
Hypothesis R_updates : forall j u, R j -> R (apply_updates j u).

Lemma updateJob_invariant (id id' : string) (u : JobUpdates) :
  preserves (job_is id' R) (updateJob id u).
Proof.
  intros w (j' & Hj' & HR). unfold job_is.
  destruct (memoryStore w !! id) as [j|] eqn:E.
  - destruct (updateJob_stored id u w j E) as [_ ->].
    destruct (decide (id = id')) as [->|Hne].
    + exists (apply_updates j u). rewrite lookup_insert_eq. split; [reflexivity|].
      apply R_updates. congruence.
    + exists j'. rewrite lookup_insert_ne by exact Hne. split; [exact Hj'|exact HR].
  - rewrite (updateJob_missing id u w E). exists j'. split; [exact Hj'|exact HR].
Qed.

Ltac invariant_chain :=
  repeat first
    [ apply updateJob_invariant
    | apply frame_preserves_job;
      first [ solve [auto with frame]
            | apply frame_getFFmpeg | apply frame_downloadFile | apply frame_extractClip
            | apply frame_applyCrop | apply frame_adjustDuration
            | apply frame_stitchSegments ]
    | apply preserves_bind; [|intros ?] ].

Lemma tts_loop_invariant (job : ProcessingJob) (id : string)
    (segments : list ScriptSegment) (i : nat) (ttsResults : list Processor.TTSResult) :
  preserves (job_is id R) (Processor.tts_loop job segments i ttsResults).
Proof.
  revert i ttsResults. induction segments as [|segment rest IH]; intros i ttsResults; simpl.
  - apply frame_preserves_job. auto with frame.
  - apply preserves_bind; [apply updateJob_invariant|intros _]. apply IH.
Qed.

Lemma segment_loop_invariant (job : ProcessingJob) (id : string) (videoData : Bytes)
    (ttsResults : list Processor.TTSResult) (segments : list ScriptSegment) (i : nat)
    (processedSegments : list Processor.Processed) :
  preserves (job_is id R)
    (Processor.segment_loop ffmpeg_run Number_toString job videoData ttsResults
       segments i processedSegments).
Proof.
  revert i processedSegments.
  induction segments as [|segment rest IH]; intros i processedSegments; simpl.
  - apply frame_preserves_job. auto with frame.
  - destruct (ttsResults !! i) as [ttsResult|];
      [|apply frame_preserves_job; auto with frame].
    apply preserves_bind; [apply updateJob_invariant|intros _].
    apply preserves_bind; [apply frame_preserves_job, frame_extractClip|intros clipData].
    apply preserves_bind; [apply updateJob_invariant|intros _].
    apply preserves_bind; [apply frame_preserves_job, frame_applyCrop|intros croppedData].
    apply preserves_bind; [apply updateJob_invariant|intros _].
    apply preserves_bind;
      [apply frame_preserves_job, frame_adjustDuration|intros adjustedData].
    apply IH.
Qed.

Lemma processVideo_try_invariant (job : ProcessingJob) (id : string) :
  preserves (job_is id R)
    (Processor.processVideo_try ffmpeg_load ffmpeg_run Number_toString fetch put job).
Proof.
  unfold Processor.processVideo_try, Processor.processVideo_after_download.
  apply preserves_bind; [apply updateJob_invariant|intros _].
  apply preserves_bind; [apply frame_preserves_job, frame_getFFmpeg|intros _].
  apply preserves_bind; [apply updateJob_invariant|intros _].
  apply preserves_bind; [apply updateJob_invariant|intros _].
  apply preserves_bind; [apply frame_preserves_job, frame_downloadFile|intros videoData].
  apply preserves_bind; [apply updateJob_invariant|intros _].
  apply preserves_bind; [apply updateJob_invariant|intros _].
  apply preserves_bind; [apply tts_loop_invariant|intros ttsResults].
  apply preserves_bind; [apply updateJob_invariant|intros _].
  apply preserves_bind; [apply segment_loop_invariant|intros processedSegments].
  apply preserves_bind.
  { destruct (job_musicUrl job) as [[|c rest]|];
      try solve [apply frame_preserves_job; auto with frame].
    apply preserves_bind; [apply updateJob_invariant|intros _].
    apply preserves_bind; [apply frame_preserves_job, frame_downloadFile|intros music].
    apply frame_preserves_job. auto with frame. }
  intros musicData.
  apply preserves_bind; [apply updateJob_invariant|intros _].
  apply preserves_bind; [apply frame_preserves_job, frame_stitchSegments|intros finalVideo].
  apply preserves_bind; [apply updateJob_invariant|intros _].
  apply preserves_bind; [apply frame_preserves_job; auto with frame|intros uploaded].
  apply updateJob_invariant.
Qed.

Lemma processVideo_invariant (job : ProcessingJob) (id : string) :
  preserves (job_is id R)
    (Processor.processVideo ffmpeg_load ffmpeg_run Number_toString fetch put job).
Proof.
  intros w Hw. unfold Processor.processVideo, try_catch.
  pose proof (processVideo_try_invariant job id w Hw) as H.
  destruct (Processor.processVideo_try _ _ _ _ _ job w) as [[[]|e] w1]; [exact H|].
  apply updateJob_invariant. exact H.
Qed.
End ProcessorInvariant.

Section ProcessorEnd.
Variable ffmpeg_load : result unit.
Variable ffmpeg_run : list string → gmap string Bytes → ExecOutcome.
Variable Number_toString : Q → string.
Variable fetch : string → result (bool * Bytes).
Variable put : string → Bytes → result string.

(** When the [try] block returns, its last step was [completeJob]. *)
Lemma processVideo_try_completes (job : ProcessingJob) :
  ensures (Processor.processVideo_try ffmpeg_load ffmpeg_run Number_toString fetch put job)
    (job_is (job_id job) finished).
Proof.
  unfold Processor.processVideo_try, Processor.processVideo_after_download.
  do 15 (apply ensures_bind; intros ?).
  intros w [] w' H. unfold completeJob in H.
  destruct (memoryStore w !! job_id job) as [j|] eqn:E.
  - match type of H with
    | updateJob _ ?u _ = _ =>
        destruct (updateJob_stored (job_id job) u w j E) as [_ Hs];
        exists (apply_updates j u)
    end.
    rewrite H in Hs. cbn [snd] in Hs. rewrite Hs.
    split; [apply lookup_insert_eq|]. left. cbn. repeat split. eexists. reflexivity.
  - rewrite updateJob_missing in H by exact E. discriminate.
Qed.

(** A run on a stored job: [processVideo] returns, and the job is left
    finished, with the request data it had. *)
Lemma processVideo_finishes (job : ProcessingJob) (w : World) (j : ProcessingJob) :
  memoryStore w !! job_id job = Some j ->
  exists w' j',
    Processor.processVideo ffmpeg_load ffmpeg_run Number_toString fetch put job w
    = (Ok (), w') /\
    memoryStore w' !! job_id job = Some j' /\ finished j' /\ same_request j j'.
Proof.
  intros Hj.
  assert (Hreq : job_is (job_id job) (same_request j)
                   (snd (Processor.processVideo ffmpeg_load ffmpeg_run Number_toString
                           fetch put job w))).
  { apply (processVideo_invariant ffmpeg_load ffmpeg_run Number_toString fetch put
             (same_request j)).
    - intros j0 u H0. apply (same_request_trans j j0); [exact H0|].
      apply apply_updates_same_request.
    - exists j. split; [exact Hj|]. repeat split. }
  assert (Hfin : fst (Processor.processVideo ffmpeg_load ffmpeg_run Number_toString
                        fetch put job w) = Ok () /\
                 job_is (job_id job) finished
                   (snd (Processor.processVideo ffmpeg_load ffmpeg_run Number_toString
                           fetch put job w))).
  { unfold Processor.processVideo, try_catch.
    destruct (Processor.processVideo_try ffmpeg_load ffmpeg_run Number_toString fetch put
                job w) as [[[]|e] w1] eqn:Htry.
    - split; [reflexivity|]. exact (processVideo_try_completes job w () w1 Htry).
    - pose proof (processVideo_try_keeps ffmpeg_load ffmpeg_run Number_toString fetch put
                    job (job_id job) w) as Hk.
      rewrite Htry in Hk. destruct Hk as (j1 & Hj1 & _).
      { exists j. split; [exact Hj|exact I]. }
      cbn [snd] in Hj1.
      destruct (failJob_stored (job_id job) w1 j1 e Hj1) as [Hr Hs].
      split; [exact Hr|exact Hs]. }
  destruct (Processor.processVideo ffmpeg_load ffmpeg_run Number_toString fetch put job w)
    as [r w'].
  cbn [fst snd] in *. destruct Hfin as [-> (j' & Hj' & Hf)].
  destruct Hreq as (j'' & Hj'' & Hs).
  exists w', j'. split; [reflexivity|]. split; [exact Hj'|]. split; [exact Hf|].
  congruence.
Qed.
End ProcessorEnd.

(** X4.  Every server-side run on a stored job ends: [processVideo]
    itself never throws, and it leaves the job either [complete] (stage
    [complete], progress 100, an output URL) or in [error] (stage [error],
    an error text), with the request data the job had at the start. *)
Theorem server_run_ends_finished
    (ffmpeg_load : result unit)
    (ffmpeg_run : list string → gmap string Bytes → ExecOutcome)
    (Number_toString : Q → string)
    (fetch : string → result (bool * Bytes))
    (put : string → Bytes → result string)
    (job : ProcessingJob) (w : World) (j : ProcessingJob) :
  memoryStore w !! job_id job = Some j ->
  exists w' j',
    Processor.processVideo ffmpeg_load ffmpeg_run Number_toString fetch put job w
    = (Ok (), w') /\
    memoryStore w' !! job_id job = Some j' /\ finished j' /\ same_request j j'.
Proof.
  intros Hj.
  exact (processVideo_finishes ffmpeg_load ffmpeg_run Number_toString fetch put
           job w j Hj).
Qed.

Lemma server_run_ends_finished_witness :
  exists j', memoryStore (snd failing_extraction_run) !! "job-1" = Some j' /\
             finished j'.
Proof.
  destruct (server_run_ends_finished (Ok ()) run_no_output show_Q fetch_ok put_ok
              late_segment_job (world_with_job late_segment_job) late_segment_job)
    as (w' & j' & Hrun & Hj' & Hf & _).
  - vm_compute. reflexivity.
  - exists j'. unfold failing_extraction_run. rewrite Hrun. split; [exact Hj'|exact Hf].
Defined.

(** ** The API routes *)

Section RouteFacts.
Variable ffmpeg_load : result unit.
Variable ffmpeg_run : list string → gmap string Bytes → ExecOutcome.
Variable Number_toString : Q → string.
Variable fetch : string → result (bool * Bytes).
Variable put : string → Bytes → result string.
Variable uuidv4 : string.




End RouteFacts.




(** ** Scratch files of the browser-side library *)

Lemma touches_only_mono {A} (names names' : list string) (m : M A) :
  names ⊆ names' -> touches_only names m -> touches_only names' m.
Proof.
  intros Hsub Hm w Hl. destruct (Hm w Hl) as [Hl' Hfs]. split; [exact Hl'|].
  intros name Hn. apply Hfs. intros Hin. apply Hn, Hsub, Hin.
Qed.

Lemma touches_only_ret {A} (a : A) : touches_only [] (mret a : M A).
Proof. intros w Hl. split; [exact Hl|reflexivity]. Qed.

Lemma touches_only_throw {A} (e : string) : touches_only [] (throw e : M A).
Proof. intros w Hl. split; [exact Hl|reflexivity]. Qed.

Lemma touches_only_lift {A} (r : result A) : touches_only [] (lift r).
Proof. intros w Hl. split; [exact Hl|reflexivity]. Qed.

Lemma touches_only_bind {A B} (names : list string) (m : M A) (f : A → M B) :
  touches_only names m -> (forall a, touches_only names (f a)) ->
  touches_only names (m ≫= f).
Proof.
  intros Hm Hf w Hl. destruct (Hm w Hl) as [Hl1 Hfs1]. unfold mbind, M_bind.
  destruct (m w) as [[a|e] w1]; cbn [snd] in *; [|split; assumption].
  destruct (Hf a w1 Hl1) as [Hl2 Hfs2]. split; [exact Hl2|].
  intros name Hn. rewrite (Hfs2 name Hn). apply Hfs1, Hn.
Qed.

Lemma touches_only_try_finally {A} (names : list string) (body : M A)
    (cleanup : M unit) :
  touches_only names body -> touches_only names cleanup ->
  touches_only names (try_finally body cleanup).
Proof.
  intros Hb Hc w Hl. destruct (Hb w Hl) as [Hl1 Hfs1]. unfold try_finally.
  destruct (body w) as [r w1]. cbn [snd] in *.
  destruct (Hc w1 Hl1) as [Hl2 Hfs2].
  destruct (cleanup w1) as [[[]|e] w2]; cbn [snd] in *; (split; [exact Hl2|]);
    intros name Hn; rewrite (Hfs2 name Hn); apply Hfs1, Hn.
Qed.

Lemma touches_only_try_catch {A} (names : list string) (body : M A)
    (handler : string → M A) :
  touches_only names body -> (forall e, touches_only names (handler e)) ->
  touches_only names (try_catch body handler).
Proof.
  intros Hb Hh w Hl. destruct (Hb w Hl) as [Hl1 Hfs1]. unfold try_catch.
  destruct (body w) as [[a|e] w1]; cbn [snd] in *; [split; assumption|].
  destruct (Hh e w1 Hl1) as [Hl2 Hfs2]. split; [exact Hl2|].
  intros name Hn. rewrite (Hfs2 name Hn). apply Hfs1, Hn.
Qed.

Lemma touches_only_exec (run : list string → gmap string Bytes → ExecOutcome)
    (args : list string) (outputName : string) :
  last args = Some outputName -> touches_only [outputName] (ff_exec run args).
Proof.
  intros Hlast w Hl. unfold ff_exec. rewrite Hlast.
  destruct (run args (fs w)) as [[out|] [e|]]; cbn; (split; [exact Hl|]);
    intros name Hn; try reflexivity;
    apply lookup_insert_ne; intros ->; apply Hn, list_elem_of_singleton; reflexivity.
Qed.


Lemma deletes_bind (names1 names2 : list string) (m1 m2 : M unit) :
  deletes names1 m1 -> deletes names2 m2 -> deletes (names1 ++ names2) (m1;; m2).
Proof.
  intros H1 H2 w Hl. destruct (H1 w Hl) as (Hr1 & Hl1 & Hfs1). unfold mbind, M_bind.
  destruct (m1 w) as [r1 w1]. cbn [fst snd] in *. subst r1.
  destruct (H2 w1 Hl1) as (Hr2 & Hl2 & Hfs2).
  split; [exact Hr2|]. split; [exact Hl2|].
  intros n. rewrite Hfs2, Hfs1.
  destruct (bool_decide (n ∈ names2)) eqn:E2.
  - apply bool_decide_eq_true in E2.
    rewrite bool_decide_eq_true_2 by (apply elem_of_app; right; exact E2).
    reflexivity.
  - apply bool_decide_eq_false in E2.
    destruct (bool_decide (n ∈ names1)) eqn:E1.
    + apply bool_decide_eq_true in E1.
      rewrite bool_decide_eq_true_2 by (apply elem_of_app; left; exact E1).
      reflexivity.
    + apply bool_decide_eq_false in E1.
      rewrite bool_decide_eq_false_2 by (rewrite elem_of_app; tauto).
      reflexivity.
Qed.

Lemma deletes_touches_only (names : list string) (m : M unit) :
  deletes names m -> touches_only names m.
Proof.
  intros Hm w Hl. destruct (Hm w Hl) as (_ & Hl' & Hfs). split; [exact Hl'|].
  intros n Hn. rewrite Hfs, bool_decide_eq_false_2 by exact Hn. reflexivity.
Qed.

(** A [try] block that writes only files that its [finally] block
    deletes: on every path those files are gone afterwards, the others
    are as before, and the outcome is the one of the [try] block. *)
Lemma try_finally_cleans_up {A} (names : list string) (body : M A) (cleanup : M unit)
    (w : World) :
  touches_only names body -> deletes names cleanup ->
  ffmpeg_loaded w = true ->
  fst (try_finally body cleanup w) = fst (body w) /\
  ffmpeg_loaded (snd (try_finally body cleanup w)) = true /\
  without names (fs w) (fs (snd (try_finally body cleanup w))).
Proof.
  intros Hb Hc Hl. destruct (Hb w Hl) as [Hl1 Hfs1]. unfold try_finally.
  destruct (body w) as [r w1]. cbn [fst snd] in *.
  destruct (Hc w1 Hl1) as (Hr & Hl2 & Hfs2).
  destruct (cleanup w1) as [[[]|e] w2]; cbn [fst snd] in *; [|discriminate].
  split; [reflexivity|]. split; [exact Hl2|].
  intros n. rewrite Hfs2. destruct (bool_decide (n ∈ names)) eqn:E; [reflexivity|].
  apply bool_decide_eq_false in E. apply Hfs1, E.
Qed.

(** The general form of [try_finally_cleans_up]: the [finally] block may
    delete fewer files than the [try] block writes. *)
Lemma try_finally_deletes {A} (names dnames : list string) (body : M A)
    (cleanup : M unit) (w : World) :
  touches_only names body -> deletes dnames cleanup ->
  ffmpeg_loaded w = true ->
  fst (try_finally body cleanup w) = fst (body w) /\
  ffmpeg_loaded (snd (try_finally body cleanup w)) = true /\
  (forall name, name ∈ dnames -> fs (snd (try_finally body cleanup w)) !! name = None) /\
  (forall name, name ∉ dnames ->
     fs (snd (try_finally body cleanup w)) !! name = fs (snd (body w)) !! name).
Proof.
  intros Hb Hc Hl. destruct (Hb w Hl) as [Hl1 Hfs1]. unfold try_finally.
  destruct (body w) as [r w1]. cbn [fst snd] in *.
  destruct (Hc w1 Hl1) as (Hr & Hl2 & Hfs2).
  destruct (cleanup w1) as [[[]|e] w2]; cbn [fst snd] in *; [|discriminate].
  split; [reflexivity|]. split; [exact Hl2|]. split.
  - intros n Hn. rewrite Hfs2, bool_decide_eq_true_2 by exact Hn. reflexivity.
  - intros n Hn. rewrite Hfs2, bool_decide_eq_false_2 by exact Hn. reflexivity.
Qed.

Section LibraryFacts.
Variable ffmpeg_load : result unit.
Variable ffmpeg_run : list string → gmap string Bytes → ExecOutcome.
Variable Number_toString : Q → string.
Variable Number_toFixed4 : Q → string.
Variable getVideoDuration : Bytes → result Q.

Lemma touches_only_getFFmpeg : touches_only [] (getFFmpeg ffmpeg_load).
Proof.
  intros w Hl. rewrite (getFFmpeg_loaded ffmpeg_load w Hl). split; [exact Hl|reflexivity].
Qed.

Lemma touches_only_writeFile (name : string) (data : Bytes) :
  touches_only [name] (writeFile ffmpeg_load name data).
Proof.
  intros w Hl. rewrite (writeFile_loaded ffmpeg_load name data w Hl).
  split; [exact Hl|]. intros n Hn. cbn.
  apply lookup_insert_ne. intros ->. apply Hn, list_elem_of_singleton. reflexivity.
Qed.

Lemma touches_only_readFile (name : string) :
  touches_only [] (readFile ffmpeg_load name).
Proof.
  intros w Hl. rewrite (readFile_loaded ffmpeg_load name w Hl). unfold ff_readFile.
  destruct (fs w !! name); (split; [exact Hl|reflexivity]).
Qed.

Lemma deletes_deleteFile (name : string) : deletes [name] (deleteFile ffmpeg_load name).
Proof.
  intros w Hl. rewrite (deleteFile_loaded ffmpeg_load name w Hl). cbn [fst snd].
  split; [reflexivity|]. split; [exact Hl|].
  intros n. cbn [fs set_fs]. destruct (decide (n = name)) as [->|Hne].
  - rewrite bool_decide_eq_true_2 by (apply list_elem_of_singleton; reflexivity).
    apply lookup_delete_eq.
  - rewrite bool_decide_eq_false_2 by (rewrite list_elem_of_singleton; exact Hne).
    apply lookup_delete_ne. congruence.
Qed.


End LibraryFacts.

Lemma append_inj_r (s1 s2 t : string) : s1 +:+ t = s2 +:+ t -> s1 = s2.
Proof.
  intros H.
  assert (Hl : String.list_ascii_of_string s1 ++ String.list_ascii_of_string t
               = String.list_ascii_of_string s2 ++ String.list_ascii_of_string t).
  { assert (Happ : forall a b, String.list_ascii_of_string (a +:+ b)
                     = String.list_ascii_of_string a ++ String.list_ascii_of_string b).
    { intros a b. induction a as [|c a IH]; [reflexivity|].
      change (c :: String.list_ascii_of_string (a +:+ b)
              = c :: (String.list_ascii_of_string a ++ String.list_ascii_of_string b)).
      f_equal. exact IH. }
    rewrite <- !Happ, H. reflexivity. }
  apply app_inv_tail in Hl.
  rewrite <- (String.string_of_list_ascii_of_string s1),
          <- (String.string_of_list_ascii_of_string s2), Hl.
  reflexivity.
Qed.

Lemma numbered_name_inj (prefix suffix : string) (i j : nat) :
  prefix +:+ pretty i +:+ suffix = prefix +:+ pretty j +:+ suffix -> i = j.
Proof.
  intros H. apply String.app_inj in H. apply append_inj_r in H.
  apply pretty_nat_inj in H. exact H.
Qed.

Lemma elem_of_numbered_from (prefix suffix : string) (i n : nat) (name : string) :
  name ∈ map (λ k, prefix +:+ pretty k +:+ suffix) (seq i n) <->
  exists k, (i <= k < i + n)%nat /\ name = prefix +:+ pretty k +:+ suffix.
Proof.
  rewrite list_elem_of_In, in_map_iff. split.
  - intros (k & <- & Hk). apply in_seq in Hk. exists k. split; [lia|reflexivity].
  - intros (k & Hk & ->). exists k. split; [reflexivity|]. apply in_seq. lia.
Qed.

Section LibraryCleanup.
Variable ffmpeg_load : result unit.
Variable ffmpeg_run : list string → gmap string Bytes → ExecOutcome.
Variable Number_toString : Q → string.
Variable Number_toFixed4 : Q → string.
Variable getVideoDuration : Bytes → result Q.

Ltac names_solver :=
  repeat first
    [ progress intros
    | match goal with
      | |- _ ⊆ _ => let x := fresh "x" in let Hx := fresh "Hx" in intros x Hx
      | H : _ ∈ [] |- _ => apply elem_of_nil in H; destruct H
      | H : _ ∈ _ :: _ |- _ => apply elem_of_cons in H; destruct H as [->|H]
      | H : _ ∈ _ ++ _ |- _ => apply elem_of_app in H; destruct H as [H|H]
      | |- _ ∈ _ ++ _ => apply elem_of_app; solve [left; names_solver | right; names_solver]
      | |- ?x ∈ ?x :: _ => apply elem_of_cons; left; reflexivity
      | |- _ ∈ _ :: _ => apply elem_of_cons; right
      | |- _ => assumption
      end ].

Ltac touch :=
  repeat first
    [ eapply touches_only_mono; [|apply touches_only_getFFmpeg]; solve [names_solver]
    | eapply touches_only_mono; [|apply touches_only_ret]; solve [names_solver]
    | eapply touches_only_mono; [|apply touches_only_throw]; solve [names_solver]
    | eapply touches_only_mono; [|apply touches_only_lift]; solve [names_solver]
    | eapply touches_only_mono; [|apply touches_only_readFile]; solve [names_solver]
    | eapply touches_only_mono; [|apply touches_only_writeFile]; solve [names_solver]
    | eapply touches_only_mono;
      [|apply touches_only_exec; reflexivity]; solve [names_solver]
    | eapply touches_only_mono;
      [|apply deletes_touches_only, deletes_deleteFile]; solve [names_solver]
    | apply touches_only_try_finally
    | apply touches_only_bind; [|intros ?] ].

Lemma touches_only_scratch_step (inputName outputName : string) (data : Bytes)
    (args : list string) :
  last args = Some outputName ->
  touches_only [inputName; outputName]
    (writeFile ffmpeg_load inputName data;;
     ff_exec ffmpeg_run args;;
     data ← readFile ffmpeg_load outputName;
     mret data).
Proof.
  intros Hlast.
  apply touches_only_bind; [|intros _].
  { eapply touches_only_mono; [|apply touches_only_writeFile]. names_solver. }
  apply touches_only_bind; [|intros _].
  { eapply touches_only_mono; [|apply touches_only_exec; exact Hlast]. names_solver. }
  touch.
Qed.

Lemma deletes_pair (a b : string) :
  deletes [a; b] (deleteFile ffmpeg_load a;; deleteFile ffmpeg_load b).
Proof. apply (deletes_bind [a] [b]); apply deletes_deleteFile. Qed.

(** The three one-clip steps share their shape. *)
Lemma scratch_step_restores (inputName outputName : string) (data : Bytes)
    (args : list string) (w : World) :
  ffmpeg_loaded w = true ->
  last args = Some outputName ->
  without [inputName; outputName] (fs w)
    (fs (snd ((getFFmpeg ffmpeg_load;;
               scratch_step ffmpeg_load ffmpeg_run inputName outputName data args) w))).
Proof.
  intros Hl Hlast. unfold mbind at 1, M_bind at 1.
  rewrite (getFFmpeg_loaded ffmpeg_load w Hl).
  unfold scratch_step.
  apply (try_finally_cleans_up [inputName; outputName]);
    [apply touches_only_scratch_step; exact Hlast|apply deletes_pair|exact Hl].
Qed.
End LibraryCleanup.

(** X7.  The browser-side [extractClip], [cropVideo] and
    [adjustDuration] leave no scratch file behind: once ffmpeg is loaded,
    after the call (returned or thrown) neither [input.mp4] nor the
    output file of the step is in ffmpeg's file system, and every other
    file is as it was. *)
Theorem media_steps_clean_up
    (ffmpeg_load : result unit)
    (ffmpeg_run : list string → gmap string Bytes → ExecOutcome)
    (Number_toString Number_toFixed4 : Q → string)
    (video : Bytes) (start duration targetDuration currentDuration : Q)
    (cropRegion : CropRegion) (w : World) :
  ffmpeg_loaded w = true ->
  without ["input.mp4"; "clip.mp4"] (fs w)
    (fs (snd (extractClip ffmpeg_load ffmpeg_run Number_toString video start duration w)))
  /\
  without ["input.mp4"; "cropped.mp4"] (fs w)
    (fs (snd (cropVideo ffmpeg_load ffmpeg_run video cropRegion w))) /\
  without ["input.mp4"; "adjusted.mp4"] (fs w)
    (fs (snd (adjustDuration ffmpeg_load ffmpeg_run Number_toFixed4 video
                targetDuration currentDuration w))).
Proof.
  intros Hl. split; [|split].
  - exact (scratch_step_restores ffmpeg_load ffmpeg_run "input.mp4" "clip.mp4" video
             (extractClip_args Number_toString start duration) w Hl eq_refl).
  - unfold cropVideo.
    match goal with
    | |- context [ff_exec _ ?args] =>
        exact (scratch_step_restores ffmpeg_load ffmpeg_run "input.mp4" "cropped.mp4"
                 video args w Hl eq_refl)
    end.
  - unfold adjustDuration.
    match goal with
    | |- context [ff_exec _ ?args] =>
        exact (scratch_step_restores ffmpeg_load ffmpeg_run "input.mp4" "adjusted.mp4"
                 video args w Hl eq_refl)
    end.
Qed.

Lemma media_steps_clean_up_witness :
  fst (extractClip (Ok ()) run_no_output show_Q [Byte.x00] 100 10 world_loaded)
  = Throw FS_ERROR /\
  fs (snd (extractClip (Ok ()) run_no_output show_Q [Byte.x00] 100 10 world_loaded))
  !! "input.mp4" = None.
Proof.
  split; [vm_compute; reflexivity|].
  destruct (media_steps_clean_up (Ok ()) run_no_output show_Q show_Q [Byte.x00]
              100 10 3 10 (mkCropRegion 0 0 720 1280) world_loaded eq_refl) as [H _].
  exact (H "input.mp4").
Defined.

Section StitchCleanup.
Variable ffmpeg_load : result unit.
Variable ffmpeg_run : list string → gmap string Bytes → ExecOutcome.
Variable Number_toString : Q → string.




End StitchCleanup.


Lemma bind_ok_inv {A B} (m : M A) (f : A → M B) (w w' : World) (b : B) :
  (m ≫= f) w = (Ok b, w') ->
  exists a w1, m w = (Ok a, w1) /\ f a w1 = (Ok b, w').
Proof.
  unfold mbind, M_bind. destruct (m w) as [[a|e] w1]; intros H; [|discriminate].
  exists a, w1. split; [reflexivity|exact H].
Qed.

Section ClipsFacts.
Variable ffmpeg_load : result unit.
Variable ffmpeg_run : list string → gmap string Bytes → ExecOutcome.
Variable Number_toString : Q → string.

Lemma touches_only_clips_loop (timestamps : list Q) (duration : Q) (i : nat)
    (clips : list Bytes) :
  touches_only (map (λ k, "clip_" +:+ pretty k +:+ ".mp4") (seq i (length timestamps)))
    (clips_loop ffmpeg_load ffmpeg_run Number_toString timestamps duration i clips).
Proof.
  revert i clips. induction timestamps as [|startTime rest IH]; intros i clips.
  - apply touches_only_ret.
  - cbn [clips_loop length seq map].
    apply touches_only_bind; [|intros _].
    { eapply touches_only_mono; [|apply touches_only_exec; reflexivity].
      intros x Hx. apply list_elem_of_singleton in Hx as ->. constructor. }
    apply touches_only_bind; [|intros data].
    { eapply touches_only_mono; [|apply touches_only_readFile].
      intros x Hx. apply elem_of_nil in Hx as []. }
    apply touches_only_bind; [|intros _].
    { eapply touches_only_mono; [|apply deletes_touches_only, deletes_deleteFile].
      intros x Hx. apply list_elem_of_singleton in Hx as ->. constructor. }
    eapply touches_only_mono; [|apply IH].
    intros x Hx. apply elem_of_cons. right. exact Hx.
Qed.

(** When the loop returns, it has read one clip per timestamp and
    deleted every clip file. *)
Lemma clips_loop_ok (timestamps : list Q) (duration : Q) (i : nat)
    (clips out : list Bytes) (w w' : World) :
  ffmpeg_loaded w = true ->
  clips_loop ffmpeg_load ffmpeg_run Number_toString timestamps duration i clips w
  = (Ok out, w') ->
  length out = (length clips + length timestamps)%nat /\
  forall k, (i <= k < i + length timestamps)%nat ->
    fs w' !! ("clip_" +:+ pretty k +:+ ".mp4") = None.
Proof.
  revert i clips w. induction timestamps as [|startTime rest IH]; intros i clips w Hl H.
  - injection H as <- <-. cbn. split; [lia|]. intros k Hk. lia.
  - cbn [clips_loop] in H.
    apply bind_ok_inv in H as ([] & w1 & Hexec & H).
    apply bind_ok_inv in H as (data & w2 & Hread & H).
    apply bind_ok_inv in H as ([] & w3 & Hdel & H).
    set (name := "clip_" +:+ pretty i +:+ ".mp4") in *.
    assert (Hl1 : ffmpeg_loaded w1 = true).
    { match type of Hexec with
      | ff_exec _ ?args _ = _ =>
          pose proof (touches_only_exec ffmpeg_run args name eq_refl w Hl) as [Hx _]
      end.
      rewrite Hexec in Hx. exact Hx. }
    assert (Hl2 : ffmpeg_loaded w2 = true).
    { pose proof (touches_only_readFile ffmpeg_load name w1 Hl1) as [Hx _].
      rewrite Hread in Hx. exact Hx. }
    pose proof (deletes_deleteFile ffmpeg_load name w2 Hl2) as (_ & Hl3 & Hfs3).
    rewrite Hdel in Hl3, Hfs3. cbn [snd] in Hl3, Hfs3.
    destruct (IH (S i) (clips ++ [data]) w3 Hl3 H) as [Hlen Hnone].
    split.
    { rewrite Hlen, length_app. cbn. lia. }
    intros k Hk. destruct (decide (k = i)) as [->|Hne].
    + pose proof (touches_only_clips_loop rest duration (S i) (clips ++ [data]) w3 Hl3)
        as [_ Hfs].
      rewrite H in Hfs. cbn [snd] in Hfs. fold name. rewrite Hfs.
      * rewrite (Hfs3 name), bool_decide_eq_true_2
          by (apply list_elem_of_singleton; reflexivity).
        reflexivity.
      * intros Hin. apply elem_of_numbered_from in Hin as (k & Hk' & Heq).
        apply numbered_name_inj in Heq. lia.
    + apply Hnone. cbn [length] in Hk. lia.
Qed.

(** X9.  [extractMultipleClips], once ffmpeg is loaded.  On every path
    [input.mp4] is deleted and no file other than [input.mp4] and
    [clip_<i>.mp4] (one per timestamp) is changed.  When the call
    returns, it returns one clip per timestamp and none of those files is
    left. *)
Theorem extractMultipleClips_files (videoFile : Bytes) (timestamps : list Q)
    (duration : Q) (w : World) :
  ffmpeg_loaded w = true ->
  let run := extractMultipleClips ffmpeg_load ffmpeg_run Number_toString videoFile
               timestamps duration w in
  let scratch := "input.mp4" :: numbered "clip_" ".mp4" (length timestamps) in
  fs (snd run) !! "input.mp4" = None /\
  (forall name, name ∉ scratch -> fs (snd run) !! name = fs w !! name) /\
  (forall clips, fst run = Ok clips ->
     length clips = length timestamps /\ without scratch (fs w) (fs (snd run))).
Proof.
  intros Hl run scratch. subst run.
  set (body := writeFile ffmpeg_load "input.mp4" videoFile;;
               clips_loop ffmpeg_load ffmpeg_run Number_toString timestamps duration
                 0 []).
  assert (Hrun0 : extractMultipleClips ffmpeg_load ffmpeg_run Number_toString videoFile
                    timestamps duration w
                  = try_finally body (deleteFile ffmpeg_load "input.mp4") w).
  { unfold extractMultipleClips, mbind at 1, M_bind at 1.
    rewrite (getFFmpeg_loaded ffmpeg_load w Hl). reflexivity. }
  rewrite Hrun0. clear Hrun0.
  assert (Hbody : touches_only scratch body).
  { apply touches_only_bind; [|intros _].
    - eapply touches_only_mono; [|apply touches_only_writeFile].
      intros x Hx. apply list_elem_of_singleton in Hx as ->. constructor.
    - eapply touches_only_mono; [|apply touches_only_clips_loop].
      intros x Hx. apply elem_of_cons. right. exact Hx. }
  destruct (try_finally_deletes scratch ["input.mp4"] body
              (deleteFile ffmpeg_load "input.mp4") w Hbody
              (deletes_deleteFile ffmpeg_load "input.mp4") Hl)
    as (Hfst & _ & Hgone & Hkept).
  destruct (Hbody w Hl) as [_ Hframe].
  assert (Hother : forall name, name ∉ scratch ->
            fs (snd (try_finally body (deleteFile ffmpeg_load "input.mp4") w)) !! name
            = fs w !! name).
  { intros name Hn. rewrite Hkept, Hframe; [reflexivity|exact Hn|].
    intros Hin. apply Hn. apply list_elem_of_singleton in Hin as ->. constructor. }
  split; [apply Hgone, list_elem_of_singleton; reflexivity|].
  split; [exact Hother|].
  intros clips Hok. rewrite Hfst in Hok.
  destruct (body w) as [r w1] eqn:Hrun. cbn [fst] in Hok. subst r.
  subst body. apply bind_ok_inv in Hrun as ([] & w0 & Hwrite & Hloop).
  rewrite (writeFile_loaded ffmpeg_load) in Hwrite by exact Hl.
  injection Hwrite as <-.
  destruct (clips_loop_ok timestamps duration 0 [] clips
              (set_fs (insert "input.mp4" videoFile) w) w1 Hl Hloop) as [Hlen Hnone].
  split; [exact Hlen|].
  intros name. destruct (bool_decide (name ∈ scratch)) eqn:E.
  - apply bool_decide_eq_true in E. apply elem_of_cons in E as [->|E].
    + apply Hgone, list_elem_of_singleton. reflexivity.
    + apply elem_of_numbered_from in E as (k & Hk & ->).
      rewrite Hkept.
      * cbn [snd]. apply Hnone. lia.
      * intros Hin. apply list_elem_of_singleton in Hin. discriminate.
  - apply bool_decide_eq_false in E. apply Hother, E.
Qed.
End ClipsFacts.

Lemma extractMultipleClips_files_witness :
  exists clips,
    fst (extractMultipleClips (Ok ()) run_ok show_Q [Byte.x00] [0; 5; 10] 10 world_loaded)
    = Ok clips /\ length clips = 3%nat.
Proof.
  destruct (extractMultipleClips_files (Ok ()) run_ok show_Q [Byte.x00] [0; 5; 10] 10
              world_loaded eq_refl) as (_ & _ & H).
  exists [[Byte.x01]; [Byte.x01]; [Byte.x01]].
  split; [vm_compute; reflexivity|].
  apply (H [[Byte.x01]; [Byte.x01]; [Byte.x01]]). vm_compute. reflexivity.
Defined.


Section StitchHelpers.
Variable ffmpeg_load : result unit.
Variable ffmpeg_run : list string → gmap string Bytes → ExecOutcome.
Variable Number_toString : Q → string.
Variable getVideoDuration : Bytes → result Q.

(** X10.  [addAudioToVideo] and [createBlankVideo] clean up after
    themselves: once ffmpeg is loaded, after the call (returned or
    thrown) [video.mp4], [audio.wav] and [output.mp4], respectively
    [blank.mp4], are gone and every other file is as it was. *)
Theorem stitch_helpers_clean_up (videoBlob audioBlob : Bytes) (duration : Q)
    (color : string) (w : World) :
  ffmpeg_loaded w = true ->
  without ["video.mp4"; "audio.wav"; "output.mp4"] (fs w)
    (fs (snd (addAudioToVideo ffmpeg_load ffmpeg_run videoBlob audioBlob w))) /\
  without ["blank.mp4"] (fs w)
    (fs (snd (createBlankVideo ffmpeg_load ffmpeg_run Number_toString duration color w))).
Proof.
  intros Hl. split.
  - unfold addAudioToVideo, mbind at 1, M_bind at 1.
    rewrite (getFFmpeg_loaded ffmpeg_load w Hl).
    apply try_finally_cleans_up; [| |exact Hl].
    + apply touches_only_bind; [|intros _].
      { eapply touches_only_mono; [|apply touches_only_writeFile].
        intros x Hx. apply list_elem_of_singleton in Hx as ->. repeat constructor. }
      apply touches_only_bind; [|intros _].
      { eapply touches_only_mono; [|apply touches_only_writeFile].
        intros x Hx. apply list_elem_of_singleton in Hx as ->. repeat constructor. }
      apply touches_only_bind; [|intros _].
      { eapply touches_only_mono; [|apply touches_only_exec; reflexivity].
        intros x Hx. apply list_elem_of_singleton in Hx as ->. repeat constructor. }
      apply touches_only_bind; [|intros data].
      { eapply touches_only_mono; [|apply touches_only_readFile].
        intros x Hx. apply elem_of_nil in Hx as []. }
      eapply touches_only_mono; [|apply touches_only_ret].
      intros x Hx. apply elem_of_nil in Hx as [].
    + apply (deletes_bind ["video.mp4"]); [apply deletes_deleteFile|].
      apply (deletes_bind ["audio.wav"] ["output.mp4"]); apply deletes_deleteFile.
  - unfold createBlankVideo, mbind at 1, M_bind at 1.
    rewrite (getFFmpeg_loaded ffmpeg_load w Hl).
    apply try_finally_cleans_up; [| |exact Hl].
    + apply touches_only_bind; [|intros _].
      { apply touches_only_exec. reflexivity. }
      apply touches_only_bind; [|intros data].
      { eapply touches_only_mono; [|apply touches_only_readFile].
        intros x Hx. apply elem_of_nil in Hx as []. }
      eapply touches_only_mono; [|apply touches_only_ret].
      intros x Hx. apply elem_of_nil in Hx as [].
    + apply deletes_deleteFile.
Qed.


End StitchHelpers.

Lemma stitch_helpers_clean_up_witness :
  fs (snd (addAudioToVideo (Ok ()) run_partial [Byte.x00] [Byte.x01] world_loaded))
  !! "video.mp4" = None.
Proof.
  destruct (stitch_helpers_clean_up (Ok ()) run_partial show_Q [Byte.x00] [Byte.x01]
              5 "000000" world_loaded eq_refl) as [H _].
  exact (H "video.mp4").
Defined.


(** ** The rest of the smart cropper *)

Lemma Math_round_between (a b : Z) (q : Q) :
  inject_Z a <= q -> q <= inject_Z b -> (a <= Math_round q <= b)%Z.
Proof.
  intros Ha Hb.
  pose proof (Math_round_lower q) as Hl. pose proof (Math_round_upper q) as Hu.
  split.
  - assert (H : inject_Z a < inject_Z (Math_round q + 1)).
    { apply Qle_lt_trans with (q + (1 # 2)); [|exact Hu]. lra. }
    rewrite <- Zlt_Qlt in H. lia.
  - assert (H : inject_Z (Math_round q) < inject_Z (b + 1)).
    { apply Qle_lt_trans with (q + (1 # 2)); [exact Hl|].
      rewrite inject_Z_plus. change (inject_Z 1) with 1. lra. }
    rewrite <- Zlt_Qlt in H. lia.
Qed.

Lemma inject_Z_sub (a b : Z) : inject_Z (a - b) == inject_Z a - inject_Z b.
Proof. unfold Z.sub. rewrite inject_Z_plus, inject_Z_opp. reflexivity. Qed.

(** One coordinate of the interpolation stays between its two ends. *)
Lemma lerp_between (p c : Z) (s : Q) :
  0 <= s -> s <= 1 ->
  (Z.min p c <= Math_round (inject_Z p + inject_Z (c - p) * (1 - s)) <= Z.max p c)%Z.
Proof.
  intros H0 H1. apply Math_round_between.
  - rewrite inject_Z_sub. destruct (Z.le_ge_cases p c) as [Hpc|Hpc].
    + rewrite Z.min_l by exact Hpc. rewrite Zle_Qle in Hpc. nra.
    + rewrite Z.min_r by exact Hpc. rewrite Zle_Qle in Hpc. nra.
  - rewrite inject_Z_sub. destruct (Z.le_ge_cases p c) as [Hpc|Hpc].
    + rewrite Z.max_r by exact Hpc. rewrite Zle_Qle in Hpc. nra.
    + rewrite Z.max_l by exact Hpc. rewrite Zle_Qle in Hpc. nra.
Qed.

Lemma smooth_loop_framed (frameWidth frameHeight w h : Z) (s : Q) (prev : CropRegion)
    (rest : list CropRegion) :
  0 <= s -> s <= 1 ->
  framed frameWidth frameHeight w h prev ->
  Forall (framed frameWidth frameHeight w h) rest ->
  length (smooth_loop s prev rest) = length rest /\
  Forall (framed frameWidth frameHeight w h) (smooth_loop s prev rest).
Proof.
  intros H0 H1. revert prev. induction rest as [|curr rest IH]; intros prev Hp Hall.
  - split; [reflexivity|constructor].
  - apply Forall_cons in Hall as [Hc Hall]. cbn [smooth_loop].
    set (next := mkCropRegion _ _ _ _).
    assert (Hn : framed frameWidth frameHeight w h next).
    { destruct Hp as ((Hpx & Hpy & Hpw & Hph) & Hpw' & Hph').
      destruct Hc as ((Hcx & Hcy & Hcw & Hch) & Hcw' & Hch').
      pose proof (lerp_between (crop_x prev) (crop_x curr) s H0 H1) as Hx.
      pose proof (lerp_between (crop_y prev) (crop_y curr) s H0 H1) as Hy.
      subst next. unfold framed, within_frame.
      cbn [crop_x crop_y crop_width crop_height]. lia. }
    destruct (IH next Hn Hall) as [Hlen Hrest].
    split; [cbn; rewrite Hlen; reflexivity|]. constructor; assumption.
Qed.

Lemma smooth_loop_identity (prev : CropRegion) (rest : list CropRegion) :
  smooth_loop 0 prev rest = rest.
Proof.
  revert prev. induction rest as [|curr rest IH]; intros prev; [reflexivity|].
  cbn [smooth_loop].
  assert (Hr : forall p c : Z, Math_round (inject_Z p + inject_Z (c - p) * (1 - 0)) = c).
  { intros p c. rewrite (Math_round_comp _ (inject_Z c)).
    - pose proof (Math_round_between c c (inject_Z c) (Qle_refl _) (Qle_refl _)). lia.
    - rewrite inject_Z_sub. ring. }
  rewrite !Hr. rewrite IH. destruct curr; reflexivity.
Qed.

(** X12.  [smoothCropRegions] with a factor between 0 and 1, on crops of
    one size that all lie inside the frame: it returns as many regions,
    the first one unchanged, all of that size and all inside the frame
    (every smoothed corner lies between the previous smoothed corner and
    the current one).  With the factor 0 nothing is changed. *)
Theorem smoothCropRegions_stays_in_frame (frameWidth frameHeight w h : Z)
    (cropRegions : list CropRegion) (smoothingFactor : Q) :
  0 <= smoothingFactor -> smoothingFactor <= 1 ->
  Forall (framed frameWidth frameHeight w h) cropRegions ->
  length (smoothCropRegions cropRegions smoothingFactor) = length cropRegions /\
  head (smoothCropRegions cropRegions smoothingFactor) = head cropRegions /\
  Forall (framed frameWidth frameHeight w h)
    (smoothCropRegions cropRegions smoothingFactor) /\
  smoothCropRegions cropRegions 0 = cropRegions.
Proof.
  intros H0 H1 Hall. unfold smoothCropRegions.
  destruct cropRegions as [|first rest]; [repeat split; constructor|].
  destruct rest as [|second rest]; [repeat split; exact Hall|].
  cbn [length Nat.leb].
  apply Forall_cons in Hall as [Hf Hall].
  destruct (smooth_loop_framed frameWidth frameHeight w h smoothingFactor first
              (second :: rest) H0 H1 Hf Hall) as [Hlen Hrest].
  split; [cbn [length]; rewrite Hlen; reflexivity|].
  split; [reflexivity|].
  split; [constructor; assumption|].
  rewrite smooth_loop_identity. reflexivity.
Qed.

Lemma smoothCropRegions_stays_in_frame_witness :
  Forall (framed 1920 1080 608 1080) (smoothCropRegions sample_regions (3 # 10)).
Proof.
  apply (smoothCropRegions_stays_in_frame 1920 1080 608 1080 sample_regions (3 # 10)).
  - discriminate.
  - discriminate.
  - repeat constructor; cbn; lia.
Defined.

(** X13.  [validateCropRegion] brings every region inside the frame,
    whatever the region and the frame are, and returns a region that is
    already inside the frame as it is. *)
Theorem validateCropRegion_in_frame (region : CropRegion) (videoWidth videoHeight : Z) :
  within_frame (validateCropRegion region videoWidth videoHeight) videoWidth videoHeight
  /\ (within_frame region videoWidth videoHeight ->
      validateCropRegion region videoWidth videoHeight = region).
Proof.
  unfold within_frame, validateCropRegion. cbn [crop_x crop_y crop_width crop_height].
  split; [lia|].
  intros (Hx & Hy & Hw & Hh). destruct region as [x y w h].
  cbn [crop_x crop_y crop_width crop_height] in *. f_equal; lia.
Qed.

Lemma bestFace_spec (first : FaceDetection) (rest : list FaceDetection) :
  bestFace first rest ∈ first :: rest /\
  forall d, d ∈ first :: rest -> confidence d <= confidence (bestFace first rest).
Proof.
  unfold bestFace. revert first. induction rest as [|d rest IH]; intros first.
  - split; [constructor|]. intros d Hd. apply list_elem_of_singleton in Hd as ->.
    apply Qle_refl.
  - cbn [fold_left].
    destruct (Qgtb (confidence d) (confidence first)) eqn:E.
    + apply Qgtb_true in E. destruct (IH d) as [Hin Hmax]. split.
      * apply elem_of_cons. right. exact Hin.
      * intros d' Hd'. apply elem_of_cons in Hd' as [->|Hd'].
        -- apply Qle_trans with (confidence d); [apply Qlt_le_weak, E|].
           apply Hmax. constructor.
        -- apply Hmax, Hd'.
    + apply Qgtb_false in E. destruct (IH first) as [Hin Hmax]. split.
      * apply elem_of_cons in Hin as [Hin|Hin];
          [rewrite Hin; constructor|do 2 (apply elem_of_cons; right); exact Hin].
      * intros d' Hd'. apply elem_of_cons in Hd' as [->|Hd'];
          [apply Hmax; constructor|].
        apply elem_of_cons in Hd' as [->|Hd'].
        -- apply Qle_trans with (confidence first); [exact E|]. apply Hmax. constructor.
        -- apply Hmax. apply elem_of_cons. right. exact Hd'.
Qed.

(** X14.  [analyzeFramesForFaces], when the detector loads, returns one
    entry per frame, in order.  The entry of a frame in which faces were
    detected is the centre of the box of one of them whose confidence no
    other detection of the frame exceeds; the entry of a frame without a
    face, or on which detection threw, is null.  When the detector does
    not load, the call throws that error. *)
Theorem analyzeFramesForFaces_picks_best
    (initFaceDetector : result unit)
    (detectFacesInFrame : Bytes → result (list FaceDetection))
    (frames : list Bytes) :
  match initFaceDetector with
  | Throw e => analyzeFramesForFaces initFaceDetector detectFacesInFrame frames = Throw e
  | Ok _ =>
      exists centers,
        analyzeFramesForFaces initFaceDetector detectFacesInFrame frames = Ok centers /\
        length centers = length frames /\
        forall i frame, frames !! i = Some frame ->
          match detectFacesInFrame frame with
          | Ok (first :: rest) =>
              exists best,
                centers !! i = Some (Some (getFaceCenter best)) /\
                best ∈ first :: rest /\
                forall d, d ∈ first :: rest -> confidence d <= confidence best
          | _ => centers !! i = Some None
          end
  end.
Proof.
  unfold analyzeFramesForFaces. destruct initFaceDetector as [[]|e]; [|reflexivity].
  eexists. split; [reflexivity|]. split; [apply length_map|].
  intros i frame Hi.
  assert (Hc : map (frame_center detectFacesInFrame) frames !! i
               = Some (frame_center detectFacesInFrame frame)).
  { change (map (frame_center detectFacesInFrame) frames)
      with (frame_center detectFacesInFrame <$> frames).
    rewrite list_lookup_fmap, Hi. reflexivity. }
  rewrite Hc. unfold frame_center.
  destruct (detectFacesInFrame frame) as [[|first rest]|e]; try reflexivity.
  exists (bestFace first rest). split; [reflexivity|]. apply bestFace_spec.
Qed.

(** ** Looking up the current word *)

Lemma is_current_shown_at (t : Q) (word : CaptionWord) :
  is_current t word = true <-> shown_at t word.
Proof.
  unfold is_current, shown_at. rewrite andb_true_iff, negb_true_iff. split.
  - intros [H1 H2]. apply Qle_bool_iff in H1. split; [exact H1|].
    apply Qnot_le_lt. intros H. apply Qle_bool_iff in H. congruence.
  - intros [H1 H2]. split; [apply Qle_bool_iff, H1|].
    destruct (Qle_bool (endTime word) t) eqn:E; [|reflexivity].
    apply Qle_bool_iff in E. exfalso. apply (Qlt_not_le _ _ H2 E).
Qed.

Lemma find_current_Some (t : Q) (words : list CaptionWord) (w0 w : nat)
    (word : CaptionWord) :
  find_current t words w0 = Some (w, word) ->
  (w0 <= w)%nat /\ words !! (w - w0)%nat = Some word /\ shown_at t word /\
  forall k word', (k < w - w0)%nat -> words !! k = Some word' -> ~ shown_at t word'.
Proof.
  revert w0. induction words as [|x rest IH]; intros w0 H; [discriminate|].
  cbn [find_current] in H. destruct (is_current t x) eqn:E.
  - injection H as <- <-. rewrite Nat.sub_diag.
    split; [lia|]. split; [reflexivity|]. split; [apply is_current_shown_at, E|].
    intros k word' Hk. lia.
  - destruct (IH (S w0) H) as (Hle & Hl & Hs & Hfirst).
    split; [lia|]. replace (w - w0)%nat with (S (w - S w0)) by lia.
    split; [exact Hl|]. split; [exact Hs|].
    intros k word' Hk Hw. destruct k as [|k].
    + injection Hw as <-. intros Hx. apply is_current_shown_at in Hx. congruence.
    + apply (Hfirst k word'); [lia|exact Hw].
Qed.

Lemma find_current_None (t : Q) (words : list CaptionWord) (w0 : nat) :
  find_current t words w0 = None <-> Forall (λ word, ~ shown_at t word) words.
Proof.
  revert w0. induction words as [|x rest IH]; intros w0.
  - split; [constructor|reflexivity].
  - cbn [find_current]. destruct (is_current t x) eqn:E.
    + split; [discriminate|]. intros H. apply Forall_cons in H as [H _].
      exfalso. apply H, is_current_shown_at, E.
    + rewrite IH. split.
      * intros H. constructor; [|exact H].
        intros Hx. apply is_current_shown_at in Hx. congruence.
      * intros H. apply Forall_cons in H as [_ H]. exact H.
Qed.

(** What the two searches return: the first word, in reading order, that
    is shown at the time asked for. *)
Lemma find_indices_Some (captions : list SegmentCaptions) (t : Q) (s0 s w : nat) :
  find_indices captions t s0 = Some (s, w) ->
  exists segment word,
    (s0 <= s)%nat /\ captions !! (s - s0)%nat = Some segment /\
    cap_words segment !! w = Some word /\ shown_at t word /\
    getCurrentWord captions t = Some word /\
    (forall k word', (k < w)%nat -> cap_words segment !! k = Some word' ->
                     ~ shown_at t word') /\
    Forall (λ seg, Forall (λ word', ~ shown_at t word') (cap_words seg))
           (take (s - s0) captions).
Proof.
  revert s0. induction captions as [|seg rest IH]; intros s0 H; [discriminate|].
  cbn [find_indices getCurrentWord] in *.
  destruct (find_current t (cap_words seg) 0) as [[w' word]|] eqn:E.
  - injection H as <- <-. apply find_current_Some in E as (_ & Hl & Hs & Hfirst).
    rewrite Nat.sub_0_r in Hl, Hfirst. rewrite Nat.sub_diag.
    exists seg, word. split; [lia|]. split; [reflexivity|]. split; [exact Hl|].
    split; [exact Hs|]. split; [reflexivity|]. split; [exact Hfirst|constructor].
  - destruct (IH (S s0) H) as (segment & word & Hle & Hseg & Hw & Hs & Hcur & Hf & Hbefore).
    exists segment, word. split; [lia|].
    replace (s - s0)%nat with (S (s - S s0)) by lia.
    split; [exact Hseg|]. split; [exact Hw|]. split; [exact Hs|].
    split; [exact Hcur|]. split; [exact Hf|].
    cbn [take]. constructor; [|exact Hbefore]. apply (find_current_None t _ 0), E.
Qed.

Lemma find_indices_None (captions : list SegmentCaptions) (t : Q) (s0 : nat) :
  find_indices captions t s0 = None <-> getCurrentWord captions t = None.
Proof.
  revert s0. induction captions as [|seg rest IH]; intros s0; [split; reflexivity|].
  cbn [find_indices getCurrentWord].
  destruct (find_current t (cap_words seg) 0) as [[w' word]|]; [|apply IH].
  split; discriminate.
Qed.

Lemma getCurrentWord_None (captions : list SegmentCaptions) (t : Q) :
  getCurrentWord captions t = None <->
  Forall (λ seg, Forall (λ word, ~ shown_at t word) (cap_words seg)) captions.
Proof.
  induction captions as [|seg rest IH]; [split; [constructor|reflexivity]|].
  cbn [getCurrentWord].
  destruct (find_current t (cap_words seg) 0) as [[w' word]|] eqn:E.
  - split; [discriminate|]. intros H. apply Forall_cons in H as [H _].
    apply (find_current_None t _ 0) in H. congruence.
  - rewrite IH. apply (find_current_None t _ 0) in E. split.
    + intros H. constructor; assumption.
    + intros H. apply Forall_cons in H as [_ H]. exact H.
Qed.

(** A time inside a tiled window is inside one of its words. *)
Lemma tiles_cover (a b t : Q) (ws : list CaptionWord) :
  tiles a ws b -> a <= t -> t < b -> Exists (shown_at t) ws.
Proof.
  revert a. induction ws as [|w rest IH]; intros a Ht Ha Hb; [destruct Ht|].
  cbn [tiles] in Ht. destruct Ht as (Hs & Hlt & Hrest).
  destruct (Qlt_le_dec t (endTime w)) as [Hin|Hout].
  - left. split; [rewrite Hs; exact Ha|exact Hin].
  - right. destruct rest as [|w' rest'].
    + exfalso. rewrite Hrest in Hout. apply (Qlt_not_le _ _ Hb Hout).
    + apply (IH (endTime w)); assumption.
Qed.

(** X15.  While a segment's voiceover plays, a word is highlighted: for
    a segment with at least one word and a positive duration, at every
    time from the segment's start (the sum of the earlier durations) up to
    its end [getCurrentWord] finds a word of the generated captions, and
    the word it returns is shown at that time.  In general
    [getCurrentWord] returns null exactly when no word of the captions is
    shown at the time asked for. *)
Theorem getCurrentWord_covers_segment (segments : list ScriptSegment)
    (durations : list Q) (i : nat) (segment : ScriptSegment) (d t : Q) :
  segments !! i = Some segment ->
  words_of (script segment) <> [] ->
  durations !! i = Some d ->
  0 < d ->
  cumulativeTime_before durations i <= t ->
  t < cumulativeTime_before durations i + d ->
  (exists word,
     getCurrentWord (generateCaptions segments durations) t = Some word /\
     shown_at t word) /\
  (forall captions,
     getCurrentWord captions t = None <->
     Forall (λ seg, Forall (λ word, ~ shown_at t word) (cap_words seg)) captions).
Proof.
  intros Hseg Hwords Hdur Hd Ha Hb. split; [|intros captions; apply getCurrentWord_None].
  pose proof (generateCaptions_loop_lookup segments durations 0 0 i segment Hseg) as Hcap.
  fold (generateCaptions segments durations) in Hcap.
  fold (cumulativeTime_before durations i) in Hcap.
  rewrite Nat.add_0_l, (duration_or_default_pos durations i d Hdur Hd) in Hcap.
  pose proof (estimateWordTimings_tiles (script segment)
                (cumulativeTime_before durations i) d Hwords Hd) as Htiles.
  pose proof (tiles_cover _ _ t _ Htiles Ha Hb) as Hex.
  destruct (getCurrentWord (generateCaptions segments durations) t) as [word|] eqn:E.
  - exists word. split; [reflexivity|].
    destruct (find_indices (generateCaptions segments durations) t 0)
      as [[s w]|] eqn:Ei.
    + apply find_indices_Some in Ei as (seg' & word' & _ & _ & _ & Hs & Hcur & _).
      rewrite E in Hcur. injection Hcur as ->. exact Hs.
    + apply find_indices_None in Ei. congruence.
  - exfalso. apply getCurrentWord_None in E.
    rewrite Forall_lookup in E. specialize (E i _ Hcap). cbn [cap_words] in E.
    apply Exists_exists in Hex as (word & Hin & Hs).
    rewrite Forall_forall in E. exact (E word Hin Hs).
Qed.

Lemma getCurrentWord_covers_segment_witness :
  exists word,
    getCurrentWord (generateCaptions two_segments [1; 2]) (25 # 10) = Some word /\
    shown_at (25 # 10) word.
Proof.
  destruct (getCurrentWord_covers_segment two_segments [1; 2] 1
              (mkScriptSegment "b" 1 (js "hi there") 10) 2 (25 # 10)) as [H _].
  - reflexivity.
  - discriminate.
  - reflexivity.
  - reflexivity.
  - vm_compute. discriminate.
  - vm_compute. reflexivity.
  - exact H.
Defined.

Lemma flat_index (captions : list SegmentCaptions) (s w : nat) (segment : SegmentCaptions)
    (word : CaptionWord) (acc : nat) :
  captions !! s = Some segment -> cap_words segment !! w = Some word ->
  concat (map cap_words captions)
  !! (fold_left (λ sum seg, sum + length (cap_words seg)) (take s captions) acc
      + w - acc)%nat
  = Some word.
Proof.
  revert s acc. induction captions as [|seg rest IH]; intros s acc Hs Hw; [discriminate|].
  destruct s as [|s].
  - injection Hs as ->. cbn [take fold_left map concat].
    replace (acc + w - acc)%nat with w by lia.
    rewrite lookup_app_l by (apply lookup_lt_Some in Hw; exact Hw). exact Hw.
  - cbn [take fold_left map concat]. cbn [lookup list_lookup] in Hs.
    specialize (IH s (acc + length (cap_words seg))%nat Hs Hw).
    assert (Hge : (acc + length (cap_words seg)
                   <= fold_left (λ sum seg0, sum + length (cap_words seg0))
                        (take s rest) (acc + length (cap_words seg)))%nat).
    { clear. generalize (acc + length (cap_words seg))%nat as n.
      induction (take s rest) as [|x l IHl]; intros n; [reflexivity|].
      cbn [fold_left]. etransitivity; [|apply IHl]. lia. }
    rewrite lookup_app_r by lia.
    match goal with
    | |- _ !! ?a = _ => match type of IH with
                        | _ !! ?b = _ => replace a with b by lia
                        end
    end.
    exact IH.
Qed.

(** X16.  [getVisibleCaption] with a window of [windowSize] words
    returns null exactly when [getCurrentWord] does.  Otherwise it
    returns at most [windowSize] words, and for a window of at least one
    word the entry at the returned [currentWordIndex] is the word that
    [getCurrentWord] returns; that index is at most half the window. *)
Theorem getVisibleCaption_window (captions : list SegmentCaptions) (t : Q)
    (windowSize : nat) :
  (getVisibleCaption captions t windowSize = None <-> getCurrentWord captions t = None) /\
  forall v, getVisibleCaption captions t windowSize = Some v ->
    (length (vc_words v) <= windowSize)%nat /\
    (currentWordIndex v <= windowSize / 2)%nat /\
    ((1 <= windowSize)%nat ->
     vc_words v !! currentWordIndex v = getCurrentWord captions t /\
     is_Some (getCurrentWord captions t)).
Proof.
  unfold getVisibleCaption.
  assert (Hhalf : (1 <= windowSize -> windowSize / 2 < windowSize)%nat)
    by (intros Hws; apply Nat.div_lt; lia).
  set (half := (windowSize / 2)%nat) in *. clearbody half.
  destruct (find_indices captions t 0) as [[s w]|] eqn:E.
  - pose proof E as E'.
    apply find_indices_Some in E' as (segment & word & _ & Hs & Hw & _ & Hcur & _).
    rewrite Nat.sub_0_r in Hs. rewrite Hcur.
    split; [split; discriminate|].
    intros v [= <-]. cbn [vc_words currentWordIndex].
    pose proof (flat_index captions s w segment word 0 Hs Hw) as Hflat.
    rewrite Nat.sub_0_r in Hflat.
    set (flat := (fold_left (λ sum seg, sum + length (cap_words seg))
                            (take s captions) 0 + w)%nat) in *.
    set (allWords := concat (map cap_words captions)) in *.
    pose proof (lookup_lt_Some _ _ _ Hflat) as Hlt.
    clearbody flat allWords.
    split; [rewrite length_drop, length_take; lia|].
    split; [lia|].
    intros Hws. specialize (Hhalf Hws). split; [|eexists; reflexivity].
    rewrite lookup_drop, lookup_take_lt by lia.
    replace (flat - half + (flat - (flat - half)))%nat with flat by lia.
    exact Hflat.
  - split; [|discriminate].
    split; [intros _; apply (find_indices_None captions t 0), E|reflexivity].
Qed.

(** ** Timestamps *)

Lemma js_app (a b : string) : js (a +:+ b) = js a ++ js b.
Proof.
  unfold js. induction a as [|c a IH]; [reflexivity|].
  change (Ascii.N_of_ascii c :: map Ascii.N_of_ascii (String.list_ascii_of_string (a +:+ b))
          = Ascii.N_of_ascii c
            :: (map Ascii.N_of_ascii (String.list_ascii_of_string a)
                ++ map Ascii.N_of_ascii (String.list_ascii_of_string b))).
  f_equal. exact IH.
Qed.

Lemma js_length (s : string) : length (js s) = String.length s.
Proof.
  unfold js. rewrite length_map. induction s as [|c s IH]; [reflexivity|].
  cbn. f_equal. exact IH.
Qed.

(** The code units of a number below ten printed as a character. *)
Lemma pretty_N_char_code (d : N) :
  (d < 10)%N -> Ascii.N_of_ascii (pretty_N_char d) = (d + 48)%N.
Proof.
  intros Hd.
  assert (H : (d = 0 \/ d = 1 \/ d = 2 \/ d = 3 \/ d = 4 \/ d = 5 \/ d = 6 \/ d = 7
               \/ d = 8 \/ d = 9)%N) by lia.
  repeat (destruct H as [->|H]; [reflexivity|]). subst d. reflexivity.
Qed.

Lemma digits_value_snoc (ds : list N) (d : N) :
  digits_value (ds ++ [d]) = (digits_value ds * 10 + d)%N.
Proof. unfold digits_value. rewrite fold_left_app. reflexivity. Qed.

(** What [pretty] prints in front of [s]: the decimal digits of [x]. *)
Lemma pretty_N_go_digits (x : N) (s : string) :
  exists ds,
    js (pretty_N_go x s) = map (λ d, (d + 48)%N) ds ++ js s /\
    Forall (λ d, (d < 10)%N) ds /\ digits_value ds = x /\
    ((0 < x)%N -> ds <> []).
Proof.
  revert s. induction (N.lt_wf_0 x) as [x _ IH]. intros s.
  destruct (decide (0 < x)%N) as [Hx|Hx].
  - rewrite pretty_N_go_step by exact Hx.
    destruct (IH (x `div` 10)%N (N.div_lt x 10 Hx eq_refl)
                (String (pretty_N_char (x `mod` 10)) s)) as (ds & Hjs & Hall & Hval & _).
    assert (Hm : (x `mod` 10 < 10)%N) by (apply N.mod_lt; discriminate).
    exists (ds ++ [x `mod` 10])%N. split; [|split; [|split]].
    + rewrite Hjs, map_app, <- app_assoc. f_equal.
      change (js (String (pretty_N_char (x `mod` 10)) s))
        with (Ascii.N_of_ascii (pretty_N_char (x `mod` 10)) :: js s).
      rewrite pretty_N_char_code by exact Hm. reflexivity.
    + apply Forall_app. split; [exact Hall|]. constructor; [exact Hm|constructor].
    + rewrite digits_value_snoc, Hval.
      rewrite (N.div_mod x 10) at 3 by discriminate. lia.
    + intros _ H. destruct ds; discriminate.
  - assert (x = 0%N) as -> by lia. exists []. rewrite pretty_N_go_0.
    split; [reflexivity|]. split; [constructor|]. split; [reflexivity|]. lia.
Qed.

Lemma pretty_Z_digits (n : Z) :
  (0 <= n)%Z ->
  exists ds,
    js (pretty n) = map (λ d, (d + 48)%N) ds /\
    Forall (λ d, (d < 10)%N) ds /\ digits_value ds = Z.to_N n /\ ds <> [].
Proof.
  intros Hn. destruct n as [|p|p]; [| |lia].
  - exists [0%N]. repeat split; [repeat constructor; lia|discriminate].
  - destruct (pretty_N_go_digits (N.pos p) "") as (ds & Hjs & Hall & Hval & Hne).
    exists ds. split; [|split; [exact Hall|split; [exact Hval|apply Hne; lia]]].
    change (pretty (Z.pos p)) with (pretty_N_go (N.pos p) "").
    rewrite Hjs. apply app_nil_r.
Qed.















Section TimeFacts.
Variable parseFloat : jsstring → option Q.


End TimeFacts.


(** ** WAV files *)

Lemma byte_value_byte_of_Z (z : Z) :
  byte_value (Processor.byte_of_Z z) = (z mod 256)%Z.
Proof.
  unfold byte_value, Processor.byte_of_Z.
  assert (H : (0 <= z mod 256 < 256)%Z) by (apply Z.mod_pos_bound; lia).
  destruct (Byte.of_N (Z.to_N (z mod 256))) as [b|] eqn:E.
  - apply Byte.to_of_N in E. change (default Byte.x00 (Some b)) with b.
    rewrite E. lia.
  - exfalso. pose proof (Byte.to_of_N_option_map (Z.to_N (z mod 256))) as Hm.
    rewrite E in Hm. cbn in Hm.
    destruct (N.leb_spec (Z.to_N (z mod 256)) 255); [discriminate|lia].
Qed.

Lemma getUint16_u16le (n : Z) (rest : Bytes) :
  getUint16 (Processor.u16le n ++ rest) 0 = Some (n mod 65536)%Z.
Proof.
  unfold getUint16, Processor.u16le. cbn [drop app].
  rewrite !byte_value_byte_of_Z. f_equal.
  pose proof (Z.div_mod n 256 ltac:(lia)).
  pose proof (Z.div_mod (n / 256) 256 ltac:(lia)).
  pose proof (Z.mod_pos_bound n 256 ltac:(lia)).
  pose proof (Z.mod_pos_bound (n / 256) 256 ltac:(lia)).
  apply (Z.mod_unique_pos _ _ (n / 256 / 256)); lia.
Qed.

Lemma getUint32_u32le (n : Z) (rest : Bytes) :
  getUint32 (Processor.u32le n ++ rest) 0 = Some (n mod 4294967296)%Z.
Proof.
  unfold getUint32, Processor.u32le. cbn [drop app].
  rewrite !byte_value_byte_of_Z. f_equal.
  replace (n / 65536)%Z with (n / 256 / 256)%Z
    by (rewrite Z.div_div by lia; reflexivity).
  replace (n / 16777216)%Z with (n / 256 / 256 / 256)%Z
    by (rewrite !Z.div_div by lia; reflexivity).
  pose proof (Z.div_mod n 256 ltac:(lia)).
  pose proof (Z.div_mod (n / 256) 256 ltac:(lia)).
  pose proof (Z.div_mod (n / 256 / 256) 256 ltac:(lia)).
  pose proof (Z.div_mod (n / 256 / 256 / 256) 256 ltac:(lia)).
  pose proof (Z.mod_pos_bound n 256 ltac:(lia)).
  pose proof (Z.mod_pos_bound (n / 256) 256 ltac:(lia)).
  pose proof (Z.mod_pos_bound (n / 256 / 256) 256 ltac:(lia)).
  pose proof (Z.mod_pos_bound (n / 256 / 256 / 256) 256 ltac:(lia)).
  apply (Z.mod_unique_pos _ _ (n / 256 / 256 / 256 / 256)); lia.
Qed.

Lemma getUint_drop (bytes : Bytes) (offset : nat) :
  getUint16 bytes offset = getUint16 (drop offset bytes) 0 /\
  getUint32 bytes offset = getUint32 (drop offset bytes) 0.
Proof. unfold getUint16, getUint32. rewrite !drop_0. split; reflexivity. Qed.

(** The header that [audioToWav] writes, and the samples after it. *)
Lemma audioToWav_parts (audioData : list Q) (sampleRate : Z) :
  exists header,
    length header = 44%nat /\
    audioToWav audioData sampleRate
    = header ++ concat (map (λ x, i16le (intSample x)) audioData) /\
    take 4 header = encode "RIFF" /\
    drop 4 header
    = Processor.u32le (44 + Z.of_nat (length audioData) * 2 - 8) ++ drop 8 header /\
    take 8 (drop 8 header) = encode "WAVEfmt " /\
    drop 16 header = Processor.u32le 16 ++ drop 20 header /\
    drop 20 header = Processor.u16le 1 ++ drop 22 header /\
    drop 22 header = Processor.u16le 1 ++ drop 24 header /\
    drop 24 header = Processor.u32le sampleRate ++ drop 28 header /\
    drop 28 header = Processor.u32le (sampleRate * 2) ++ drop 32 header /\
    drop 32 header = Processor.u16le 2 ++ drop 34 header /\
    drop 34 header = Processor.u16le 16 ++ drop 36 header /\
    take 4 (drop 36 header) = encode "data" /\
    drop 40 header = Processor.u32le (Z.of_nat (length audioData) * 2).
Proof.
  eexists (encode "RIFF" ++ Processor.u32le _ ++ encode "WAVE" ++ encode "fmt "
           ++ Processor.u32le 16 ++ Processor.u16le 1 ++ Processor.u16le _
           ++ Processor.u32le sampleRate ++ Processor.u32le _
           ++ Processor.u16le _ ++ Processor.u16le _
           ++ encode "data" ++ Processor.u32le _).
  split; [reflexivity|]. split.
  { unfold audioToWav. cbv zeta. rewrite <- !app_assoc. reflexivity. }
  repeat split; reflexivity.
Qed.


Lemma clamp1_in_range (x : Q) : in_range (clamp1 x).
Proof.
  unfold clamp1, in_range.
  destruct (Q.max_spec (-1) (Qmin 1 x)) as [[H1 H2]|[H1 H2]];
    destruct (Q.min_spec 1 x) as [[H3 H4]|[H3 H4]]; rewrite H2; lra.
Qed.

Lemma clamp1_id (x : Q) : in_range x -> clamp1 x == x.
Proof.
  unfold clamp1, in_range. intros [Ha Hb].
  destruct (Q.max_spec (-1) (Qmin 1 x)) as [[H1 H2]|[H1 H2]];
    destruct (Q.min_spec 1 x) as [[H3 H4]|[H3 H4]]; rewrite H2; lra.
Qed.

Lemma intSample_cases (x : Q) :
  (clamp1 x < 0 /\ intSample x = Qceiling (clamp1 x * 32768)) \/
  (0 <= clamp1 x /\ intSample x = Qfloor (clamp1 x * 32767)).
Proof.
  unfold intSample. cbv zeta. unfold Qtruncate.
  destruct (Qle_bool 0 (clamp1 x)) eqn:E; cbn [negb].
  - right. apply Qle_bool_iff in E. split; [exact E|].
    assert (H : Qle_bool 0 (clamp1 x * 32767) = true) by (apply Qle_bool_iff; lra).
    rewrite H. reflexivity.
  - left. assert (Hs : clamp1 x < 0).
    { apply Qnot_le_lt. intros H. apply Qle_bool_iff in H. congruence. }
    split; [exact Hs|].
    destruct (Qle_bool 0 (clamp1 x * 32768)) eqn:E2; [|reflexivity].
    apply Qle_bool_iff in E2. lra.
Qed.

Lemma intSample_range (x : Q) : (-32768 <= intSample x <= 32767)%Z.
Proof.
  destruct (clamp1_in_range x) as [Ha Hb].
  destruct (intSample_cases x) as [[Hs ->]|[Hs ->]].
  - split.
    + rewrite <- (Qceiling_Z (-32768)). apply Qceiling_resp_le.
      change (inject_Z (-32768)) with (-32768 # 1). lra.
    + apply Z.le_trans with 0%Z; [|lia].
      rewrite <- (Qceiling_Z 0). apply Qceiling_resp_le.
      change (inject_Z 0) with 0. lra.
  - split.
    + apply Z.le_trans with 0%Z; [lia|].
      rewrite <- (Qfloor_Z 0). apply Qfloor_resp_le.
      change (inject_Z 0) with 0. lra.
    + pose proof (Qfloor_resp_le (clamp1 x * 32767) (inject_Z 32767)) as H.
      rewrite Qfloor_Z in H. apply H.
      change (inject_Z 32767) with (32767 # 1). lra.
Qed.

Lemma intSample_close (x : Q) :
  Qabs (inject_Z (intSample x) / 32768 - clamp1 x) < 1 # 16384.
Proof.
  destruct (clamp1_in_range x) as [Ha Hb].
  apply Qabs_Qlt_condition.
  assert (Hdiv : forall q : Q, q / 32768 == q * (1 # 32768)) by (intros q; field).
  rewrite Hdiv.
  destruct (intSample_cases x) as [[Hs ->]|[Hs ->]].
  - pose proof (Qle_ceiling (clamp1 x * 32768)) as H1.
    pose proof (Qceiling_lt (clamp1 x * 32768)) as H2.
    rewrite inject_Z_sub in H2. change (inject_Z 1) with 1 in H2. lra.
  - pose proof (Qfloor_le (clamp1 x * 32767)) as H1.
    pose proof (Qlt_floor (clamp1 x * 32767)) as H2.
    rewrite inject_Z_plus in H2. change (inject_Z 1) with 1 in H2. lra.
Qed.

Lemma drop_samples (f : Q -> Bytes) (audioData : list Q) (i : nat) (x : Q) :
  (forall y, length (f y) = 2%nat) ->
  audioData !! i = Some x ->
  drop (2 * i) (concat (map f audioData))
  = f x ++ concat (map f (drop (S i) audioData)).
Proof.
  intros Hf. revert i. induction audioData as [|y rest IH]; intros i Hi; [done|].
  destruct i as [|i].
  - injection Hi as ->. reflexivity.
  - cbn [map concat]. replace (2 * S i)%nat with (2 + 2 * i)%nat by lia.
    rewrite drop_app_add' by (symmetry; apply Hf).
    exact (IH i Hi).
Qed.

Lemma length_samples (f : Q -> Bytes) (audioData : list Q) :
  (forall y, length (f y) = 2%nat) ->
  length (concat (map f audioData)) = (2 * length audioData)%nat.
Proof.
  intros Hf. induction audioData as [|y rest IH]; [reflexivity|].
  cbn [map concat length]. rewrite length_app, Hf, IH. lia.
Qed.

Lemma int16_back (n : Z) :
  (-32768 <= n <= 32767)%Z ->
  (if (n mod 65536 <? 32768)%Z then n mod 65536 else n mod 65536 - 65536)%Z = n.
Proof.
  intros Hn. destruct (Z.le_gt_cases 0 n) as [Hpos|Hneg].
  - rewrite Z.mod_small by lia. destruct (Z.ltb_spec n 32768); lia.
  - assert (E : (n mod 65536 = n + 65536)%Z).
    { symmetry. apply (Z.mod_unique_pos _ _ (-1)); lia. }
    rewrite E. destruct (Z.ltb_spec (n + 65536) 32768); lia.
Qed.

(** X18.  The file that [audioToWav] makes of [audioData] at a whole
    sample rate is 44 bytes of header and two bytes a sample.  When its
    size and byte rate fit 32 bits, the header reads back as a mono
    16-bit PCM WAV: the tags RIFF, WAVE, fmt and data at their places, a
    RIFF size of the file's length less 8, a 16-byte format chunk of
    format 1 with 1 channel, the sample rate, a byte rate of twice the
    sample rate, a block of 2 bytes, 16 bits a sample, and a data size of
    the file's length less 44. *)
Theorem audioToWav_header (audioData : list Q) (sampleRate : Z) :
  (0 <= sampleRate)%Z -> (sampleRate * 2 < 2 ^ 32)%Z ->
  (44 + 2 * Z.of_nat (length audioData) < 2 ^ 32)%Z ->
  length (audioToWav audioData sampleRate) = (44 + 2 * length audioData)%nat /\
  take 4 (audioToWav audioData sampleRate) = encode "RIFF" /\
  take 8 (drop 8 (audioToWav audioData sampleRate)) = encode "WAVEfmt " /\
  take 4 (drop 36 (audioToWav audioData sampleRate)) = encode "data" /\
  getUint32 (audioToWav audioData sampleRate) 4
  = Some (Z.of_nat (length (audioToWav audioData sampleRate)) - 8)%Z /\
  getUint32 (audioToWav audioData sampleRate) 16 = Some 16%Z /\
  getUint16 (audioToWav audioData sampleRate) 20 = Some 1%Z /\
  getUint16 (audioToWav audioData sampleRate) 22 = Some 1%Z /\
  getUint32 (audioToWav audioData sampleRate) 24 = Some sampleRate /\
  getUint32 (audioToWav audioData sampleRate) 28 = Some (sampleRate * 2)%Z /\
  getUint16 (audioToWav audioData sampleRate) 32 = Some 2%Z /\
  getUint16 (audioToWav audioData sampleRate) 34 = Some 16%Z /\
  getUint32 (audioToWav audioData sampleRate) 40
  = Some (Z.of_nat (length (audioToWav audioData sampleRate)) - 44)%Z.
Proof.
  intros Hrate Hbyte Hsize.
  destruct (audioToWav_parts audioData sampleRate)
    as (header & Hlen & -> & H0 & H4 & H8 & H16 & H20 & H22 & H24 & H28 & H32 & H34
        & H36 & H40).
  set (data := concat (map (λ x, i16le (intSample x)) audioData)).
  assert (Hdata : length data = (2 * length audioData)%nat)
    by (apply length_samples; reflexivity).
  assert (Hwav : length (header ++ data) = (44 + 2 * length audioData)%nat)
    by (rewrite length_app; lia).
  assert (Hd : forall k, (k <= 44)%nat -> drop k (header ++ data) = drop k header ++ data)
    by (intros k Hk; apply drop_app_le; lia).
  assert (H16' : forall n rest, (0 <= n < 65536)%Z ->
            getUint16 (Processor.u16le n ++ rest) 0 = Some n)
    by (intros n rest Hn; rewrite getUint16_u16le, Z.mod_small by lia; reflexivity).
  assert (H32' : forall n rest, (0 <= n < 2 ^ 32)%Z ->
            getUint32 (Processor.u32le n ++ rest) 0 = Some n)
    by (intros n rest Hn; rewrite getUint32_u32le, Z.mod_small by lia; reflexivity).
  rewrite Hwav.
  repeat split.
  - rewrite take_app_le by lia. exact H0.
  - rewrite Hd by lia. rewrite take_app_le by (rewrite length_drop; lia). exact H8.
  - rewrite Hd by lia. rewrite take_app_le by (rewrite length_drop; lia). exact H36.
  - rewrite (proj2 (getUint_drop _ _)), Hd, H4, <- app_assoc, H32' by lia.
    f_equal. lia.
  - rewrite (proj2 (getUint_drop _ _)), Hd, H16, <- app_assoc, H32' by lia.
    reflexivity.
  - rewrite (proj1 (getUint_drop _ _)), Hd, H20, <- app_assoc, H16' by lia.
    reflexivity.
  - rewrite (proj1 (getUint_drop _ _)), Hd, H22, <- app_assoc, H16' by lia.
    reflexivity.
  - rewrite (proj2 (getUint_drop _ _)), Hd, H24, <- app_assoc, H32' by lia.
    reflexivity.
  - rewrite (proj2 (getUint_drop _ _)), Hd, H28, <- app_assoc, H32' by lia.
    reflexivity.
  - rewrite (proj1 (getUint_drop _ _)), Hd, H32, <- app_assoc, H16' by lia.
    reflexivity.
  - rewrite (proj1 (getUint_drop _ _)), Hd, H34, <- app_assoc, H16' by lia.
    reflexivity.
  - rewrite (proj2 (getUint_drop _ _)), Hd, H40, H32' by lia.
    f_equal. lia.
Qed.

Lemma audioToWav_header_witness :
  getUint32 (audioToWav [1 # 2; -1] 22050) 24 = Some 22050%Z /\
  getUint32 (audioToWav [1 # 2; -1] 22050) 40 = Some 4%Z.
Proof.
  pose proof (audioToWav_header [1 # 2; -1] 22050 ltac:(lia) ltac:(lia)
                ltac:(cbn; lia)) as H.
  destruct H as (Hlen & _ & _ & _ & _ & _ & _ & _ & H24 & _ & _ & _ & H40).
  rewrite Hlen in H40. split; [exact H24|exact H40].
Defined.

(** X19.  The sample that [audioToWav] stores for the sample at index
    [i] reads back, as a signed 16-bit number at byte 44 + 2i, as a whole
    number between -32768 and 32767 that, divided by 32768, is within
    1/16384 of the sample clamped to [-1, 1] (so of the sample itself
    when it lies in that range). *)
Theorem audioToWav_samples (audioData : list Q) (sampleRate : Z) (i : nat) (x : Q) :
  audioData !! i = Some x ->
  exists n,
    getInt16 (audioToWav audioData sampleRate) (44 + 2 * i) = Some n /\
    (-32768 <= n <= 32767)%Z /\
    Qabs (inject_Z n / 32768 - clamp1 x) < 1 # 16384 /\
    (in_range x -> Qabs (inject_Z n / 32768 - x) < 1 # 16384).
Proof.
  intros Hi. exists (intSample x).
  pose proof (intSample_range x) as Hr.
  pose proof (intSample_close x) as Hc.
  repeat split; [|lia|lia|exact Hc|].
  - destruct (audioToWav_parts audioData sampleRate) as (header & Hlen & -> & _).
    unfold getInt16. rewrite (proj1 (getUint_drop _ _)).
    rewrite drop_app_add' by (symmetry; exact Hlen).
    rewrite (drop_samples (λ y, i16le (intSample y)) _ _ _ (λ _, eq_refl) Hi).
    unfold i16le at 1. rewrite getUint16_u16le. cbn [fmap option_fmap option_map].
    f_equal. apply int16_back. exact Hr.
  - intros Hx. pose proof (clamp1_id x Hx) as Hid.
    apply Qabs_Qlt_condition in Hc. apply Qabs_Qlt_condition. lra.
Qed.

Lemma audioToWav_samples_witness :
  exists n,
    getInt16 (audioToWav [1 # 2; -1] 22050) (44 + 2 * 1) = Some n /\
    (-32768 <= n <= 32767)%Z /\
    Qabs (inject_Z n / 32768 - clamp1 (-1)) < 1 # 16384 /\
    (in_range (-1) -> Qabs (inject_Z n / 32768 - -1) < 1 # 16384).
Proof. exact (audioToWav_samples [1 # 2; -1] 22050 1 (-1) eq_refl). Defined.


(** ** Placeholder speech *)









(** ** Mixing *)

Section MixFacts.
Variable fround : Q → Q.
(** Rounding to single precision keeps a number between -1 and 1 there
    (both bounds are single-precision numbers). *)
Hypothesis fround_in_range : forall x, in_range x -> in_range (fround x).

Lemma mix_channel_in_range (primaryData secondaryData : list Q) (secondaryVolume : Q) :
  length (mix_channel fround primaryData secondaryData secondaryVolume)
  = length primaryData /\
  Forall in_range (mix_channel fround primaryData secondaryData secondaryVolume).
Proof.
  unfold mix_channel. split; [apply length_imap|].
  apply Forall_forall. intros x Hx.
  apply elem_of_lookup_imap_1 in Hx as (i & p & -> & _).
  apply fround_in_range, clamp1_in_range.
Qed.

(** X22.  [mixAudioBuffers] on two buffers as the Web Audio API makes
    them returns a buffer of the primary one's shape: as many channels,
    as many frames in each, the same sample rate, whatever the length and
    the number of channels of the secondary one.  Every sample of the
    result lies between -1 and 1, whatever the inputs and the volume
    are. *)
Theorem mixAudioBuffers_shape_and_range (primary secondary : AudioBuffer)
    (secondaryVolume : Q) :
  well_formed primary -> (1 <= numberOfChannels secondary)%nat ->
  exists result,
    mixAudioBuffers fround primary secondary secondaryVolume = Ok result /\
    well_formed result /\
    numberOfChannels result = numberOfChannels primary /\
    ab_length result = ab_length primary /\
    ab_sampleRate result = ab_sampleRate primary /\
    Forall (Forall in_range) (channels result).
Proof.
  intros (Hch & Hlen & Hall) Hsec. unfold mixAudioBuffers.
  destruct (Nat.eqb_spec (numberOfChannels primary) 0) as [E|_]; [lia|].
  destruct (Nat.eqb_spec (ab_length primary) 0) as [E|_]; [lia|].
  cbn [orb]. destruct (numberOfChannels secondary) as [|last_channel]; [lia|].
  eexists. split; [reflexivity|].
  set (mixed := imap _ (channels primary)).
  assert (Hmixed : forall data, data ∈ mixed ->
            length data = ab_length primary /\ Forall in_range data).
  { intros data Hdata. apply elem_of_lookup_imap_1 in Hdata as (c & p & -> & Hp).
    destruct (mix_channel_in_range p
                (default [] (channels secondary !! Nat.min c last_channel))
                secondaryVolume) as [Hl Hr].
    split; [|exact Hr]. rewrite Hl.
    rewrite Forall_forall in Hall. apply Hall. eapply list_elem_of_lookup_2, Hp. }
  assert (Hn : length mixed = numberOfChannels primary) by apply length_imap.
  assert (Hfirst : ab_length (mkAudioBuffer mixed (ab_sampleRate primary))
                   = ab_length primary).
  { unfold ab_length at 1. cbn [channels].
    destruct mixed as [|data rest] eqn:E; [cbn in Hn; lia|].
    cbn [head default from_option id]. apply Hmixed. left. }
  split; [|split; [exact Hn|split; [exact Hfirst|split; [reflexivity|]]]].
  - split; [unfold numberOfChannels; cbn [channels]; lia|].
    split; [rewrite Hfirst; exact Hlen|].
    rewrite Hfirst. cbn [channels]. apply Forall_forall. intros data Hdata.
    apply Hmixed, Hdata.
  - cbn [channels]. apply Forall_forall. intros data Hdata. apply Hmixed, Hdata.
Qed.
End MixFacts.

Lemma mixAudioBuffers_shape_and_range_witness :
  exists result,
    mixAudioBuffers id (mkAudioBuffer [[1; -1 # 2; 0]; [0; 0; 1]] 44100)
      (mkAudioBuffer [[1; -1]] 48000) (15 # 100) = Ok result /\
    well_formed result /\
    numberOfChannels result = 2%nat /\
    ab_length result = 3%nat /\
    ab_sampleRate result = 44100 /\
    Forall (Forall in_range) (channels result).
Proof.
  apply (mixAudioBuffers_shape_and_range id (λ x H, H)
           (mkAudioBuffer [[1; -1 # 2; 0]; [0; 0; 1]] 44100)
           (mkAudioBuffer [[1; -1]] 48000) (15 # 100)).
  - split; [cbn; lia|]. split; [cbn; lia|]. repeat constructor.
  - cbn. lia.
Defined.


(** ** The project store *)

Lemma length_delete_lt {A : Type} (i : nat) (l : list A) :
  (i < length l)%nat -> length (delete i l) = (length l - 1)%nat.
Proof.
  revert i. induction l as [|x l IH]; intros [|i] Hi; cbn in *; try lia.
  rewrite IH by lia. lia.
Qed.

Lemma delete_ge {A : Type} (i : nat) (l : list A) :
  (length l <= i)%nat -> delete i l = l.
Proof.
  revert i. induction l as [|x l IH]; intros [|i] Hi; cbn in *; try lia;
    try reflexivity.
  f_equal. apply IH. lia.
Qed.

Lemma delete_middle {A : Type} (l1 l2 : list A) (x : A) :
  delete (length l1) (l1 ++ x :: l2) = l1 ++ l2.
Proof. induction l1 as [|y l1 IH]; [reflexivity|]. cbn. f_equal. exact IH. Qed.

(** X23.  [reorderSegments(fromIndex, toIndex)], for indices from 0 on.
    When [fromIndex] is the index of a segment, the result holds the same
    segments (a permutation, none undefined); the segment that was at
    [fromIndex] is at [toIndex], or last when [toIndex] is beyond the end,
    and the other segments keep their order.  When [fromIndex] is not an
    index of the array, nothing is removed and [undefined] is inserted:
    the array becomes one longer. *)
Theorem reorderSegments_moves {A : Type} (fromIndex toIndex : nat) (segments : list A) :
  match segments !! fromIndex with
  | Some segment =>
      exists moved,
        reorderSegments fromIndex toIndex segments = Some <$> moved /\
        moved ≡ₚ segments /\
        moved !! Nat.min toIndex (length segments - 1) = Some segment /\
        delete (Nat.min toIndex (length segments - 1)) moved
        = delete fromIndex segments
  | None =>
      length (reorderSegments fromIndex toIndex segments) = S (length segments) /\
      reorderSegments fromIndex toIndex segments !! Nat.min toIndex (length segments)
      = Some None /\
      delete (Nat.min toIndex (length segments))
        (reorderSegments fromIndex toIndex segments)
      = Some <$> segments
  end.
Proof.
  unfold reorderSegments. cbv zeta.
  destruct (segments !! fromIndex) as [segment|] eqn:E.
  - pose proof (lookup_lt_Some _ _ _ E) as Hlt.
    set (rest := delete fromIndex segments).
    assert (Hrest : length rest = (length segments - 1)%nat)
      by (apply length_delete_lt, Hlt).
    exists (take toIndex rest ++ segment :: drop toIndex rest).
    assert (Hlen : length (take toIndex rest) = Nat.min toIndex (length segments - 1))
      by (rewrite length_take; lia).
    split; [|split; [|split]].
    + rewrite <- list_fmap_delete. fold rest.
      rewrite fmap_app, fmap_cons, fmap_take, fmap_drop. reflexivity.
    + rewrite <- Permutation_middle, take_drop.
      unfold rest. rewrite delete_take_drop, Permutation_middle.
      rewrite (take_drop_middle _ _ _ E). reflexivity.
    + rewrite <- Hlen. apply list_lookup_middle. reflexivity.
    + rewrite <- Hlen, delete_middle, take_drop. reflexivity.
  - pose proof (lookup_ge_None_1 _ _ E) as Hge.
    rewrite delete_ge by (rewrite length_fmap; exact Hge).
    set (l := Some <$> segments).
    assert (Hl : length l = length segments) by apply length_fmap.
    assert (Hlen : length (take toIndex l) = Nat.min toIndex (length segments))
      by (rewrite length_take; lia).
    split; [|split].
    + rewrite length_app, length_cons, length_take, length_drop. lia.
    + rewrite <- Hlen. apply list_lookup_middle. reflexivity.
    + rewrite <- Hlen, delete_middle, take_drop. reflexivity.
Qed.


(** ** Uploading *)

Lemma sanitizedName_chars (name : jsstring) :
  Forall is_name_char (sanitizedName name).
Proof.
  unfold sanitizedName. apply Forall_forall. intros c Hc.
  apply list_elem_of_fmap in Hc as (c0 & -> & _).
  unfold is_name_char. destruct (is_safe_char c0) eqn:E; auto.
Qed.

Lemma digit_is_name_char (d : N) : (d < 10)%N -> is_name_char (d + 48)%N.
Proof.
  intros Hd. left.
  assert (H : (d = 0 \/ d = 1 \/ d = 2 \/ d = 3 \/ d = 4 \/ d = 5 \/ d = 6 \/ d = 7
               \/ d = 8 \/ d = 9)%N) by lia.
  repeat (destruct H as [->|H]; [reflexivity|]). subst d. reflexivity.
Qed.

(** X24.  The upload route, for a request that carries a file.  A file
    whose type is not one of the four video types, or that is larger than
    500 MB, is answered with status 400 and is not handed to the storage
    (the answer is the same whatever the storage does).  Any other file
    is handed to the storage once, under the name uploads/, the time in
    digits, a dash and the file's name with every character other than
    letters, digits, dot and dash replaced by an underscore: after
    uploads/ the name holds only such characters and underscores (no
    slash), and the replaced name is as long as the file's name.  The
    answer is 200 with the stored blob's data when the storage succeeds
    and 500 when it throws. *)
Theorem POST_upload_stores_safely (put : jsstring → File → result PutBlobResult)
    (now : Z) (file : File) :
  (0 <= now)%Z ->
  (~ acceptable file ->
   up_status (POST_upload put now (Ok (Some file))) = 400%nat /\
   forall put', POST_upload put' now (Ok (Some file))
                = POST_upload put now (Ok (Some file))) /\
  (acceptable file ->
   POST_upload put now (Ok (Some file))
   = match put (upload_filename now file) file with
     | Ok blob =>
         mkUploadResponse 200
           (upload_stored (blob_url blob) (blob_pathname blob)
              (blob_contentType blob) (file_size file))
     | Throw _ => mkUploadResponse 500 (upload_error "Failed to upload file")
     end) /\
  take 8 (upload_filename now file) = js "uploads/" /\
  Forall is_name_char (drop 8 (upload_filename now file)) /\
  length (sanitizedName (file_name file)) = length (file_name file) /\
  (Forall (λ c, is_safe_char c = true) (file_name file) ->
   sanitizedName (file_name file) = file_name file).
Proof.
  intros Hnow. unfold acceptable, POST_upload.
  split; [|split; [|split; [|split; [|split]]]].
  - intros Hno.
    destruct (bool_decide (file_type file ∈ validTypes)) eqn:Et; cbn [negb].
    + apply bool_decide_eq_true in Et.
      destruct (Z.ltb_spec maxSize (file_size file)) as [Hs|Hs]; [auto|].
      exfalso. apply Hno. split; [exact Et|exact Hs].
    + auto.
  - intros [Ht Hs].
    rewrite (bool_decide_eq_true_2 _ Ht). cbn [negb].
    destruct (Z.ltb_spec maxSize (file_size file)) as [Hs'|_]; [lia|].
    reflexivity.
  - reflexivity.
  - unfold upload_filename.
    change (drop 8 (js "uploads/" ++ ?rest)) with rest.
    destruct (pretty_Z_digits now Hnow) as (ds & -> & Hds & _).
    apply Forall_app. split.
    + apply Forall_forall. intros c Hc.
      apply list_elem_of_fmap in Hc as (d & -> & Hd).
      rewrite Forall_forall in Hds. apply digit_is_name_char, Hds, Hd.
    + constructor; [left; reflexivity|]. apply sanitizedName_chars.
  - unfold sanitizedName. apply length_map.
  - intros Hsafe. unfold sanitizedName.
    induction Hsafe as [|c rest Hc _ IH]; [reflexivity|].
    cbn [map]. rewrite Hc, IH. reflexivity.
Qed.

Lemma POST_upload_stores_safely_witness :
  upload_filename 1700000000000 (mkFile (js "my clip (1).mp4") "video/mp4" 1024)
  = js "uploads/1700000000000-my_clip__1_.mp4" /\
  Forall is_name_char
    (drop 8 (upload_filename 1700000000000
               (mkFile (js "my clip (1).mp4") "video/mp4" 1024))).
Proof.
  split; [reflexivity|].
  apply (POST_upload_stores_safely (λ _ _, Throw "offline") 1700000000000
           (mkFile (js "my clip (1).mp4") "video/mp4" 1024)).
  lia.
Defined.


(** ** Word timings by characters *)

Lemma alter_last_equiv (a b e : Q) (ws : list CaptionWord) :
  tiles a ws b -> b == e ->
  Forall2 cw_equiv (alter (set_endTime e) (length ws - 1)%nat ws) ws.
Proof.
  intros Ht He. revert a Ht. induction ws as [|w rest IH]; intros a Ht; [destruct Ht|].
  cbn [tiles] in Ht. destruct Ht as (_ & _ & Hrest).
  destruct rest as [|w' rest'].
  - cbn. constructor; [|constructor].
    unfold cw_equiv. cbn. repeat split; try reflexivity. rewrite Hrest, He. reflexivity.
  - replace (length (w :: w' :: rest') - 1)%nat with (S (length (w' :: rest') - 1))
      by (cbn [length]; lia).
    change (alter ?f (S ?n) (w :: ?l)) with (w :: alter f n l).
    constructor; [repeat split; reflexivity|].
    exact (IH (endTime w) Hrest).
Qed.

Lemma totalChars_sum (words : list jsstring) (a : Q) :
  fold_left (λ sum w, sum + inject_Z (Z.of_nat (length w))) words a
  == a + chars_of words.
Proof.
  unfold chars_of. revert a. induction words as [|w rest IH]; intros a.
  - unfold sumQ. cbn. lra.
  - cbn [fold_left map]. rewrite IH, sumQ_cons. lra.
Qed.

Lemma word_chars_pos (w : jsstring) : w <> [] -> 0 < inject_Z (Z.of_nat (length w)).
Proof.
  intros Hw. destruct w as [|c w]; [congruence|].
  change 0 with (inject_Z 0). rewrite <- Zlt_Qlt. cbn [length]. lia.
Qed.

Lemma chars_of_pos (words : list jsstring) :
  words <> [] -> Forall (λ w, w <> []) words -> 0 < chars_of words.
Proof.
  intros Hne Hall. apply sumQ_pos.
  - destruct words; [congruence|discriminate].
  - apply Forall_map. eapply Forall_impl; [exact Hall|].
    intros w Hw. apply word_chars_pos, Hw.
Qed.

Lemma char_timings_loop_tiles (cps : Q) (words : list jsstring) (t : Q) :
  0 < cps -> words <> [] -> Forall (λ w, w <> []) words ->
  tiles t (char_timings_loop cps words t) (t + chars_of words / cps).
Proof.
  intros Hcps Hne Hall. revert t Hne.
  induction Hall as [|w rest Hw Hrest IH]; intros t Hne; [done|].
  assert (Hd : 0 < inject_Z (Z.of_nat (length w)) / cps).
  { apply Qlt_shift_div_l; [exact Hcps|]. pose proof (word_chars_pos w Hw). lra. }
  cbn [char_timings_loop tiles startTime endTime]. split; [reflexivity|].
  split; [lra|].
  destruct rest as [|w' rest'].
  - cbn [char_timings_loop]. unfold chars_of, sumQ. cbn. field. lra.
  - change (char_timings_loop cps (w' :: rest') ?t0)
      with (mkCaptionWord w' t0 (t0 + inject_Z (Z.of_nat (length w')) / cps)
            :: char_timings_loop cps rest' (t0 + inject_Z (Z.of_nat (length w')) / cps)).
    cbv beta iota.
    change (mkCaptionWord w' ?t0 ?e :: char_timings_loop cps rest' ?e)
      with (char_timings_loop cps (w' :: rest') t0).
    eapply tiles_end; [|apply IH; discriminate].
    unfold chars_of. rewrite (map_cons _ w), sumQ_cons. field. lra.
Qed.

Lemma char_timings_loop_shares (cps : Q) (words : list jsstring) (t : Q) :
  Forall2 (λ x w, cw_text x = w /\
                  endTime x - startTime x == inject_Z (Z.of_nat (length w)) / cps)
    (char_timings_loop cps words t) words.
Proof.
  revert t. induction words as [|w rest IH]; intros t; cbn [char_timings_loop];
    constructor.
  - cbn. split; [reflexivity|lra].
  - apply IH.
Qed.

Lemma shares_equiv (l k : list CaptionWord) (ws : list jsstring) (f g : jsstring → Q) :
  Forall2 cw_equiv l k ->
  Forall2 (λ x w, cw_text x = w /\ endTime x - startTime x == f w) k ws ->
  (forall w, f w == g w) ->
  Forall2 (λ x w, cw_text x = w /\ endTime x - startTime x == g w) l ws.
Proof.
  intros Hequiv Hsh Hfg. revert ws Hsh.
  induction Hequiv as [|x y l k (Ht & Hs & He) _ IH]; intros ws Hsh.
  - inversion Hsh. constructor.
  - inversion Hsh as [|y0 w l0 ws' (Hyt & Hyd) Hrest]; subst.
    constructor; [|apply IH; exact Hrest].
    split; [exact Ht|]. rewrite Hs, He, Hyd. apply Hfg.
Qed.

(** X25.  The fallback word timings of the speech module
    ([estimateWordTimings(text, duration)] of [lib/piper/synthesize.ts]),
    for a text with at least one word and a positive duration: there is
    one timing per word, in order; the timings follow one another from 0
    to [duration] without gap or overlap, each of positive length; and
    the time given to a word is the share of [duration] that its number
    of characters has in the number of characters of all the words.  A
    text without a word gets no timing. *)
Theorem estimateWordTimings_by_chars_tiles (text : jsstring) (duration : Q) :
  0 < duration ->
  (words_of text = [] -> estimateWordTimings_by_chars text duration = []) /\
  (words_of text <> [] ->
   tiles 0 (estimateWordTimings_by_chars text duration) duration /\
   Forall2 (λ x w, cw_text x = w /\
                   endTime x - startTime x
                   == inject_Z (Z.of_nat (length w)) / chars_of (words_of text)
                      * duration)
     (estimateWordTimings_by_chars text duration) (words_of text)).
Proof.
  intros Hd. unfold estimateWordTimings_by_chars. cbv zeta. split.
  - intros ->. reflexivity.
  - intros Hne. pose proof (words_of_nonempty text) as Hall.
    set (words := words_of text) in *.
    pose proof (chars_of_pos words Hne Hall) as Hpos.
    destruct (Nat.eqb_spec (length words) 0) as [E|_].
    { destruct words; [congruence|discriminate]. }
    set (totalChars :=
           fold_left (λ sum w, sum + inject_Z (Z.of_nat (length w))) words 0).
    assert (Htotal : totalChars == chars_of words).
    { unfold totalChars. rewrite totalChars_sum. lra. }
    assert (Hcps : 0 < totalChars / duration).
    { apply Qlt_shift_div_l; [exact Hd|]. lra. }
    pose proof (char_timings_loop_tiles (totalChars / duration) words 0 Hcps Hne Hall)
      as Htiles.
    assert (Hend : 0 + chars_of words / (totalChars / duration) == duration).
    { rewrite Htotal. field. split; lra. }
    pose proof (alter_last_equiv _ _ duration _ Htiles Hend) as Hequiv.
    split.
    + apply (tiles_equiv _ _ _ _ (cw_equiv_list_sym _ _ Hequiv)).
      eapply tiles_end; [exact Hend|exact Htiles].
    + apply (shares_equiv _ _ _ _ _ Hequiv
               (char_timings_loop_shares (totalChars / duration) words 0)).
      intros w. rewrite Htotal. field. split; lra.
Qed.

Lemma estimateWordTimings_by_chars_tiles_witness :
  tiles 0 (estimateWordTimings_by_chars (js "one three") 4) 4.
Proof.
  apply (estimateWordTimings_by_chars_tiles (js "one three") 4); [reflexivity|].
  vm_compute. discriminate.
Defined.


(** ** The server's captions *)

Lemma server_captions_lookup (segments : list ScriptSegment) (durations : list Q)
    (i0 : nat) (t : Q) (k : nat) (segment : ScriptSegment) :
  segments !! k = Some segment ->
  exists currentTime,
    currentTime
    == t + sumQ (map (λ j, default 0 (durations !! j)) (seq i0 k)) /\
    Processor.generateCaptions_loop segments durations i0 t !! k
    = Some (mkSegmentCaptions (seg_id segment)
              (imap (λ wordIndex word,
                       mkCaptionWord word
                         (currentTime + inject_Z (Z.of_nat wordIndex)
                                        * (default 0 (durations !! (i0 + k)%nat)
                                           / inject_Z (Z.of_nat
                                               (length (words_of (script segment))))))
                         (currentTime + inject_Z (Z.of_nat wordIndex + 1)
                                        * (default 0 (durations !! (i0 + k)%nat)
                                           / inject_Z (Z.of_nat
                                               (length (words_of (script segment)))))))
                    (words_of (script segment)))).
Proof.
  revert i0 t k. induction segments as [|s rest IH]; intros i0 t k Hk; [done|].
  destruct k as [|k].
  - injection Hk as ->. exists t. split; [unfold sumQ; cbn; lra|].
    cbn [Processor.generateCaptions_loop]. rewrite Nat.add_0_r. reflexivity.
  - cbn [lookup list_lookup] in Hk.
    destruct (IH (S i0) (t + default 0 (durations !! i0)) k Hk) as (c & Hc & Hl).
    exists c. split.
    + rewrite Hc. cbn [seq map]. rewrite sumQ_cons. lra.
    + cbn [Processor.generateCaptions_loop]. cbv zeta.
      rewrite lookup_cons. rewrite Nat.add_succ_r. exact Hl.
Qed.

Lemma durations_before (durations : list Q) (i : nat) :
  (i <= length durations)%nat ->
  map (λ j, default 0 (durations !! j)) (seq 0 i) = take i durations.
Proof.
  revert i. induction durations as [|d rest IH]; intros i Hi.
  - cbn in Hi. assert (i = 0%nat) as -> by lia. reflexivity.
  - destruct i as [|i]; [reflexivity|].
    cbn [seq map take]. f_equal. rewrite <- seq_shift, map_map.
    apply IH. cbn in Hi. lia.
Qed.

Lemma uniform_words_tile (words : list jsstring) (t wordDuration : Q) (k0 : nat) :
  0 < wordDuration -> words <> [] ->
  tiles (t + inject_Z (Z.of_nat k0) * wordDuration)
    (imap (λ wordIndex word,
             mkCaptionWord word
               (t + inject_Z (Z.of_nat (k0 + wordIndex)) * wordDuration)
               (t + inject_Z (Z.of_nat (k0 + wordIndex) + 1) * wordDuration))
          words)
    (t + inject_Z (Z.of_nat (k0 + length words)) * wordDuration).
Proof.
  intros Hwd. revert k0. induction words as [|w rest IH]; intros k0 Hne; [congruence|].
  cbn [imap tiles startTime endTime]. rewrite Nat.add_0_r.
  split; [reflexivity|]. split.
  { rewrite inject_Z_plus. change (inject_Z 1) with 1. lra. }
  assert (Hnext : inject_Z (Z.of_nat k0 + 1) = inject_Z (Z.of_nat (S k0)))
    by (f_equal; lia).
  assert (Himap :
    imap ((λ wordIndex word,
             mkCaptionWord word
               (t + inject_Z (Z.of_nat (k0 + wordIndex)) * wordDuration)
               (t + inject_Z (Z.of_nat (k0 + wordIndex) + 1) * wordDuration)) ∘ S) rest
    = imap (λ wordIndex word,
              mkCaptionWord word
                (t + inject_Z (Z.of_nat (S k0 + wordIndex)) * wordDuration)
                (t + inject_Z (Z.of_nat (S k0 + wordIndex) + 1) * wordDuration)) rest).
  { apply imap_ext. intros j x _. cbn [compose].
    replace (k0 + S j)%nat with (S k0 + j)%nat by lia. reflexivity. }
  rewrite Himap, Hnext.
  destruct rest as [|w' rest'].
  - cbn [imap length]. replace (k0 + 1)%nat with (S k0) by lia. reflexivity.
  - specialize (IH (S k0) ltac:(discriminate)).
    replace (k0 + length (w :: w' :: rest'))%nat
      with (S k0 + length (w' :: rest'))%nat by (cbn [length]; lia).
    destruct (imap _ (w' :: rest')) eqn:E; [discriminate E|].
    exact IH.
Qed.

Lemma imap_text (f g : nat → Q) (words : list jsstring) :
  map cw_text (imap (λ k w, mkCaptionWord w (f k) (g k)) words) = words.
Proof.
  revert f g. induction words as [|w rest IH]; intros f g; [reflexivity|].
  cbn [imap map cw_text]. f_equal. exact (IH (f ∘ S) (g ∘ S)).
Qed.

(** X27.  The captions that the server-side orchestrator makes
    ([generateCaptions] of [lib/server/processor.ts]): for a segment with
    at least one word whose voiceover has a positive duration, the
    caption entry has the segment's id and one timing per word, in order;
    the timings all have the same length, the duration divided by the
    number of words, and follow one another without gap or overlap from
    the sum of the earlier durations to that sum plus the segment's
    duration. *)
Theorem server_captions_tile (segments : list ScriptSegment) (durations : list Q)
    (i : nat) (segment : ScriptSegment) (d : Q) :
  segments !! i = Some segment ->
  durations !! i = Some d ->
  0 < d ->
  words_of (script segment) <> [] ->
  exists cap,
    Processor.generateCaptions segments durations !! i = Some cap /\
    segmentId cap = seg_id segment /\
    map cw_text (cap_words cap) = words_of (script segment) /\
    Forall (λ word, endTime word - startTime word
                    == d / inject_Z (Z.of_nat (length (words_of (script segment)))))
      (cap_words cap) /\
    tiles (sumQ (take i durations)) (cap_words cap) (sumQ (take i durations) + d).
Proof.
  intros Hseg Hdur Hd Hwords.
  destruct (server_captions_lookup segments durations 0 0 i segment Hseg)
    as (c & Hc & Hl).
  fold (Processor.generateCaptions segments durations) in Hl.
  rewrite Nat.add_0_l, Hdur in Hl. cbn [default from_option id] in Hl.
  rewrite durations_before in Hc
    by (apply Nat.lt_le_incl, (lookup_lt_Some _ _ _ Hdur)).
  set (words := words_of (script segment)) in *.
  set (n := inject_Z (Z.of_nat (length words))) in *.
  assert (Hn : 0 < n).
  { unfold n. change 0 with (inject_Z 0). rewrite <- Zlt_Qlt.
    destruct words; [congruence|cbn [length]; lia]. }
  assert (Hwd : 0 < d / n) by (apply Qlt_shift_div_l; [exact Hn|lra]).
  eexists. split; [exact Hl|]. cbn [segmentId cap_words].
  split; [reflexivity|]. split; [|split].
  - apply (imap_text (λ k, c + inject_Z (Z.of_nat k) * (d / n))
             (λ k, c + inject_Z (Z.of_nat k + 1) * (d / n))).
  - apply Forall_forall. intros word Hword.
    apply elem_of_lookup_imap_1 in Hword as (k & w & -> & _).
    cbn [startTime endTime]. rewrite inject_Z_plus. change (inject_Z 1) with 1. lra.
  - pose proof (uniform_words_tile words c (d / n) 0 Hwd Hwords) as Ht.
    cbn [Nat.add] in Ht.
    eapply tiles_end; [|eapply tiles_start; [|exact Ht]].
    + rewrite Hc. fold n. field. lra.
    + rewrite Hc. change (inject_Z (Z.of_nat 0)) with 0. lra.
Qed.

Lemma server_captions_tile_witness :
  exists cap,
    Processor.generateCaptions two_segments [1; 2] !! 1%nat = Some cap /\
    segmentId cap = "b" /\
    tiles 1 (cap_words cap) 3.
Proof.
  destruct (server_captions_tile two_segments [1; 2] 1
              (mkScriptSegment "b" 1 (js "hi there") 10) 2)
    as (cap & Hcap & Hid & _ & _ & Ht).
  - reflexivity.
  - reflexivity.
  - reflexivity.
  - vm_compute. discriminate.
  - exists cap. split; [exact Hcap|]. split; [exact Hid|].
    eapply tiles_end; [|eapply tiles_start; [|exact Ht]]; reflexivity.
Defined.


(** ** Frames *)

Lemma pad3_digits (n : Z) :
  (0 <= n)%Z ->
  exists ds,
    js (pad3 n) = map (λ d, (d + 48)%N) ds /\
    Forall (λ d, (d < 10)%N) ds /\ digits_value ds = Z.to_N n.
Proof.
  intros Hn. destruct (pretty_Z_digits n Hn) as (ds & Hjs & Hall & Hval & Hne).
  unfold pad3.
  assert (Hlen : String.length (pretty n) = length ds).
  { rewrite <- js_length, Hjs. apply length_map. }
  rewrite Hlen. destruct ds as [|d [|d' [|d'' ds]]]; [congruence| | |]; cbn [length].
  - exists [0%N; 0%N; d]. split; [|split].
    + rewrite js_app, Hjs. reflexivity.
    + repeat constructor; try lia. inversion Hall; assumption.
    + rewrite <- Hval. reflexivity.
  - exists [0%N; d; d']. split; [|split].
    + rewrite js_app, Hjs. reflexivity.
    + constructor; [lia|exact Hall].
    + rewrite <- Hval. reflexivity.
  - exists (d :: d' :: d'' :: ds). split; [exact Hjs|]. split; [exact Hall|exact Hval].
Qed.

Lemma pad3_inj (a b : Z) : (0 <= a)%Z -> (0 <= b)%Z -> pad3 a = pad3 b -> a = b.
Proof.
  intros Ha Hb H.
  destruct (pad3_digits a Ha) as (da & Hja & _ & Hva).
  destruct (pad3_digits b Hb) as (db & Hjb & _ & Hvb).
  rewrite H, Hjb in Hja.
  assert (Hd : db = da).
  { clear -Hja. revert da Hja. induction db as [|x db IH]; intros [|y da] H;
      try discriminate; [reflexivity|].
    cbn [map] in H. injection H as Hxy Hrest. f_equal; [lia|apply IH, Hrest]. }
  subst db. lia.
Qed.

Lemma frameName_inj (i j : nat) : frameName i = frameName j -> i = j.
Proof.
  unfold frameName. intros H. apply String.app_inj in H. apply append_inj_r in H.
  apply pad3_inj in H; lia.
Qed.

Lemma frameName_not_input (i : nat) : frameName i <> "input.mp4".
Proof. unfold frameName. cbn. discriminate. Qed.

Section FramesFacts.
Variable ffmpeg_load : result unit.
Variable ffmpeg_run_fs : list string → gmap string Bytes → gmap string Bytes * option string.
Variable Number_toString : Q → string.

(** The loop ends within as many turns as there are files, plus one: it
    reads the frames that are there from [frameIndex] on, up to the first
    one that is missing, and deletes them. *)
Lemma read_frames_spec (fuel : nat) :
  forall (frameIndex : nat) (frames : list Bytes) (w : World),
  ffmpeg_loaded w = true -> (size (fs w) < fuel)%nat ->
  exists read w',
    read_frames ffmpeg_load fuel frameIndex frames w = Some (frames ++ read, w') /\
    ffmpeg_loaded w' = true /\
    (forall k, (k < length read)%nat ->
       fs w !! frameName (frameIndex + k) = read !! k) /\
    fs w !! frameName (frameIndex + length read) = None /\
    (forall k, (k < length read)%nat -> fs w' !! frameName (frameIndex + k) = None) /\
    (forall name,
       (forall k, (k < length read)%nat -> name <> frameName (frameIndex + k)) ->
       fs w' !! name = fs w !! name).
Proof.
  induction fuel as [|fuel IH]; intros frameIndex frames w Hw Hsize; [lia|].
  cbn [read_frames]. cbv zeta. rewrite readFile_loaded by exact Hw.
  unfold ff_readFile. destruct (fs w !! frameName frameIndex) as [data|] eqn:E.
  - rewrite deleteFile_loaded by exact Hw.
    set (w2 := set_fs (delete (frameName frameIndex)) w).
    assert (Hfs2 : fs w2 = delete (frameName frameIndex) (fs w)) by reflexivity.
    assert (Hw2 : ffmpeg_loaded w2 = true) by exact Hw.
    assert (Hsize2 : (size (fs w2) < fuel)%nat).
    { assert (Hpos : size (fs w) <> 0%nat).
      { intros H0. apply map_size_empty_iff in H0. rewrite H0, lookup_empty in E.
        discriminate E. }
      rewrite Hfs2, map_size_delete_Some by (rewrite E; eauto). lia. }
    destruct (IH (S frameIndex) (frames ++ [data]) w2 Hw2 Hsize2)
      as (read & w' & Hrun & Hw' & Hread & Hend & Hgone & Hrest).
    assert (Hne : forall k, frameName (S frameIndex + k) <> frameName frameIndex)
      by (intros k H; apply frameName_inj in H; lia).
    exists (data :: read), w'. rewrite Hrun, <- app_assoc. cbn [app length].
    split; [reflexivity|]. split; [exact Hw'|]. split; [|split; [|split]].
    + intros [|k] Hk.
      * rewrite Nat.add_0_r. exact E.
      * change ((data :: read) !! S k) with (read !! k).
        rewrite Nat.add_succ_r, <- Nat.add_succ_l, <- (Hread k) by lia.
        rewrite Hfs2, lookup_delete_ne by (apply not_eq_sym, Hne). reflexivity.
    + rewrite Nat.add_succ_r, <- Nat.add_succ_l, <- Hend.
      rewrite Hfs2, lookup_delete_ne by (apply not_eq_sym, Hne). reflexivity.
    + intros [|k] Hk.
      * rewrite Nat.add_0_r, Hrest, Hfs2 by (intros k _; apply not_eq_sym, Hne).
        apply lookup_delete_eq.
      * rewrite Nat.add_succ_r, <- Nat.add_succ_l. apply Hgone. lia.
    + intros name Hname. rewrite Hrest, Hfs2.
      * apply lookup_delete_ne. specialize (Hname 0%nat ltac:(lia)).
        rewrite Nat.add_0_r in Hname. apply not_eq_sym, Hname.
      * intros k Hk. specialize (Hname (S k) ltac:(lia)).
        rewrite Nat.add_succ_r in Hname. exact Hname.
  - exists [], w. rewrite app_nil_r, Nat.add_0_r. cbn [length].
    split; [reflexivity|]. split; [exact Hw|]. split; [intros k Hk; lia|].
    split; [exact E|]. split; [intros k Hk; lia|]. reflexivity.
Qed.

(** X28.  [extractFrames] with ffmpeg loaded, whatever file system the
    ffmpeg command leaves.  The reading loop ends (as many turns as the
    command left files are enough) and input.mp4 is deleted in every
    case.  When the command fails the call throws its error.  Otherwise
    the call returns the frames frame_001.jpg, frame_002.jpg, ... that
    the command left, in order, up to the first number that is missing;
    these files are deleted and no other file is touched. *)
Theorem extractFrames_reads_and_cleans (fuel : nat) (videoBlob : Bytes) (interval : Q)
    (w : World) (files : gmap string Bytes) (error : option string) :
  ffmpeg_loaded w = true ->
  ffmpeg_run_fs (extractFrames_args Number_toString interval)
    (<["input.mp4" := videoBlob]> (fs w)) = (files, error) ->
  (size files < fuel)%nat ->
  exists r w',
    extractFrames ffmpeg_load ffmpeg_run_fs Number_toString fuel videoBlob interval w
    = Some (r, w') /\
    fs w' !! "input.mp4" = None /\
    match error with
    | Some e => r = Throw e /\ fs w' = delete "input.mp4" files
    | None =>
        exists frames,
          r = Ok frames /\
          (forall k, (k < length frames)%nat ->
             files !! frameName (S k) = frames !! k) /\
          files !! frameName (S (length frames)) = None /\
          (forall k, (k < length frames)%nat -> fs w' !! frameName (S k) = None) /\
          (forall name,
             name <> "input.mp4" ->
             (forall k, (k < length frames)%nat -> name <> frameName (S k)) ->
             fs w' !! name = files !! name)
    end.
Proof.
  intros Hw Hrun Hsize. unfold extractFrames.
  rewrite getFFmpeg_loaded by exact Hw. cbv zeta.
  unfold mbind, M_bind. rewrite writeFile_loaded by exact Hw.
  unfold ff_exec_fs.
  change (fs (set_fs (insert "input.mp4" videoBlob) w))
    with (<["input.mp4" := videoBlob]> (fs w)).
  rewrite Hrun.
  set (w2 := set_fs (λ _, files) _).
  assert (Hw2 : ffmpeg_loaded w2 = true) by exact Hw.
  assert (Hfs2 : fs w2 = files) by reflexivity.
  destruct error as [e|].
  - unfold try_finally, throw. rewrite deleteFile_loaded by exact Hw2.
    eexists _, _. split; [reflexivity|].
    change (fs (set_fs (delete "input.mp4") w2)) with (delete "input.mp4" (fs w2)).
    rewrite Hfs2. split; [apply lookup_delete_eq|]. split; reflexivity.
  - destruct (read_frames_spec fuel 1 [] w2 Hw2 ltac:(rewrite Hfs2; exact Hsize))
      as (frames & w3 & Hloop & Hw3 & Hread & Hend & Hgone & Hrest).
    rewrite Hloop. cbn [app]. unfold try_finally, mret, M_ret.
    rewrite deleteFile_loaded by exact Hw3.
    eexists _, _. split; [reflexivity|].
    change (fs (set_fs (delete "input.mp4") w3)) with (delete "input.mp4" (fs w3)).
    split; [apply lookup_delete_eq|].
    exists frames. rewrite Hfs2 in Hread, Hend, Hrest.
    split; [reflexivity|]. split; [exact Hread|]. split; [exact Hend|]. split.
    + intros k Hk. rewrite lookup_delete_ne by (apply not_eq_sym, frameName_not_input).
      apply (Hgone k Hk).
    + intros name Hin Hname. rewrite lookup_delete_ne by (apply not_eq_sym, Hin).
      apply Hrest. exact Hname.
Qed.
End FramesFacts.

Lemma extractFrames_reads_and_cleans_witness :
  exists w',
    extractFrames (Ok ()) two_frames show_Q 5 [Byte.x00] (1 # 2) world_loaded
    = Some (Ok [[Byte.x01]; [Byte.x02]], w') /\
    fs w' !! "input.mp4" = None.
Proof.
  destruct (extractFrames_reads_and_cleans (Ok ()) two_frames show_Q 5 [Byte.x00]
              (1 # 2) world_loaded
              (fst (two_frames [] (<["input.mp4" := [Byte.x00]]> ∅))) None)
    as (r & w' & Hrun & Hinput & _).
  - reflexivity.
  - reflexivity.
  - vm_compute. lia.
  - exists w'. split; [|exact Hinput].
    rewrite Hrun. f_equal. f_equal.
    assert (H : fst <$> extractFrames (Ok ()) two_frames show_Q 5 [Byte.x00] (1 # 2)
                          world_loaded
                = Some (Ok [[Byte.x01]; [Byte.x02]]))
      by (vm_compute; reflexivity).
    rewrite Hrun in H. injection H as H. exact H.
Defined.


(** ** The client and the route *)

Section ClientFacts.
Variable ffmpeg_load : result unit.
Variable ffmpeg_run : list string → gmap string Bytes → ExecOutcome.
Variable Number_toString : Q → string.
Variable fetch : string → result (bool * Bytes).
Variable put : string → Bytes → result string.
Variable uuidv4 : string.

Lemma requestBody_segments (origin : string) (project : Project) (videoUrl : string) :
  req_segments (requestBody origin project videoUrl) = Some (project_segments project).
Proof.
  unfold requestBody. cbn [req_segments]. f_equal.
  induction (project_segments project) as [|[id t s ts] rest IH]; [reflexivity|].
  cbn [map seg_id outputTime script sourceTimestamp]. f_equal. exact IH.
Qed.

(** X29.  The request that the client's [startProcessing] builds for a
    project with at least one segment (which [processVideo] checks before
    it starts) and a non-empty video URL is never refused by
    [POST /api/process]: the route answers 200 with the job's identifier
    and stores and schedules a pending job with the project's segments,
    their number, the video URL, the project's music volume and caption
    switch (so the route's own defaults for these two are not used), and
    a non-empty voice: the selected voice's identifier, or
    en_US-lessac-medium when there is none. *)
Theorem client_request_is_accepted (origin : string) (project : Project)
    (videoUrl : string) (w : World) :
  project_segments project <> [] ->
  videoUrl <> "" ->
  exists job,
    POST_process ffmpeg_load ffmpeg_run Number_toString fetch put uuidv4
      (Ok (requestBody origin project videoUrl)) w
    = (Ok (json (body_started uuidv4 status_pending "Processing started"),
           Some (Processor.processVideo ffmpeg_load ffmpeg_run Number_toString fetch put
                   job)),
       record_job uuidv4 job w) /\
    job_id job = uuidv4 /\
    job_status job = status_pending /\
    job_segments job = project_segments project /\
    job_totalSegments job = length (project_segments project) /\
    job_videoUrl job = videoUrl /\
    job_musicVolume job = project_musicVolume project /\
    job_includeCaptions job = project_includeCaptions project /\
    job_voiceId job <> "" /\
    (forall voice, project_selectedVoice project = Some voice -> voice_id voice <> "" ->
       job_voiceId job = voice_id voice) /\
    (project_selectedVoice project = None -> job_voiceId job = "en_US-lessac-medium").
Proof.
  intros Hsegs Hurl.
  assert (Hvalid : valid_request (requestBody origin project videoUrl)).
  { split; [|split].
    - cbn. destruct videoUrl; [congruence|reflexivity].
    - cbn. destruct (voice_id <$> project_selectedVoice project) as [[|c s]|]; reflexivity.
    - rewrite requestBody_segments.
      destruct (project_segments project) as [|segment rest]; [congruence|eauto]. }
  destruct Hvalid as (Hv & Hi & _).
  pose proof (requestBody_segments origin project videoUrl) as Hs.
  set (body := requestBody origin project videoUrl) in *.
  exists (new_job uuidv4 (default "" (req_videoUrl body)) (default "" (req_voiceId body))
            (project_segments project) body).
  split.
  - destruct (project_segments project) as [|segment rest] eqn:E; [congruence|].
    unfold POST_process, try_catch, lift. monad_step. rewrite Hv, Hs, Hi. reflexivity.
  - unfold body.
    cbn [new_job job_id job_status job_segments job_totalSegments job_videoUrl
           job_musicVolume job_includeCaptions job_voiceId requestBody req_videoUrl
           req_voiceId req_musicVolume req_includeCaptions default from_option id].
    repeat split.
    + destruct (voice_id <$> project_selectedVoice project) as [[|c s]|]; discriminate.
    + intros voice -> Hid. cbn. destruct (voice_id voice); [congruence|reflexivity].
    + intros ->. reflexivity.
Qed.
End ClientFacts.

Lemma client_request_is_accepted_witness :
  exists job,
    fst (POST_process (Ok ()) run_ok show_Q (λ _, Throw "offline") (λ _ _, Throw "offline")
           "job-1" (Ok (requestBody "https://shorts.example" sample_project
                          "https://blob.example/uploads/1-a.mp4")) world_empty)
    = Ok (json (body_started "job-1" status_pending "Processing started"),
          Some (Processor.processVideo (Ok ()) run_ok show_Q (λ _, Throw "offline")
                  (λ _ _, Throw "offline") job)) /\
    job_voiceId job = "en_US-lessac-medium" /\
    job_musicVolume job = 15 # 100.
Proof.
  destruct (client_request_is_accepted (Ok ()) run_ok show_Q (λ _, Throw "offline")
              (λ _ _, Throw "offline") "job-1" "https://shorts.example" sample_project
              "https://blob.example/uploads/1-a.mp4" world_empty)
    as (job & Hpost & _ & _ & _ & _ & _ & Hvol & _ & _ & Hvoice & _).
  - discriminate.
  - discriminate.
  - exists job. rewrite Hpost. split; [reflexivity|].
    split; [|exact Hvol]. apply (Hvoice _ eq_refl). discriminate.
Defined.


Section PollingFacts.
Variable ffmpeg_load : result unit.
Variable ffmpeg_run : list string → gmap string Bytes → ExecOutcome.
Variable Number_toString : Q → string.
Variable fetch : string → result (bool * Bytes).
Variable put : string → Bytes → result string.
Variable uuidv4 : string.


End PollingFacts.

